(** * Dependency resolution and install/uninstall planning of mip

    A shallow embedding of the planning core of [mip_client/commands.py]
    (and of the older [mip/commands.py]): the dependency graph builder, the
    topological sort of the install planner, the reverse-dependency finder
    and the uninstall ordering, together with the properties the
    specification states about them; then the plans shown to the user, the
    execution of the uninstall plan, the install command of the older
    version and the scan for name collisions, with the properties the code
    shows; last the planners run under the recursion limit of the
    interpreter, with the existence test of the install commands as a
    parameter.

    Conventions.
    - A Python [set] of names is a [gset string]; where the code iterates
      over a set (or turns it into a list) the iteration order is not fixed
      by Python, so it is a parameter [enum] of the model, only known to
      list the members of the set once each.
    - [sys.exit(1)] after a printed error is the outcome [Exit]; the
      recursive functions are defined by recursion on a fuel argument and
      [OutOfFuel] / [None] is the outcome of running out of it.  The
      top-level definitions supply enough fuel, and this is proved.
    - The parsed index is the list under its ['packages'] key; the packages
      directory is the list of its sub-directories in the order [iterdir]
      yields them, each with the dependency list
      [_read_package_dependencies] reads from its manifest (the empty list
      when the manifest is missing or unreadable).  Entries that are not
      directories are skipped by the code and left out; a packages
      directory that does not exist is the empty list.
    - What the environment decides during the execution of a plan (the
      answer typed at the prompt, whether the removal of a directory
      fails) is a parameter of the model. *)

From stdpp Require Import gmap strings list relations sorting.

Open Scope string_scope.
Open Scope nat_scope.
Open Scope list_scope.

(** ** Data model *)

(** An entry of the index.  Only [name] and [dependencies] are read by the
    planner; an absent ['dependencies'] key reads as the empty list. *)
Record package := Package {
  name : string;
  version : string;
  dependencies : list string;
  mhl_url : string
}.

(** A sub-directory of the packages directory with the dependencies read
    from its [mip.json]. *)
Record installed_package := Installed {
  dir_name : string;
  manifest_dependencies : list string
}.

(** The two fatal errors of dependency resolution. *)
Inductive fatal :=
| CircularDependency (cycle : list string)
| PackageNotFound (package_name : string).

(** Outcome of a computation that may print an error and exit. *)
Inductive run (A : Type) :=
| Done (a : A)
| Exit (e : fatal)
| OutOfFuel.

Arguments Done {A} a.
Arguments Exit {A} e.
Arguments OutOfFuel {A}.

#[export] Instance run_ret : MRet run := λ A a, Done a.

#[export] Instance run_bind : MBind run := λ A B f c,
  match c with
  | Done a => f a
  | Exit e => Exit e
  | OutOfFuel => OutOfFuel
  end.

(** The line printed before [sys.exit(1)]. *)
Definition fatal_message (e : fatal) : string :=
  match e with
  | CircularDependency cycle =>
      "Error: Circular dependency detected: " +:+ String.concat " -> " cycle
  | PackageNotFound package_name =>
      "Error: Package '" +:+ package_name +:+ "' not found in repository"
  end.

(** [for pkg in index.get('packages', []): if pkg.get('name') == package_name: ... break] *)
Fixpoint find_package (package_name : string) (index : list package) : option package :=
  match index with
  | [] => None
  | pkg :: rest =>
      if bool_decide (name pkg = package_name) then Some pkg
      else find_package package_name rest
  end.

(** The loop [for dep in ...: result.extend(resolve(dep, visited))], the
    visited set being threaded through the calls. *)
Fixpoint for_each_dependency (resolve : string → gset string → run (list string * gset string))
    (deps : list string) (visited : gset string) (result : list string)
    : run (list string * gset string) :=
  match deps with
  | [] => Done (result, visited)
  | dep :: rest =>
      '(sub, visited') ← resolve dep visited;
      for_each_dependency resolve rest visited' (result ++ sub)
  end.

(** A recursive call receives the copy [path[:]]: what the callee appends to
    its copy is lost when it returns. *)
Definition with_copy (c : run (list string * gset string * list string))
    : run (list string * gset string) :=
  '(sub, visited', _) ← c; Done (sub, visited').

Module MipClient.

(** [_build_dependency_graph] of [mip_client/commands.py].  The result is
    the returned list, the visited set after the call and the caller's
    [path] list after the call (both are mutated in place by the code). *)
Fixpoint build_dependency_graph (fuel : nat) (package_name : string) (index : list package)
    (visited : gset string) (path : list string)
    : run (list string * gset string * list string) :=
  match fuel with
  | 0 => OutOfFuel
  | S fuel =>
      if bool_decide (package_name ∈ path) then
        Exit (CircularDependency (path ++ [package_name]))
      else if bool_decide (package_name ∈ visited) then
        Done ([], visited, path)
      else
        match find_package package_name index with
        | None => Exit (PackageNotFound package_name)
        | Some package_info =>
            let visited := {[package_name]} ∪ visited in
            let path := path ++ [package_name] in
            '(result, visited) ←
              for_each_dependency
                (λ dep visited, with_copy (build_dependency_graph fuel dep index visited path))
                (dependencies package_info) visited [];
            Done (result ++ [package_name], visited, path)
        end
  end.

(** Every expanding call marks a new name of the index as visited, so one
    unit of fuel per index entry (and one for the last returning call) is
    enough. *)
Definition _build_dependency_graph (package_name : string) (index : list package)
    (visited : gset string) (path : list string)
    : run (list string * gset string * list string) :=
  build_dependency_graph (S (length index)) package_name index visited path.

End MipClient.

Module Mip.

(** [_build_dependency_graph] of the older [mip/commands.py], which reads
    the parsed [packages.json] manifest. *)
Fixpoint build_dependency_graph (fuel : nat) (package_name : string) (manifest : list package)
    (visited : gset string) (path : list string)
    : run (list string * gset string * list string) :=
  match fuel with
  | 0 => OutOfFuel
  | S fuel =>
      if bool_decide (package_name ∈ path) then
        Exit (CircularDependency (path ++ [package_name]))
      else if bool_decide (package_name ∈ visited) then
        Done ([], visited, path)
      else
        match find_package package_name manifest with
        | None => Exit (PackageNotFound package_name)
        | Some package_info =>
            let visited := {[package_name]} ∪ visited in
            let path := path ++ [package_name] in
            '(result, visited) ←
              for_each_dependency
                (λ dep visited, with_copy (build_dependency_graph fuel dep manifest visited path))
                (dependencies package_info) visited [];
            Done (result ++ [package_name], visited, path)
        end
  end.

Definition _build_dependency_graph (package_name : string) (manifest : list package)
    (visited : gset string) (path : list string)
    : run (list string * gset string * list string) :=
  build_dependency_graph (S (length manifest)) package_name manifest visited path.

End Mip.

(** ** Depth-first post-order: the nested [visit] closures

    [_topological_sort_packages] and [_build_uninstall_order] each define a
    closure [visit] over a [visited] set and a [result] list:
    [[
      def visit(pkg_name):
          if pkg_name in visited: return
          visited.add(pkg_name)
          for other in <candidates of pkg_name>:
              if <other is selected for pkg_name>: visit(other)
          result.append(pkg_name)
    ]]
    They differ in the candidates and in the test only. *)
Section visit.

Variable candidates : string → list string.
Variable selected : string → string → bool.

Fixpoint visit_each (visit : string → gset string * list string → option (gset string * list string))
    (pkg_name : string) (others : list string) (state : gset string * list string)
    : option (gset string * list string) :=
  match others with
  | [] => Some state
  | other :: rest =>
      if selected pkg_name other then
        state' ← visit other state; visit_each visit pkg_name rest state'
      else visit_each visit pkg_name rest state
  end.

Fixpoint visit (fuel : nat) (pkg_name : string) (state : gset string * list string)
    : option (gset string * list string) :=
  match fuel with
  | 0 => None
  | S fuel =>
      if bool_decide (pkg_name ∈ state.1) then Some state
      else
        '(visited, result) ←
          visit_each (visit fuel) pkg_name (candidates pkg_name) ({[pkg_name]} ∪ state.1, state.2);
        Some (visited, result ++ [pkg_name])
  end.

(** [for pkg_name in package_names: visit(pkg_name)] *)
Fixpoint visit_all (fuel : nat) (pkg_names : list string) (state : gset string * list string)
    : option (gset string * list string) :=
  match pkg_names with
  | [] => Some state
  | pkg_name :: rest => state' ← visit fuel pkg_name state; visit_all fuel rest state'
  end.

End visit.

(** ** Install planner *)

(** [{pkg['name']: pkg for pkg in index.get('packages', [])}]: a later entry
    of the same name replaces an earlier one. *)
Definition package_info_map (index : list package) : gmap string package :=
  fold_left (λ m pkg, <[name pkg := pkg]> m) index ∅.

(** The adjacency dictionary [dependencies] of [_topological_sort_packages]. *)
Definition adjacency (package_names : list string) (info_map : gmap string package)
    : gmap string (list string) :=
  fold_left
    (λ adj pkg_name,
       <[pkg_name := match info_map !! pkg_name with
                     | Some pkg_info => dependencies pkg_info
                     | None => []
                     end]> adj)
    package_names ∅.

Definition _topological_sort_packages (package_names : list string)
    (info_map : gmap string package) : option (list string) :=
  let adj := adjacency package_names info_map in
  '(_, result) ←
    visit_all (λ pkg_name, default [] (adj !! pkg_name))
              (λ _ dep, bool_decide (dep ∈ package_names))
              (S (length package_names)) package_names (∅, []);
  Some result.

(** [pkg.endswith(suffix)] *)
Definition endswith (s suffix : string) : bool :=
  bool_decide (String.length suffix ≤ String.length s)
  && bool_decide (String.substring (String.length s - String.length suffix)
                            (String.length suffix) s = suffix).

(** [(mip_dir / pkg_name).exists()] *)
Definition exists_in (mip_dir : list installed_package) (pkg_name : string) : bool :=
  bool_decide (pkg_name ∈ dir_name <$> mip_dir).

(** The actions of phase 2 of [install_package]. *)
Inductive step :=
| DownloadAndInstall (pkg_name : string)
| InstallFromMhl (mhl_source : string).

Record install_plan := InstallPlan {
  all_required : gset string;
  all_packages_to_install : list string;
  to_install : list string;
  already_installed : list string;
  executed : list step
}.

(** The loop that resolves every requested name: each call of the graph
    builder takes the default [visited=None], [path=None], that is a new
    empty set and a new empty list. *)
Fixpoint resolve_requested (index : list package) (repo_packages : list string)
    (required : gset string) : run (gset string) :=
  match repo_packages with
  | [] => Done required
  | pkg_name :: rest =>
      '(install_order, _, _) ← MipClient._build_dependency_graph pkg_name index ∅ [];
      resolve_requested index rest (required ∪ list_to_set install_order)
  end.

(** The sequences the successive calls of the graph builder return in that
    loop, one per requested name. *)
Fixpoint install_orders (index : list package) (repo_packages : list string)
    : run (list (list string)) :=
  match repo_packages with
  | [] => Done []
  | pkg_name :: rest =>
      '(install_order, _, _) ← MipClient._build_dependency_graph pkg_name index ∅ [];
      orders ← install_orders index rest;
      Done (install_order :: orders)
  end.

Section planning.

(** The order in which Python lists the members of a set. *)
Variable enum : gset string → list string.

Definition install_package (index : list package) (mip_dir : list installed_package)
    (package_names : list string) : run install_plan :=
  let repo_packages := filter (λ pkg, ¬ endswith pkg ".mhl") package_names in
  let mhl_sources := filter (λ pkg, endswith pkg ".mhl") package_names in
  '(required, all_packages_to_install) ←
    match repo_packages with
    | [] => Done (∅, [])
    | _ =>
        required ← resolve_requested index repo_packages ∅;
        match _topological_sort_packages (enum required) (package_info_map index) with
        | Some sorted => Done (required, sorted)
        | None => OutOfFuel
        end
    end;
  let to_install := filter (λ pkg_name, ¬ exists_in mip_dir pkg_name) all_packages_to_install in
  let already_installed := filter (λ pkg_name, exists_in mip_dir pkg_name) all_packages_to_install in
  Done {| all_required := required;
          all_packages_to_install := all_packages_to_install;
          to_install := to_install;
          already_installed := already_installed;
          executed := (DownloadAndInstall <$> to_install) ++ (InstallFromMhl <$> mhl_sources) |}.

End planning.

(** ** Reverse-dependency finder *)

(** The scan [for pkg_dir in mip_dir.iterdir()] of
    [_find_reverse_dependencies]. *)
Fixpoint scan_packages (find : string → gset string → option (list string * gset string))
    (package_name : string) (entries : list installed_package)
    (visited : gset string) (reverse_deps : list string)
    : option (list string * gset string) :=
  match entries with
  | [] => Some (reverse_deps, visited)
  | pkg_dir :: rest =>
      let pkg_name := dir_name pkg_dir in
      if bool_decide (pkg_name = package_name) then
        scan_packages find package_name rest visited reverse_deps
      else if bool_decide (package_name ∈ manifest_dependencies pkg_dir) then
        '(transitive_deps, visited') ← find pkg_name visited;
        scan_packages find package_name rest visited'
                      ((reverse_deps ++ [pkg_name]) ++ transitive_deps)
      else scan_packages find package_name rest visited reverse_deps
  end.

Fixpoint find_reverse_dependencies (fuel : nat) (package_name : string)
    (mip_dir : list installed_package) (visited : gset string)
    : option (list string * gset string) :=
  match fuel with
  | 0 => None
  | S fuel =>
      if bool_decide (package_name ∈ visited) then Some ([], visited)
      else
        scan_packages (λ pkg_name visited, find_reverse_dependencies fuel pkg_name mip_dir visited)
                      package_name mip_dir ({[package_name]} ∪ visited) []
  end.

(** The first call may expand a name that is not installed; every other
    expanding call marks a new installed name. *)
Definition _find_reverse_dependencies (package_name : string)
    (mip_dir : list installed_package) (visited : gset string)
    : option (list string * gset string) :=
  find_reverse_dependencies (S (S (length mip_dir))) package_name mip_dir visited.

(** ** Uninstall planner *)

(** [_read_package_dependencies(mip_dir / pkg_name)]: the empty list when
    there is no such directory. *)
Fixpoint _read_package_dependencies (mip_dir : list installed_package) (pkg_name : string)
    : list string :=
  match mip_dir with
  | [] => []
  | pkg_dir :: rest =>
      if bool_decide (dir_name pkg_dir = pkg_name) then manifest_dependencies pkg_dir
      else _read_package_dependencies rest pkg_name
  end.

(** [_build_uninstall_order], given the order in which the set
    [packages_to_uninstall] is iterated. *)
Definition build_uninstall_order (packages_to_uninstall : list string)
    (mip_dir : list installed_package) : option (list string) :=
  let adj :=
    fold_left (λ adj pkg_name, <[pkg_name := _read_package_dependencies mip_dir pkg_name]> adj)
              packages_to_uninstall (∅ : gmap string (list string)) in
  '(_, result) ←
    visit_all (λ _, packages_to_uninstall)
              (λ pkg_name other_pkg,
                 bool_decide (other_pkg ≠ pkg_name)
                 && bool_decide (pkg_name ∈ default [] (adj !! other_pkg)))
              (S (length packages_to_uninstall)) packages_to_uninstall (∅, []);
  Some result.

(** [for pkg_name in requested_packages: all_to_uninstall.update(...)]: each
    call of the finder takes the default [visited=None]. *)
Fixpoint collect_reverse_dependencies (mip_dir : list installed_package)
    (requested_packages : list string) (all_to_uninstall : gset string)
    : option (gset string) :=
  match requested_packages with
  | [] => Some all_to_uninstall
  | pkg_name :: rest =>
      '(reverse_deps, _) ← _find_reverse_dependencies pkg_name mip_dir ∅;
      collect_reverse_dependencies mip_dir rest (all_to_uninstall ∪ list_to_set reverse_deps)
  end.

Record uninstall_plan := UninstallPlan {
  not_installed : list string;
  all_to_uninstall : gset string;
  to_uninstall : list string
}.

Section uninstall_planning.

Variable enum : gset string → list string.

Definition _build_uninstall_order (packages_to_uninstall : gset string)
    (mip_dir : list installed_package) : option (list string) :=
  build_uninstall_order (enum packages_to_uninstall) mip_dir.

(** Phase 1 of [uninstall_package]; with no installed requested package the
    function returns before planning, which is the empty plan here. *)
Definition uninstall_package (mip_dir : list installed_package) (package_names : list string)
    : option uninstall_plan :=
  let not_installed := filter (λ pkg_name, ¬ exists_in mip_dir pkg_name) package_names in
  let requested_packages := filter (λ pkg_name, exists_in mip_dir pkg_name) package_names in
  match requested_packages with
  | [] => Some {| not_installed := not_installed; all_to_uninstall := ∅; to_uninstall := [] |}
  | _ =>
      all ← collect_reverse_dependencies mip_dir requested_packages
                                         (list_to_set requested_packages);
      order ← _build_uninstall_order all mip_dir;
      Some {| not_installed := not_installed; all_to_uninstall := all; to_uninstall := order |}
  end.

End uninstall_planning.

(** ** Relations used in the statements *)

(** [p] declares [d] as a dependency in the index, as the graph builder
    reads it (the first entry named [p]). *)
Definition depends_on (index : list package) (p d : string) : Prop :=
  ∃ package_info, find_package p index = Some package_info ∧ d ∈ dependencies package_info.

(** The same through the dictionary the topological sort is given. *)
Definition declares (info_map : gmap string package) (p d : string) : Prop :=
  ∃ pkg_info, info_map !! p = Some pkg_info ∧ d ∈ dependencies pkg_info.

(** ... restricted to the names being sorted. *)
Definition declares_within (package_names : list string) (info_map : gmap string package)
    (p d : string) : Prop :=
  p ∈ package_names ∧ d ∈ package_names ∧ declares info_map p d.

(** A directory named [p] whose manifest lists [d]. *)
Definition requires (mip_dir : list installed_package) (p d : string) : Prop :=
  ∃ pkg_dir, pkg_dir ∈ mip_dir ∧ dir_name pkg_dir = p ∧ d ∈ manifest_dependencies pkg_dir.

(** ... where [d] is another package than [p]. *)
Definition requires_other (mip_dir : list installed_package) (p d : string) : Prop :=
  requires mip_dir p d ∧ p ≠ d.

(** [p] and [q] are in the uninstall set and the manifest read for [p]
    lists [q]. *)
Definition reads_within (packages_to_uninstall : gset string)
    (mip_dir : list installed_package) (p q : string) : Prop :=
  p ∈ packages_to_uninstall ∧ q ∈ packages_to_uninstall
  ∧ q ∈ _read_package_dependencies mip_dir p.

(** [x] occurs in [l] before an occurrence of [y]. *)
Definition before (x y : string) (l : list string) : Prop :=
  ∃ l1 l2, l = l1 ++ y :: l2 ∧ x ∈ l1.

(** Every consecutive pair of [l] is related by [R]. *)
Fixpoint path_in (R : string → string → Prop) (l : list string) : Prop :=
  match l with
  | [] => True
  | x :: rest =>
      match rest with
      | [] => True
      | y :: _ => R x y ∧ path_in R rest
      end
  end.

(** A cycle of the graph: first and last names equal, every consecutive
    pair a declared dependency. *)
Definition true_cycle (index : list package) (cycle : list string) : Prop :=
  2 ≤ length cycle ∧ head cycle = last cycle ∧ path_in (depends_on index) cycle.

(** No cycle can be reached from [package_name]. *)
Definition acyclic_from (index : list package) (package_name : string) : Prop :=
  ∀ n, rtc (depends_on index) package_name n → ¬ tc (depends_on index) n n.

(** [enum] lists the members of a set, each once. *)
Definition enumerates (enum : gset string → list string) : Prop :=
  ∀ X, enum X ≡ₚ elements X.

(** ** The sentences of the specification that the code does not satisfy,
    as they are written *)


(** The planner of the specification: the visited set of one call is handed
    to the next. *)
Fixpoint install_orders_shared (index : list package) (repo_packages : list string)
    (visited : gset string) : run (list (list string)) :=
  match repo_packages with
  | [] => Done []
  | pkg_name :: rest =>
      '(install_order, visited', _) ←
        MipClient._build_dependency_graph pkg_name index visited [];
      orders ← install_orders_shared index rest visited';
      Done (install_order :: orders)
  end.

(** The calls of a session share one visited set, so no package is expanded
    (and emitted) twice in the session. *)
Definition session_shares_visited (index : list package) (repo_packages : list string) : Prop :=
  install_orders index repo_packages = install_orders_shared index repo_packages ∅
  ∧ ∀ orders, install_orders index repo_packages = Done orders → NoDup (concat orders).


(** Every package of the uninstall plan comes before the packages it
    depends on. *)
Definition dependents_removed_first (enum : gset string → list string)
    (mip_dir : list installed_package) (package_names : list string) : Prop :=
  ∀ plan, uninstall_package enum mip_dir package_names = Some plan →
    ∀ p q, reads_within (all_to_uninstall plan) mip_dir p q → before p q (to_uninstall plan).

(** The topological sort puts dependencies first and keeps the input order
    of packages that no dependency path relates. *)
Definition sorts_stably (package_names : list string) (info_map : gmap string package) : Prop :=
  ∀ sorted, _topological_sort_packages package_names info_map = Some sorted →
    (∀ p d, declares_within package_names info_map p d → before d p sorted)
    ∧ (∀ a b, before a b package_names →
         ¬ tc (declares_within package_names info_map) a b →
         ¬ tc (declares_within package_names info_map) b a →
         before a b sorted).

(** The finder names no package twice. *)
Definition finds_without_repetition (mip_dir : list installed_package) (X : string) : Prop :=
  ∀ reverse_deps visited,
    _find_reverse_dependencies X mip_dir ∅ = Some (reverse_deps, visited) → NoDup reverse_deps.

(** The caller's path list is the same after the call. *)
Definition leaves_path_unchanged (index : list package) (package_name : string)
    (visited : gset string) (path : list string) : Prop :=
  ∀ result visited' path',
    MipClient._build_dependency_graph package_name index visited path
      = Done (result, visited', path') →
    path' = path.

(** ** What a returning call of the graph builder establishes

    [out] is the returned sequence and [V'] the visited set after a call on
    [package_name] entered with visited set [V] and path [P]. *)
Definition resolved (index : list package) (package_name : string)
    (V : gset string) (P out : list string) (V' : gset string) : Prop :=
  V' = V ∪ list_to_set out
  ∧ NoDup out
  ∧ (∀ x, x ∈ out → x ∉ V)
  ∧ (package_name ∈ V')
  ∧ (package_name ∉ P)
  ∧ (∀ p d, p ∈ out → depends_on index p d → (d ∉ P) ∧ (d ∈ V ∨ before d p out))
  ∧ (∀ p, p ∈ out → rtc (depends_on index) package_name p)
  ∧ (package_name ∉ V → last out = Some package_name).

(** What an aborting call establishes: the reported path extends the
    caller's path by a chain of dependency edges from [package_name] and ends
    in a name it already holds; a name reported missing is reachable and
    absent. *)
Definition aborted (index : list package) (package_name : string) (P : list string)
    (e : fatal) : Prop :=
  match e with
  | CircularDependency cycle =>
      (∃ l, cycle = P ++ l ∧ head l = Some package_name ∧ path_in (depends_on index) l)
      ∧ (∃ pre x, cycle = pre ++ [x] ∧ x ∈ pre)
  | PackageNotFound n =>
      rtc (depends_on index) package_name n ∧ find_package n index = None
  end.

(** The names of the index. *)
Definition index_names (index : list package) : gset string :=
  list_to_set (name <$> index).

(** ** What the [visit] closures establish

    [other] is visited from [pkg_name]: it is a candidate that passes the
    test. *)
Definition successor (candidates : string → list string) (selected : string → string → bool)
    (pkg_name other : string) : Prop :=
  other ∈ candidates pkg_name ∧ selected pkg_name other.

(** [out] is what visiting [roots] in turn appends to [result], and [V'] the
    visited set afterwards, when the visits start with visited set [V]. *)
Definition visited_from (candidates : string → list string)
    (selected : string → string → bool) (roots : list string)
    (V : gset string) (out : list string) (V' : gset string) : Prop :=
  V' = V ∪ list_to_set out
  ∧ NoDup out
  ∧ (∀ x, x ∈ out → x ∉ V)
  ∧ (∀ r, r ∈ roots → r ∈ V')
  ∧ (∀ q, q ∈ out → ∃ r, r ∈ roots ∧ rtc (successor candidates selected) r q)
  ∧ (∀ q o, q ∈ out → successor candidates selected q o →
       o ∈ V ∨ before o q out ∨ rtc (successor candidates selected) o q).

(** ** What a returning call of the reverse-dependency finder establishes

    [reverse_deps] is the returned list and [V'] the visited set after a
    call on [package_name] entered with visited set [V]: the names marked
    by the call reach [package_name], every directory that requires a name
    marked by the call is marked too, and the list names the directories
    that require a name marked by the call. *)
Definition found_from (mip_dir : list installed_package) (package_name : string)
    (V : gset string) (reverse_deps : list string) (V' : gset string) : Prop :=
  V ⊆ V'
  ∧ (package_name ∈ V')
  ∧ (∀ m, m ∈ V' → m ∉ V → rtc (requires_other mip_dir) m package_name)
  ∧ (∀ m q, m ∈ V' → m ∉ V → requires_other mip_dir q m → q ∈ V')
  ∧ (∀ q, q ∈ reverse_deps ↔ ∃ m, m ∈ V' ∧ (m ∉ V) ∧ requires_other mip_dir q m).

(** The names of the package directories. *)
Definition dir_names (mip_dir : list installed_package) : gset string :=
  list_to_set (dir_name <$> mip_dir).

(** ** Sample indexes and package directories *)

(** [A] needs [B] and [C], which both need [D]. *)
Definition diamond_index : list package :=
  [Package "A" "1.0" ["B"; "C"] "a.mhl"; Package "B" "1.0" ["D"] "b.mhl";
   Package "C" "1.0" ["D"] "c.mhl"; Package "D" "1.0" [] "d.mhl"].

(** [A] needs [B]; [B] and [C] need each other. *)
Definition lasso_index : list package :=
  [Package "A" "1.0" ["B"] "a.mhl"; Package "B" "1.0" ["C"] "b.mhl";
   Package "C" "1.0" ["B"] "c.mhl"].

(** [A], [B] that needs [A], [C] that needs [B]. *)
Definition chain_index : list package :=
  [Package "A" "1.0" [] "a.mhl"; Package "B" "1.0" ["A"] "b.mhl";
   Package "C" "1.0" ["B"] "c.mhl"].

Definition single_index : list package := [Package "A" "1.0" [] "a.mhl"].

Definition pair_index : list package :=
  [Package "A" "1.0" [] "a.mhl"; Package "B" "1.0" ["A"] "b.mhl"].

(** [X] needs [B]; [A] and [B] need nothing. *)
Definition sibling_index : list package :=
  [Package "X" "1.0" ["B"] "x.mhl"; Package "A" "1.0" [] "a.mhl";
   Package "B" "1.0" [] "b.mhl"].

(** Position of a name in the chain [A], [B], [C]. *)
Definition chain_rank (pkg_name : string) : nat :=
  if bool_decide (pkg_name = "A") then 0
  else if bool_decide (pkg_name = "B") then 1 else 2.

(** [A] and [B] need each other. *)
Definition mutual_dir : list installed_package :=
  [Installed "A" ["B"]; Installed "B" ["A"]].

(** [B] and [C] need [X]; [D] needs [B] and [C]. *)
Definition diamond_dir : list installed_package :=
  [Installed "B" ["X"]; Installed "C" ["X"]; Installed "D" ["B"; "C"]; Installed "X" []].

(** [A], [B] that needs [A], [C] that needs [B]. *)
Definition chain_dir : list installed_package :=
  [Installed "A" []; Installed "B" ["A"]; Installed "C" ["B"]].

(** [A] and [B] installed, [B] needing [A]. *)
Definition pair_dir : list installed_package :=
  [Installed "A" []; Installed "B" ["A"]].

(** ** The installation plan shown to the user *)

(** The loop [for requested in repo_packages] that collects in
    [required_by] the requested packages whose dependencies hold
    [pkg_name]; the graph builder is called again for each of them, with
    the default [visited] and [path]. *)
Fixpoint required_by (index : list package) (pkg_name : string)
    (repo_packages : list string) (acc : list string) : run (list string) :=
  match repo_packages with
  | [] => Done acc
  | requested :: rest =>
      if bool_decide (requested ≠ pkg_name) then
        '(deps, _, _) ← MipClient._build_dependency_graph requested index ∅ [];
        required_by index pkg_name rest
                    (if bool_decide (pkg_name ∈ deps) then acc ++ [requested] else acc)
      else required_by index pkg_name rest acc
  end.

(** The line printed for a planned package: [requested] is
    [pkg_name in repo_packages] and [requiring] the list [required_by]. *)
Definition plan_line (pkg_name pkg_version : string) (requested : bool)
    (requiring : list string) : string :=
  if requested then "  - " +:+ pkg_name +:+ " " +:+ pkg_version
  else if bool_decide (requiring ≠ []) then
    "  - " +:+ pkg_name +:+ " " +:+ pkg_version
      +:+ " (required by " +:+ String.concat ", " requiring +:+ ")"
  else "  - " +:+ pkg_name +:+ " " +:+ pkg_version.

(** The lines printed under [Installation plan], one per package of
    [to_install], each with the ['version'] of the entry of the package;
    [None] is the [KeyError] of [package_info_map[pkg_name]], which nothing
    catches. *)
Fixpoint installation_plan (index : list package) (repo_packages to_install : list string)
    : run (option (list string)) :=
  match to_install with
  | [] => Done (Some [])
  | pkg_name :: rest =>
      match package_info_map index !! pkg_name with
      | None => Done None
      | Some pkg_info =>
          requiring ← required_by index pkg_name repo_packages [];
          let line := plan_line pkg_name (version pkg_info)
                                (bool_decide (pkg_name ∈ repo_packages)) requiring in
          lines ← installation_plan index repo_packages rest;
          Done (match lines with
                | Some lines => Some (line :: lines)
                | None => None
                end)
      end
  end.

(** ** The uninstallation plan shown to the user *)

(** The loop [while to_check] that collects in [all_deps] the packages of
    the uninstall set found from the dependencies of a package. *)
Fixpoint transitive_dependencies (fuel : nat) (mip_dir : list installed_package)
    (all_to_uninstall : gset string) (to_check : list string)
    (checked all_deps : gset string) : option (gset string) :=
  match fuel with
  | 0 => None
  | S fuel =>
      match to_check with
      | [] => Some all_deps
      | dep :: to_check =>
          if bool_decide (dep ∈ checked) || bool_decide (dep ∉ all_to_uninstall) then
            transitive_dependencies fuel mip_dir all_to_uninstall to_check checked all_deps
          else
            let checked := {[dep]} ∪ checked in
            let all_deps := {[dep]} ∪ all_deps in
            if exists_in mip_dir dep then
              transitive_dependencies fuel mip_dir all_to_uninstall
                (to_check ++ _read_package_dependencies mip_dir dep) checked all_deps
            else
              transitive_dependencies fuel mip_dir all_to_uninstall to_check checked all_deps
      end
  end.

(** Every turn of the loop takes a name from [to_check], and the
    dependencies of a directory are added to it once at most. *)
Definition _transitive_dependencies (mip_dir : list installed_package)
    (all_to_uninstall : gset string) (pkg_deps : list string) : option (gset string) :=
  transitive_dependencies
    (S (length pkg_deps
        + sum_list_with (λ pkg_dir, length (_read_package_dependencies mip_dir (dir_name pkg_dir)))
                        mip_dir))
    mip_dir all_to_uninstall pkg_deps ∅ ∅.

(** The loop [for requested in requested_packages] that collects in
    [depends_on] the requested packages a package of the plan depends
    on. *)
Fixpoint depends_on_requested (mip_dir : list installed_package)
    (all_to_uninstall : gset string) (pkg_deps requested_packages acc : list string)
    : option (list string) :=
  match requested_packages with
  | [] => Some acc
  | requested :: rest =>
      if bool_decide (requested ∈ pkg_deps) then
        depends_on_requested mip_dir all_to_uninstall pkg_deps rest (acc ++ [requested])
      else
        all_deps ← _transitive_dependencies mip_dir all_to_uninstall pkg_deps;
        depends_on_requested mip_dir all_to_uninstall pkg_deps rest
          (if bool_decide (requested ∈ all_deps) then acc ++ [requested] else acc)
  end.

(** The line printed for a package of the plan: [requested] is
    [pkg in requested_packages] and [depending] the list [depends_on]. *)
Definition uninstall_line (pkg : string) (requested : bool) (depending : list string)
    : string :=
  if requested then "  - " +:+ pkg
  else if bool_decide (depending ≠ []) then
    "  - " +:+ pkg +:+ " (depends on " +:+ String.concat ", " depending +:+ ")"
  else "  - " +:+ pkg.

(** The lines of the loop [for pkg in to_uninstall]. *)
Fixpoint uninstallation_lines (mip_dir : list installed_package)
    (all_to_uninstall : gset string) (requested_packages to_uninstall : list string)
    : option (list string) :=
  match to_uninstall with
  | [] => Some []
  | pkg :: rest =>
      line ←
        (if bool_decide (pkg ∈ requested_packages) then Some (uninstall_line pkg true [])
         else
           depending ←
             depends_on_requested mip_dir all_to_uninstall
               (_read_package_dependencies mip_dir pkg) requested_packages [];
           Some (uninstall_line pkg false depending));
      lines ← uninstallation_lines mip_dir all_to_uninstall requested_packages rest;
      Some (line :: lines)
  end.

(** The lines printed under [The following packages will be uninstalled],
    which is shown for a plan of more than one package. *)
Definition uninstallation_plan (mip_dir : list installed_package)
    (all_to_uninstall : gset string) (requested_packages to_uninstall : list string)
    : option (list string) :=
  if bool_decide (1 < length to_uninstall) then
    uninstallation_lines mip_dir all_to_uninstall requested_packages to_uninstall
  else Some [].

(** ** Execution of the uninstall plan *)

(** How [uninstall_package] ends. *)
Inductive uninstall_outcome :=
| NothingToUninstall
| Cancelled
| Uninstalled (uninstalled_count : nat)
| UninstallFailed (pkg : string).

(** The packages directory after [shutil.rmtree(mip_dir / pkg)] has
    returned. *)
Definition rmtree (mip_dir : list installed_package) (pkg : string)
    : list installed_package :=
  filter (λ pkg_dir, dir_name pkg_dir ≠ pkg) mip_dir.

Section uninstall_execution.

Variable enum : gset string → list string.

(** [str.lower] *)
Variable lower : string → string.

(** Whether [shutil.rmtree(mip_dir / pkg)] raises; the directory is then
    kept in the model as it was. *)
Variable rmtree_raises : string → bool.

(** The loop of phase 2, with the packages directory it leaves. *)
Fixpoint remove_packages (to_uninstall : list string) (mip_dir : list installed_package)
    (uninstalled_count : nat) : list installed_package * uninstall_outcome :=
  match to_uninstall with
  | [] => (mip_dir, Uninstalled uninstalled_count)
  | pkg :: rest =>
      if exists_in mip_dir pkg then
        if rmtree_raises pkg then (mip_dir, UninstallFailed pkg)
        else remove_packages rest (rmtree mip_dir pkg) (S uninstalled_count)
      else remove_packages rest mip_dir uninstalled_count
  end.

(** [uninstall_package] from the plan to the end, given the answer typed
    at the prompt. *)
Definition confirm_and_uninstall (mip_dir : list installed_package)
    (package_names : list string) (response : string)
    : option (list installed_package * uninstall_outcome) :=
  match filter (λ pkg_name, exists_in mip_dir pkg_name) package_names with
  | [] => Some (mip_dir, NothingToUninstall)
  | _ =>
      plan ← uninstall_package enum mip_dir package_names;
      if bool_decide (lower response ∈ ["y"; "yes"]) then
        Some (remove_packages (to_uninstall plan) mip_dir 0)
      else Some (mip_dir, Cancelled)
  end.

End uninstall_execution.

(** ** The older install and uninstall commands *)

Module Legacy.

(** [install_package] of the older [mip/commands.py], which takes one
    package name: the list [to_install] it downloads, in that order. *)
Definition install_package (manifest : list package) (mip_dir : list installed_package)
    (package_name : string) : run (list string) :=
  '(install_order, _, _) ← Mip._build_dependency_graph package_name manifest ∅ [];
  Done (filter (λ pkg_name, ¬ exists_in mip_dir pkg_name) install_order).

(** How the older [uninstall_package] ends. *)
Inductive uninstall_outcome :=
| NotInstalled
| Cancelled
| Uninstalled
| UninstallFailed.

Section uninstall.

(** [str.lower] *)
Variable lower : string → string.

(** Whether [shutil.rmtree(package_dir)] raises. *)
Variable rmtree_raises : string → bool.

(** [uninstall_package] of the older [mip/commands.py], which removes the
    directory of one package: the packages directory it leaves and how it
    ends. *)
Definition uninstall_package (mip_dir : list installed_package)
    (package_name response : string) : list installed_package * uninstall_outcome :=
  if exists_in mip_dir package_name then
    if bool_decide (lower response ∈ ["y"; "yes"]) then
      if rmtree_raises package_name then (mip_dir, UninstallFailed)
      else (rmtree mip_dir package_name, Uninstalled)
    else (mip_dir, Cancelled)
  else (mip_dir, NotInstalled).

End uninstall.

End Legacy.

(** What the loop over [to_check] can still add to it: the dependencies
    of the directories that are not checked yet. *)
Definition unchecked_weight (mip_dir : list installed_package) (checked : gset string)
    : nat :=
  sum_list_with (λ pkg_dir, length (_read_package_dependencies mip_dir (dir_name pkg_dir)))
                (filter (λ pkg_dir, dir_name pkg_dir ∉ checked) mip_dir).

(** ** Name collisions *)

(** A sub-directory of the packages directory as [find_name_collisions]
    reads it: the list under ['exposed_symbols'] of its [mip.json], the
    empty list when the file is missing or unreadable, or when the key is
    absent or holds no list.  The symbols are strings. *)
Record exposing_package := Exposing {
  exposing_name : string;
  exposed_symbols : list string
}.

(** The order of [sorted] on strings. *)
Definition string_le (a b : string) : Prop := String.leb a b.

#[export] Instance string_le_dec : RelDecision string_le.
Proof. intros a b. unfold string_le. apply _. Defined.

(** [sorted(names)] *)
Definition sorted (names : list string) : list string := merge_sort string_le names.

(** The symbols read for [package_name]. *)
Fixpoint read_exposed_symbols (mip_dir : list exposing_package) (package_name : string)
    : list string :=
  match mip_dir with
  | [] => []
  | pkg_dir :: rest =>
      if bool_decide (exposing_name pkg_dir = package_name) then exposed_symbols pkg_dir
      else read_exposed_symbols rest package_name
  end.

(** [for symbol in exposed_symbols: ... symbol_to_packages[symbol].append(package_name)] *)
Fixpoint track_symbols (package_name : string) (symbols : list string)
    (symbol_to_packages : gmap string (list string)) : gmap string (list string) :=
  match symbols with
  | [] => symbol_to_packages
  | symbol :: rest =>
      track_symbols package_name rest
        (<[symbol := default [] (symbol_to_packages !! symbol) ++ [package_name]]>
           symbol_to_packages)
  end.

(** [for package_name in packages]: the two dictionaries after the scan. *)
Fixpoint scan_symbols (mip_dir : list exposing_package) (packages : list string)
    (symbol_to_packages : gmap string (list string)) (package_symbol_counts : gmap string nat)
    : gmap string (list string) * gmap string nat :=
  match packages with
  | [] => (symbol_to_packages, package_symbol_counts)
  | package_name :: rest =>
      let symbols := read_exposed_symbols mip_dir package_name in
      scan_symbols mip_dir rest (track_symbols package_name symbols symbol_to_packages)
                   (<[package_name := length symbols]> package_symbol_counts)
  end.

(** What [find_name_collisions] prints: the number of symbols of each
    package, and each colliding symbol with the packages it is found in. *)
Record collision_report := CollisionReport {
  symbol_counts : list (string * nat);
  colliding_symbols : list (string * list string)
}.

(** [None] is [No packages installed yet]. *)
Definition find_name_collisions (mip_dir : list exposing_package) : option collision_report :=
  let packages := sorted (exposing_name <$> mip_dir) in
  match packages with
  | [] => None
  | _ =>
      let '(symbol_to_packages, package_symbol_counts) := scan_symbols mip_dir packages ∅ ∅ in
      let collisions := filter (λ entry, 1 < length entry.2) symbol_to_packages in
      Some {| symbol_counts :=
                (λ package_name, (package_name, default 0 (package_symbol_counts !! package_name)))
                  <$> packages;
              colliding_symbols :=
                (λ symbol, (symbol, default [] (collisions !! symbol)))
                  <$> sorted (elements (dom collisions)) |}
  end.

(** The packages in which [symbol] is found, one entry for each time a
    package lists it. *)
Definition found_in (mip_dir : list exposing_package) (packages : list string)
    (symbol : string) : list string :=
  package_name ← packages;
  listed ← read_exposed_symbols mip_dir package_name;
  if bool_decide (listed = symbol) then [package_name] else [].

(** [a] lists [f] twice; [a] and [b] both list [g]. *)
Definition colliding_dir : list exposing_package :=
  [Exposing "b" ["g"; "h"]; Exposing "a" ["f"; "g"; "f"]; Exposing "c" []].

(** [A] installed, of the chain [A], [B], [C]. *)
Definition partial_dir : list installed_package := [Installed "A" []].

(** ** The planners under the recursion limit of the interpreter

    The interpreter raises [RecursionError] when a recursive function is
    entered more than a fixed number of times at once.  In the definitions
    of this part that number is the parameter [limit] (it takes the place
    of the fuel), and the test [(mip_dir / name).exists()] of the install
    commands is the parameter [path_exists]: it holds of every path the
    file system has, a sub-directory of the packages directory or not.
    [OutOfFuel] and [None] are here outcomes of the code: the
    [RecursionError], which [install_package] catches with
    [except Exception] (it prints [Error: Failed to resolve dependencies]
    and exits) and which ends [uninstall_package] with a traceback. *)

Section within.

Variable limit : nat.

(** The resolving loop of [install_package]. *)
Fixpoint resolve_requested_within (index : list package) (repo_packages : list string)
    (required : gset string) : run (gset string) :=
  match repo_packages with
  | [] => Done required
  | pkg_name :: rest =>
      '(install_order, _, _) ← MipClient.build_dependency_graph limit pkg_name index ∅ [];
      resolve_requested_within index rest (required ∪ list_to_set install_order)
  end.

(** [_topological_sort_packages] *)
Definition topological_sort_packages_within (package_names : list string)
    (info_map : gmap string package) : option (list string) :=
  let adj := adjacency package_names info_map in
  '(_, result) ←
    visit_all (λ pkg_name, default [] (adj !! pkg_name))
              (λ _ dep, bool_decide (dep ∈ package_names))
              limit package_names (∅, []);
  Some result.

(** [_build_uninstall_order], given the order in which the set is
    iterated. *)
Definition build_uninstall_order_within (packages_to_uninstall : list string)
    (mip_dir : list installed_package) : option (list string) :=
  let adj :=
    fold_left (λ adj pkg_name, <[pkg_name := _read_package_dependencies mip_dir pkg_name]> adj)
              packages_to_uninstall (∅ : gmap string (list string)) in
  '(_, result) ←
    visit_all (λ _, packages_to_uninstall)
              (λ pkg_name other_pkg,
                 bool_decide (other_pkg ≠ pkg_name)
                 && bool_decide (pkg_name ∈ default [] (adj !! other_pkg)))
              limit packages_to_uninstall (∅, []);
  Some result.

(** The loop of [uninstall_package] over the requested packages. *)
Fixpoint collect_reverse_dependencies_within (mip_dir : list installed_package)
    (requested_packages : list string) (all_to_uninstall : gset string)
    : option (gset string) :=
  match requested_packages with
  | [] => Some all_to_uninstall
  | pkg_name :: rest =>
      '(reverse_deps, _) ← find_reverse_dependencies limit pkg_name mip_dir ∅;
      collect_reverse_dependencies_within mip_dir rest
                                          (all_to_uninstall ∪ list_to_set reverse_deps)
  end.

Variable enum : gset string → list string.

Section install.

Variable path_exists : string → bool.

(** [install_package] up to the plan and the steps of phase 2. *)
Definition install_package_within (index : list package) (package_names : list string)
    : run install_plan :=
  let repo_packages := filter (λ pkg, ¬ endswith pkg ".mhl") package_names in
  let mhl_sources := filter (λ pkg, endswith pkg ".mhl") package_names in
  '(required, all_packages_to_install) ←
    match repo_packages with
    | [] => Done (∅, [])
    | _ =>
        required ← resolve_requested_within index repo_packages ∅;
        match topological_sort_packages_within (enum required) (package_info_map index) with
        | Some sorted => Done (required, sorted)
        | None => OutOfFuel
        end
    end;
  let to_install := filter (λ pkg_name, ¬ path_exists pkg_name) all_packages_to_install in
  let already_installed := filter (λ pkg_name, path_exists pkg_name) all_packages_to_install in
  Done {| all_required := required;
          all_packages_to_install := all_packages_to_install;
          to_install := to_install;
          already_installed := already_installed;
          executed := (DownloadAndInstall <$> to_install) ++ (InstallFromMhl <$> mhl_sources) |}.

End install.

(** Phase 1 of [uninstall_package].  The test [(mip_dir / pkg_name).exists()]
    is read as: [pkg_name] is a sub-directory of the packages directory,
    which is what it amounts to for the requests the statements are about,
    those that name sub-directories. *)
Definition uninstall_package_within (mip_dir : list installed_package)
    (package_names : list string) : option uninstall_plan :=
  let not_installed := filter (λ pkg_name, ¬ exists_in mip_dir pkg_name) package_names in
  let requested_packages := filter (λ pkg_name, exists_in mip_dir pkg_name) package_names in
  match requested_packages with
  | [] => Some {| not_installed := not_installed; all_to_uninstall := ∅; to_uninstall := [] |}
  | _ =>
      all ← collect_reverse_dependencies_within mip_dir requested_packages
                                                (list_to_set requested_packages);
      order ← build_uninstall_order_within (enum all) mip_dir;
      Some {| not_installed := not_installed; all_to_uninstall := all; to_uninstall := order |}
  end.

Variable lower : string → string.
Variable rmtree_raises : string → bool.

(** [uninstall_package] from the plan to the end, given the answer typed
    at the prompt. *)
Definition confirm_and_uninstall_within (mip_dir : list installed_package)
    (package_names : list string) (response : string)
    : option (list installed_package * uninstall_outcome) :=
  match filter (λ pkg_name, exists_in mip_dir pkg_name) package_names with
  | [] => Some (mip_dir, NothingToUninstall)
  | _ =>
      plan ← uninstall_package_within mip_dir package_names;
      if bool_decide (lower response ∈ ["y"; "yes"]) then
        Some (remove_packages rmtree_raises (to_uninstall plan) mip_dir 0)
      else Some (mip_dir, Cancelled)
  end.

End within.

Module LegacyWithin.

(** [install_package] of the older [mip/commands.py] under the recursion
    limit, with the test [package_dir.exists()] as a parameter. *)
Definition install_package (limit : nat) (path_exists : string → bool)
    (manifest : list package) (package_name : string) : run (list string) :=
  '(install_order, _, _) ← Mip.build_dependency_graph limit package_name manifest ∅ [];
  Done (filter (λ pkg_name, ¬ path_exists pkg_name) install_order).

End LegacyWithin.

(** The sentence on idempotence as the specification has it: whenever the
    whole closure of a request is present, a plan is returned that installs
    nothing and reports every member of the closure. *)
Definition idempotent_when_present (limit : nat) (path_exists : string → bool)
    (enum : gset string → list string) (index : list package) (package_names : list string)
    : Prop :=
  (∀ r p, r ∈ package_names → ¬ endswith r ".mhl" → rtc (depends_on index) r p →
          path_exists p) →
  ∃ plan,
    install_package_within limit enum path_exists index package_names = Done plan
    ∧ to_install plan = []
    ∧ (∀ r p, r ∈ package_names → ¬ endswith r ".mhl" → rtc (depends_on index) r p →
              p ∈ already_installed plan)
    ∧ ∀ pkg_name, DownloadAndInstall pkg_name ∉ executed plan.

(** * Properties *)

(** ** Order of occurrence in a list *)

Lemma before_in x y l : before x y l → x ∈ l ∧ y ∈ l.
Proof. intros (l1 & l2 & -> & Hx). set_solver. Qed.

Lemma before_app_l x y l l' : before x y l → before x y (l ++ l').
Proof.
  intros (l1 & l2 & -> & Hx). exists l1, (l2 ++ l').
  split; [|done]. by rewrite <- app_assoc.
Qed.

Lemma before_app_r x y l l' : before x y l' → before x y (l ++ l').
Proof.
  intros (l1 & l2 & -> & Hx). exists (l ++ l1), l2.
  split; [by rewrite app_assoc | set_solver].
Qed.

Lemma before_app_cross x y l l' : x ∈ l → y ∈ l' → before x y (l ++ l').
Proof.
  intros Hx (l1 & l2 & ->)%list_elem_of_split. exists (l ++ l1), l2.
  split; [by rewrite app_assoc | set_solver].
Qed.

Lemma before_snoc x y l : x ∈ l → before x y (l ++ [y]).
Proof. intros Hx. apply before_app_cross; set_solver. Qed.

(** In a list without repetition an element has one position. *)
Lemma NoDup_split_unique (y : string) l1 l2 k1 k2 :
  NoDup (l1 ++ y :: l2) → l1 ++ y :: l2 = k1 ++ y :: k2 → l1 = k1.
Proof.
  revert k1. induction l1 as [|a l1 IH]; intros k1 Hnd Heq.
  - destruct k1 as [|b k1]; [done|]. simpl in *. injection Heq as -> ->.
    apply NoDup_cons in Hnd as [Hn _]. set_solver.
  - destruct k1 as [|b k1]; simpl in *.
    + injection Heq as -> <-. apply NoDup_cons in Hnd as [Hn _]. set_solver.
    + injection Heq as -> Heq. f_equal. apply IH; [|done].
      by apply NoDup_cons in Hnd as [_ ?].
Qed.

Lemma before_split x y l1 l2 :
  NoDup (l1 ++ y :: l2) → before x y (l1 ++ y :: l2) → x ∈ l1.
Proof.
  intros Hnd (k1 & k2 & Heq & Hx).
  by rewrite (NoDup_split_unique _ _ _ _ _ Hnd Heq).
Qed.

Lemma before_irrefl x l : NoDup l → ¬ before x x l.
Proof.
  intros Hnd (l1 & l2 & -> & Hx). apply NoDup_app in Hnd as (_ & Hd & _).
  apply (Hd x Hx). set_solver.
Qed.

Lemma before_trans x y z l : NoDup l → before x y l → before y z l → before x z l.
Proof.
  intros Hnd Hxy (l1 & l2 & -> & Hy).
  apply list_elem_of_split in Hy as (a & b & ->).
  exists (a ++ y :: b), l2. split; [done|].
  rewrite <- app_assoc in Hnd, Hxy. simpl in Hnd, Hxy.
  apply before_split in Hxy; [set_solver | done].
Qed.

Lemma before_asym x y l : NoDup l → before x y l → ¬ before y x l.
Proof. intros Hnd Hxy Hyx. by apply (before_irrefl x l Hnd), (before_trans x y x). Qed.

(** A prefix that holds [y] holds everything before [y]. *)
Lemma before_prefix x y l l' : NoDup (l ++ l') → y ∈ l → before x y (l ++ l') → x ∈ l.
Proof.
  intros Hnd (a & b & ->)%list_elem_of_split Hb.
  rewrite <- app_assoc in Hnd, Hb. simpl in Hnd, Hb.
  apply before_split in Hb; [set_solver | done].
Qed.

(** ** The graph builder *)

Lemma find_package_Some package_name index package_info :
  find_package package_name index = Some package_info →
  name package_info = package_name ∧ package_info ∈ index.
Proof.
  induction index as [|pkg rest IH]; simpl; [done|].
  case_bool_decide.
  - intros [= ->]. split; [done | set_solver].
  - intros []%IH. split; [done | set_solver].
Qed.

Lemma find_package_None package_name index :
  find_package package_name index = None ↔ package_name ∉ name <$> index.
Proof.
  induction index as [|pkg rest IH]; simpl; [set_solver|].
  case_bool_decide; [set_solver|]. rewrite IH. set_solver.
Qed.

Lemma with_copy_Done c sub V' :
  with_copy c = Done (sub, V') ↔ ∃ P', c = Done (sub, V', P').
Proof.
  unfold with_copy. destruct c as [[[s v] p]| |]; simpl; split.
  - intros [= -> ->]. by eexists.
  - by intros [? [= -> -> ->]].
  - done.
  - by intros [? ?].
  - done.
  - by intros [? ?].
Qed.

Lemma for_each_dependency_resolved index P1 resolve deps :
  (∀ dep V sub V', resolve dep V = Done (sub, V') → resolved index dep V P1 sub V') →
  ∀ V0 R0 R V', for_each_dependency resolve deps V0 R0 = Done (R, V') →
  ∃ out, R = R0 ++ out ∧ V' = V0 ∪ list_to_set out ∧ NoDup out
    ∧ (∀ x, x ∈ out → x ∉ V0)
    ∧ (∀ d, d ∈ deps → d ∈ V' ∧ d ∉ P1)
    ∧ (∀ p d, p ∈ out → depends_on index p d → (d ∉ P1) ∧ (d ∈ V0 ∨ before d p out))
    ∧ (∀ p, p ∈ out → ∃ d, d ∈ deps ∧ rtc (depends_on index) d p).
Proof.
  intros Hres. induction deps as [|dep rest IH]; intros V0 R0 R V' Hrun; simpl in Hrun.
  - injection Hrun as <- <-. exists []. rewrite app_nil_r.
    split_and!; [done | set_solver | constructor | set_solver..].
  - destruct (resolve dep V0) as [[sub V1]| |] eqn:Hdep; simpl in Hrun; try done.
    apply Hres in Hdep as (HV1 & Hnd1 & Hnew1 & Hin1 & HP1 & Hord1 & Hreach1 & _).
    apply IH in Hrun as (out & -> & -> & Hnd & Hnew & Hdeps & Hord & Hreach).
    exists (sub ++ out). split_and!.
    + by rewrite app_assoc.
    + rewrite list_to_set_app_L. set_solver.
    + apply NoDup_app. split_and!; [done | | done]. intros x Hx Hx'.
      apply (Hnew x Hx'). set_solver.
    + intros x [Hx|Hx]%elem_of_app; [by apply Hnew1|]. apply Hnew in Hx. set_solver.
    + intros d [-> |Hd]%elem_of_cons; [|by apply Hdeps]. split; [set_solver | done].
    + intros p d [Hp|Hp]%elem_of_app Hpd.
      * destruct (Hord1 p d Hp Hpd) as [? [?|?]]; split; auto using before_app_l.
      * destruct (Hord p d Hp Hpd) as [? [Hd|?]]; split; auto using before_app_r.
        subst V1. apply elem_of_union in Hd as [?|Hd]; [by left|right].
        apply before_app_cross; [|done]. by apply elem_of_list_to_set in Hd.
    + intros p [Hp|Hp]%elem_of_app.
      * exists dep. split; [set_solver | by apply Hreach1].
      * destruct (Hreach p Hp) as (d & ? & ?). exists d. split; [set_solver | done].
Qed.

Lemma build_dependency_graph_resolved index fuel package_name V P out V' P' :
  MipClient.build_dependency_graph fuel package_name index V P = Done (out, V', P') →
  resolved index package_name V P out V'
  ∧ P' = (if bool_decide (package_name ∈ V) then P else P ++ [package_name]).
Proof.
  revert package_name V P out V' P'.
  induction fuel as [|fuel IH]; intros package_name V P out V' P' Hrun; simpl in Hrun; [done|].
  case_bool_decide as HP; [done|].
  case_bool_decide as HV.
  { injection Hrun as <- <- <-. split; [|done].
    split_and!; [set_solver | constructor | set_solver.. | done]. }
  destruct (find_package package_name index) as [package_info|] eqn:Hfind; [|done].
  destruct (for_each_dependency _ _ _ _) as [[R Vf]| |] eqn:Hloop; simpl in Hrun; try done.
  injection Hrun as <- <- <-. split; [|done].
  apply for_each_dependency_resolved with (index := index) (P1 := P ++ [package_name]) in Hloop
    as (outs & -> & -> & Hnd & Hnew & Hdeps & Hord & Hreach).
  2:{ intros dep V0 sub V0' [P0 Hc]%with_copy_Done. by apply IH in Hc as [? _]. }
  simpl. split_and!.
  - rewrite list_to_set_app_L. set_solver.
  - apply NoDup_app. split_and!; [done | | apply NoDup_singleton].
    intros x Hx ->%list_elem_of_singleton. apply Hnew in Hx. set_solver.
  - intros x [Hx| ->%list_elem_of_singleton]%elem_of_app; [|done].
    apply Hnew in Hx. set_solver.
  - set_solver.
  - done.
  - intros p d [Hp| ->%list_elem_of_singleton]%elem_of_app Hpd.
    + destruct (Hord p d Hp Hpd) as [HdP Hd]. split; [set_solver|].
      destruct Hd as [Hd|Hd]; [|right; by apply before_app_l].
      left. apply elem_of_union in Hd as [Hd|Hd]; [|done].
      apply elem_of_singleton in Hd as ->. set_solver.
    + destruct Hpd as (info & Hinfo & Hd). rewrite Hfind in Hinfo. injection Hinfo as <-.
      destruct (Hdeps d Hd) as [HdV HdP]. split; [set_solver|].
      apply elem_of_union in HdV as [HdV|HdV].
      * apply elem_of_union in HdV as [HdV|HdV]; [|by left].
        apply elem_of_singleton in HdV as ->. set_solver.
      * right. apply before_snoc. by apply elem_of_list_to_set in HdV.
  - intros p [Hp| ->%list_elem_of_singleton]%elem_of_app; [|done].
    destruct (Hreach p Hp) as (d & Hd & Hdp).
    eapply rtc_l; [|done]. by exists package_info.
  - intros _. apply last_snoc.
Qed.

Lemma with_copy_Exit c e : with_copy c = Exit e ↔ c = Exit e.
Proof. unfold with_copy. destruct c as [[[s v] p]| |]; simpl; split; congruence. Qed.

Lemma with_copy_OutOfFuel c : with_copy c = OutOfFuel ↔ c = OutOfFuel.
Proof. unfold with_copy. destruct c as [[[s v] p]| |]; simpl; split; congruence. Qed.

Lemma for_each_dependency_Exit resolve deps e :
  ∀ V0 R0, for_each_dependency resolve deps V0 R0 = Exit e →
  ∃ d V, d ∈ deps ∧ resolve d V = Exit e.
Proof.
  induction deps as [|dep rest IH]; intros V0 R0 Hrun; simpl in Hrun; [done|].
  destruct (resolve dep V0) as [[sub V1]| |] eqn:Hdep; simpl in Hrun; try done.
  - apply IH in Hrun as (d & V & ? & ?). exists d, V. split; [set_solver | done].
  - injection Hrun as ->. exists dep, V0. split; [set_solver | done].
Qed.

Lemma path_in_cons R x l y :
  head l = Some y → R x y → path_in R l → path_in R (x :: l).
Proof. destruct l as [|z l]; [done|]. intros [= ->]. by split. Qed.

Lemma path_in_app_r R l1 l2 : path_in R (l1 ++ l2) → path_in R l2.
Proof.
  induction l1 as [|a l1 IH]; [done|]. simpl.
  destruct (l1 ++ l2) as [|y k] eqn:Hk.
  - apply app_eq_nil in Hk as [_ ->]. done.
  - intros [_ ?]. by apply IH.
Qed.

Lemma build_dependency_graph_aborted index fuel package_name V P e :
  MipClient.build_dependency_graph fuel package_name index V P = Exit e →
  aborted index package_name P e.
Proof.
  revert package_name V P.
  induction fuel as [|fuel IH]; intros package_name V P Hrun; simpl in Hrun; [done|].
  case_bool_decide as HP.
  { injection Hrun as <-. split.
    - by exists [package_name].
    - by exists P, package_name. }
  case_bool_decide as HV; [done|].
  destruct (find_package package_name index) as [package_info|] eqn:Hfind.
  2:{ injection Hrun as <-. by split. }
  destruct (for_each_dependency _ _ _ _) as [[R Vf]| |] eqn:Hloop; simpl in Hrun; try done.
  injection Hrun as ->.
  apply for_each_dependency_Exit in Hloop as (d & V0 & Hd & Hc%with_copy_Exit).
  apply IH in Hc. assert (depends_on index package_name d) as Hedge by by exists package_info.
  destruct e as [cycle|n]; simpl in *.
  - destruct Hc as [(l & -> & Hhd & Hpath) Hlast]. split; [|done].
    exists (package_name :: l). split_and!; [by rewrite <- app_assoc | done |].
    by apply path_in_cons with d.
  - destruct Hc as [? ?]. split; [|done]. by eapply rtc_l.
Qed.

(** *** Enough fuel *)

Lemma size_list_to_set_le (l : list string) : size (list_to_set l : gset string) ≤ length l.
Proof.
  induction l as [|a l IH].
  { change (size (∅ : gset string) ≤ 0). by rewrite size_empty. }
  change (size ({[a]} ∪ list_to_set l : gset string) ≤ S (length l)).
  rewrite size_union_alt, size_singleton.
  assert (list_to_set l ∖ {[a]} ⊆ (list_to_set l : gset string)) as Hle by set_solver.
  apply subseteq_size in Hle. lia.
Qed.

Lemma for_each_dependency_fuel resolve deps :
  (∀ d V sub V', resolve d V = Done (sub, V') → V ⊆ V') →
  ∀ V0 R0, (∀ d V, V0 ⊆ V → resolve d V ≠ OutOfFuel) →
  for_each_dependency resolve deps V0 R0 ≠ OutOfFuel.
Proof.
  intros Hmono. induction deps as [|dep rest IH]; intros V0 R0 Hok; simpl; [done|].
  destruct (resolve dep V0) as [[sub V1]| |] eqn:Hdep; simpl; [|done|].
  - apply IH. intros d V HV. apply Hok. apply Hmono in Hdep. set_solver.
  - by apply Hok in Hdep.
Qed.

Lemma build_dependency_graph_fuel index fuel package_name V P :
  size (index_names index ∖ V) < fuel →
  MipClient.build_dependency_graph fuel package_name index V P ≠ OutOfFuel.
Proof.
  revert package_name V P.
  induction fuel as [|fuel IH]; intros package_name V P Hfuel; [lia|]. simpl.
  case_bool_decide as HP; [done|].
  case_bool_decide as HV; [done|].
  destruct (find_package package_name index) as [package_info|] eqn:Hfind; [|done].
  apply find_package_Some in Hfind as [Hname Hin].
  assert (package_name ∈ index_names index) as Hmem.
  { unfold index_names. apply elem_of_list_to_set, list_elem_of_fmap. by exists package_info. }
  assert (size (index_names index ∖ ({[package_name]} ∪ V)) < fuel) as Hless.
  { assert (index_names index ∖ ({[package_name]} ∪ V) ⊂ index_names index ∖ V) as Hlt
      by set_solver.
    apply subset_size in Hlt. lia. }
  assert (for_each_dependency
    (λ dep visited, with_copy (MipClient.build_dependency_graph fuel dep index visited
                                 (P ++ [package_name])))
    (dependencies package_info) ({[package_name]} ∪ V) [] ≠ OutOfFuel) as Hloop.
  { apply for_each_dependency_fuel.
    - intros d V0 sub V0' [P0 Hc]%with_copy_Done.
      apply build_dependency_graph_resolved in Hc as [(-> & _) _]. set_solver.
    - intros d V0 HV0 Hc%with_copy_OutOfFuel. revert Hc. apply IH.
      assert (index_names index ∖ V0 ⊆ index_names index ∖ ({[package_name]} ∪ V)) as Hle
        by set_solver.
      apply subseteq_size in Hle. lia. }
  destruct (for_each_dependency _ _ _ _) as [[R Vf]| |]; simpl; done.
Qed.

Lemma build_dependency_graph_returns index package_name V P :
  MipClient._build_dependency_graph package_name index V P ≠ OutOfFuel.
Proof.
  apply build_dependency_graph_fuel.
  assert (index_names index ∖ V ⊆ index_names index) as Hle by set_solver.
  apply subseteq_size in Hle.
  pose proof (size_list_to_set_le (name <$> index)) as Hlen.
  rewrite length_fmap in Hlen. unfold index_names in *. lia.
Qed.

(** *** Calls from an empty visited set *)

Lemma resolved_closed index package_name P out V' :
  resolved index package_name ∅ P out V' →
  ∀ p, rtc (depends_on index) package_name p → p ∈ out.
Proof.
  intros (-> & _ & _ & Hin & _ & Hord & _).
  apply rtc_ind_r; [|intros y z _ Hyz IH].
  - apply elem_of_union in Hin as [Hin|Hin]; [set_solver|]. by apply elem_of_list_to_set in Hin.
  - destruct (Hord y z IH Hyz) as [_ [?|Hb]]; [set_solver|]. by apply before_in in Hb as [? _].
Qed.

Lemma resolved_tc_before index package_name P out V' :
  resolved index package_name ∅ P out V' →
  ∀ p d, tc (depends_on index) p d → p ∈ out → before d p out.
Proof.
  intros (_ & Hnd & _ & _ & _ & Hord & _) p d Hpd.
  induction Hpd as [p d Hpd|p y d Hpy _ IH]; intros Hp.
  - destruct (Hord p d Hp Hpd) as [_ [?|?]]; [set_solver | done].
  - destruct (Hord p y Hp Hpy) as [_ [?|Hb]]; [set_solver|].
    apply before_trans with y; [done | | done]. apply IH. by apply before_in in Hb as [? _].
Qed.

Lemma resolved_acyclic index package_name P out V' :
  resolved index package_name ∅ P out V' → acyclic_from index package_name.
Proof.
  intros Hres n Hn Hcycle.
  pose proof (resolved_closed _ _ _ _ _ Hres n Hn) as Hin.
  pose proof (resolved_tc_before _ _ _ _ _ Hres n n Hcycle Hin) as Hb.
  destruct Hres as (_ & Hnd & _). by apply before_irrefl in Hb.
Qed.

(** A call that returns from an empty visited set and path certifies that
    no cycle is reachable. *)
Lemma build_dependency_graph_Done_acyclic index package_name :
  (∃ r, MipClient._build_dependency_graph package_name index ∅ [] = Done r) →
  acyclic_from index package_name.
Proof.
  intros [[[out V'] P'] Hrun]. apply build_dependency_graph_resolved in Hrun as [Hres _].
  by eapply resolved_acyclic.
Qed.

Lemma aborted_cycle index package_name cycle :
  aborted index package_name [] (CircularDependency cycle) →
  head cycle = Some package_name
  ∧ path_in (depends_on index) cycle
  ∧ ∃ lead loop, cycle = lead ++ loop ∧ true_cycle index loop.
Proof.
  intros [(l & -> & Hhd & Hpath) (pre & x & Heq & Hx)]. simpl in *.
  split_and!; [done..|].
  apply list_elem_of_split in Hx as (a & b & ->).
  exists a, (x :: b ++ [x]). split; [by rewrite Heq, <- app_assoc|].
  split_and!.
  - simpl. rewrite length_app. simpl. lia.
  - change (Some x = last ((x :: b) ++ [x])). by rewrite last_snoc.
  - apply path_in_app_r with a. by rewrite Heq, <- app_assoc in Hpath.
Qed.

Lemma true_cycle_tc index loop :
  true_cycle index loop → ∃ x, head loop = Some x ∧ tc (depends_on index) x x.
Proof.
  intros (Hlen & Hhd & Hpath).
  destruct loop as [|x rest]; [simpl in Hlen; lia|]. exists x. split; [done|].
  assert (∀ l y z, path_in (depends_on index) (y :: l) → last (y :: l) = Some z → l ≠ [] →
            tc (depends_on index) y z) as Hgen.
  { clear. induction l as [|a l IH]; intros y z Hp Hl Hne; [done|].
    destruct Hp as [Hya Hp]. destruct l as [|b l].
    - simpl in Hl. injection Hl as ->. by apply tc_once.
    - eapply tc_l; [done|]. apply IH; [done | | done]. by rewrite last_cons_cons in Hl. }
  apply Hgen with rest; [done | by rewrite <- Hhd |].
  destruct rest; [simpl in Hlen; lia | done].
Qed.

(** The concatenation made by the loop over the dependencies. *)
Lemma for_each_dependency_concat resolve deps :
  ∀ V0 R0 R V', for_each_dependency resolve deps V0 R0 = Done (R, V') →
  ∃ subs, R = R0 ++ concat subs
    ∧ Forall2 (λ d sub, ∃ V V1, resolve d V = Done (sub, V1)) deps subs.
Proof.
  induction deps as [|dep rest IH]; intros V0 R0 R V' Hrun; simpl in Hrun.
  - injection Hrun as <- <-. exists []. simpl. by rewrite app_nil_r.
  - destruct (resolve dep V0) as [[sub V1]| |] eqn:Hdep; simpl in Hrun; try done.
    apply IH in Hrun as (subs & -> & Hall). exists (sub :: subs). simpl. split.
    + by rewrite app_assoc.
    + constructor; [by exists V0, V1 | done].
Qed.

Lemma for_each_dependency_ext resolve resolve' deps :
  (∀ d V, resolve d V = resolve' d V) →
  ∀ V0 R0, for_each_dependency resolve deps V0 R0 = for_each_dependency resolve' deps V0 R0.
Proof.
  intros Hext. induction deps as [|dep rest IH]; intros V0 R0; simpl; [done|].
  rewrite Hext. destruct (resolve' dep V0) as [[sub V1]| |]; simpl; [apply IH | done..].
Qed.

Lemma path_in_reach R (y : string) l :
  path_in R (y :: l) → ∀ z, z ∈ y :: l → rtc R y z.
Proof.
  revert y. induction l as [|a l IH]; intros y Hp z Hz.
  - apply list_elem_of_singleton in Hz as ->. done.
  - destruct Hp as [Hya Hp]. apply elem_of_cons in Hz as [-> |Hz]; [done|].
    eapply rtc_l; [done|]. by apply IH.
Qed.

Lemma aborted_reachable_cycle index package_name cycle :
  aborted index package_name [] (CircularDependency cycle) →
  ∃ n, rtc (depends_on index) package_name n ∧ tc (depends_on index) n n.
Proof.
  intros (Hhd & Hpath & lead & loop & -> & Hloop)%aborted_cycle.
  destruct (true_cycle_tc _ _ Hloop) as (x & Hx & Hxx). exists x. split; [|done].
  destruct (lead ++ loop) as [|y l] eqn:Hl; [done|]. injection Hhd as ->.
  apply path_in_reach with l; [done|]. rewrite <- Hl.
  destruct loop; [done|]. injection Hx as ->. set_solver.
Qed.

Lemma build_dependency_graph_expand index fuel package_name V P out V' P' :
  MipClient.build_dependency_graph (S fuel) package_name index V P = Done (out, V', P') →
  package_name ∉ V →
  ∃ package_info subs,
    find_package package_name index = Some package_info
    ∧ out = concat subs ++ [package_name]
    ∧ Forall2 (λ dep sub, ∃ V0 V1 P1,
         MipClient.build_dependency_graph fuel dep index V0 (P ++ [package_name])
           = Done (sub, V1, P1))
        (dependencies package_info) subs.
Proof.
  intros Hrun HV. simpl in Hrun.
  case_bool_decide; [done|]. case_bool_decide; [done|].
  destruct (find_package package_name index) as [package_info|]; [|done].
  destruct (for_each_dependency _ _ _ _) as [[R Vf]| |] eqn:Hloop; simpl in Hrun; try done.
  injection Hrun as <- <- <-.
  apply for_each_dependency_concat in Hloop as (subs & -> & Hall).
  exists package_info, subs. split_and!; [done..|].
  eapply Forall2_impl; [done|]. simpl.
  intros dep sub (V0 & V1 & [P1 Hc]%with_copy_Done). by exists V0, V1, P1.
Qed.

(** For any visited set and path: a returned sequence never holds a package
    before one of its declared dependencies; a dependency that is not in
    the sequence before the package was visited before the call. *)
Lemma build_dependency_graph_never_before index package_name visited path
    result visited' path' :
  MipClient._build_dependency_graph package_name index visited path
    = Done (result, visited', path') →
  ∀ p d, p ∈ result → depends_on index p d →
         (d ∈ visited ∨ before d p result) ∧ ¬ before p d result.
Proof.
  intros [(_ & Hnd & Hnew & _ & _ & Hord & _) _]%build_dependency_graph_resolved p d Hp Hpd.
  destruct (Hord p d Hp Hpd) as [_ Hd]. split; [done|].
  destruct Hd as [Hd|Hd].
  - intros Hb. apply before_in in Hb as [_ Hd']. by apply Hnew in Hd'.
  - by apply before_asym.
Qed.

(** C1.  When no dependency cycle can be reached from the requested name,
    the graph builder, called as the planner calls it, does not report a
    cycle; the sequence it returns lists no name twice and holds every
    declared dependency of each of its packages before that package; it is
    the concatenation, in declaration order, of the sequences returned for
    the dependencies, followed by the requested name.  The only possible
    failure is a reachable name that the index lacks.  Called with any
    visited set and path, a returned sequence never holds a package before
    one of its declared dependencies. *)
Theorem build_dependency_graph_dependencies_first index package_name :
  acyclic_from index package_name →
  match MipClient._build_dependency_graph package_name index ∅ [] with
  | Done (result, _, _) =>
      NoDup result
      ∧ (∀ p d, p ∈ result → depends_on index p d → before d p result)
      ∧ ∃ package_info subs,
          find_package package_name index = Some package_info
          ∧ result = concat subs ++ [package_name]
          ∧ Forall2 (λ dep sub, ∃ V0 V1 P1,
               MipClient.build_dependency_graph (length index) dep index V0 [package_name]
                 = Done (sub, V1, P1))
              (dependencies package_info) subs
  | Exit (CircularDependency _) => False
  | Exit (PackageNotFound n) =>
      rtc (depends_on index) package_name n ∧ find_package n index = None
  | OutOfFuel => False
  end
  ∧ ∀ visited path result visited' path',
      MipClient._build_dependency_graph package_name index visited path
        = Done (result, visited', path') →
      ∀ p d, p ∈ result → depends_on index p d → ¬ before p d result.
Proof.
  intros Hacyclic. split.
  2:{ intros visited path result visited' path' Hrun p d Hp Hpd.
      by apply (build_dependency_graph_never_before _ _ _ _ _ _ _ Hrun p d). }
  destruct (MipClient._build_dependency_graph package_name index ∅ [])
    as [[[result V'] P']|[cycle|n]|] eqn:Hrun.
  - pose proof Hrun as [Hres _]%build_dependency_graph_resolved.
    apply build_dependency_graph_expand in Hrun; [|set_solver].
    destruct Hres as (_ & Hnd & _ & _ & _ & Hord & _).
    split_and!; [done | | done].
    intros p d Hp Hpd. destruct (Hord p d Hp Hpd) as [_ [?|?]]; [set_solver | done].
  - apply build_dependency_graph_aborted, aborted_reachable_cycle in Hrun as (n & Hn & Hnn).
    by apply (Hacyclic n).
  - by apply build_dependency_graph_aborted in Hrun.
  - by apply build_dependency_graph_returns in Hrun.
Qed.

Lemma build_dependency_graph_dependencies_first_witness :
  acyclic_from diamond_index "A"
  ∧ match MipClient._build_dependency_graph "A" diamond_index ∅ [] with
    | Done (result, _, _) =>
        NoDup result
        ∧ (∀ p d, p ∈ result → depends_on diamond_index p d → before d p result)
        ∧ ∃ package_info subs,
            find_package "A" diamond_index = Some package_info
            ∧ result = concat subs ++ ["A"]
            ∧ Forall2 (λ dep sub, ∃ V0 V1 P1,
                 MipClient.build_dependency_graph (length diamond_index) dep diamond_index
                   V0 ["A"] = Done (sub, V1, P1))
                (dependencies package_info) subs
    | Exit (CircularDependency _) => False
    | Exit (PackageNotFound n) =>
        rtc (depends_on diamond_index) "A" n ∧ find_package n diamond_index = None
    | OutOfFuel => False
    end
  ∧ ∀ visited path result visited' path',
      MipClient._build_dependency_graph "A" diamond_index visited path
        = Done (result, visited', path') →
      ∀ p d, p ∈ result → depends_on diamond_index p d → ¬ before p d result.
Proof.
  assert (acyclic_from diamond_index "A") as Hacyclic.
  { apply build_dependency_graph_Done_acyclic. eexists. vm_compute. reflexivity. }
  split; [exact Hacyclic|].
  exact (build_dependency_graph_dependencies_first diamond_index "A" Hacyclic).
Defined.

Example build_dependency_graph_diamond :
  ∃ visited, MipClient._build_dependency_graph "A" diamond_index ∅ []
             = Done (["D"; "B"; "C"; "A"], visited, ["A"]).
Proof. eexists. vm_compute. reflexivity. Qed.

(** *** Cycles *)







(** A missing dependency met before the cycle is what is reported. *)
Example missing_before_cycle :
  MipClient._build_dependency_graph "A"
    [Package "A" "1.0" ["Z"; "B"] "a.mhl"; Package "B" "1.0" ["A"] "b.mhl"] ∅ []
    = Exit (PackageNotFound "Z").
Proof. vm_compute. reflexivity. Qed.

(** The scenario of the specification: [A] and [B] need each other. *)
Example mutual_cycle_report :
  MipClient._build_dependency_graph "A"
    [Package "A" "1.0" ["B"] "a.mhl"; Package "B" "1.0" ["A"] "b.mhl"] ∅ []
    = Exit (CircularDependency ["A"; "B"; "A"])
  ∧ fatal_message (CircularDependency ["A"; "B"; "A"])
    = "Error: Circular dependency detected: A -> B -> A".
Proof. split; vm_compute; reflexivity. Qed.

(** *** Effect on the arguments *)

(** C9 (as amended).  A returning call changes the visited set to the
    union of what it was and the returned names, and it appends the
    requested name to the caller's path list when it expands that name
    (when the name was not marked visited); otherwise the path list is as
    it was.  The recursive calls work on copies of the path. *)
Theorem build_dependency_graph_frame index package_name visited path result visited' path' :
  MipClient._build_dependency_graph package_name index visited path
    = Done (result, visited', path') →
  visited' = visited ∪ list_to_set result
  ∧ path' = (if bool_decide (package_name ∈ visited) then path else path ++ [package_name]).
Proof.
  intros [(-> & _) ->]%build_dependency_graph_resolved. done.
Qed.

Lemma single_index_run :
  ∃ visited', MipClient._build_dependency_graph "A" single_index ∅ []
              = Done (["A"], visited', ["A"]).
Proof. eexists. vm_compute. reflexivity. Qed.

Lemma build_dependency_graph_frame_witness :
  ∃ visited',
    MipClient._build_dependency_graph "A" single_index ∅ [] = Done (["A"], visited', ["A"])
    ∧ visited' = ∅ ∪ list_to_set ["A"]
    ∧ ["A"] = (if bool_decide ("A" ∈ (∅ : gset string)) then [] else [] ++ ["A"]).
Proof.
  destruct single_index_run as [visited' Hrun]. exists visited'. split; [exact Hrun|].
  exact (build_dependency_graph_frame single_index "A" ∅ [] ["A"] visited' ["A"] Hrun).
Defined.

Lemma leaves_path_unchanged_fails :
  (∃ visited', MipClient._build_dependency_graph "A" single_index ∅ []
               = Done (["A"], visited', ["A"]))
  ∧ ¬ leaves_path_unchanged single_index "A" ∅ [].
Proof.
  split; [exact single_index_run|].
  intros Hclaim. destruct single_index_run as [visited' Hrun].
  apply Hclaim in Hrun. discriminate Hrun.
Qed.

(** *** The two versions of the graph builder *)

(** C10.  [_build_dependency_graph] of [mip/commands.py] and of
    [mip_client/commands.py] have the same outcome on every input: the same
    returned sequence, visited set and path, and the same error. *)
Theorem legacy_build_dependency_graph_equivalent package_name index visited path :
  Mip._build_dependency_graph package_name index visited path
  = MipClient._build_dependency_graph package_name index visited path.
Proof.
  unfold Mip._build_dependency_graph, MipClient._build_dependency_graph.
  generalize (S (length index)) as fuel. intros fuel. revert package_name visited path.
  induction fuel as [|fuel IH]; intros package_name visited path; simpl; [done|].
  case_bool_decide; [done|]. case_bool_decide; [done|].
  destruct (find_package package_name index) as [package_info|]; [|done].
  erewrite for_each_dependency_ext; [done|]. intros d V. simpl. by rewrite IH.
Qed.

(** ** The [visit] closures *)

Section visit_properties.

Variable candidates : string → list string.
Variable selected : string → string → bool.

Abbreviation visit := (visit candidates selected).
Abbreviation visit_all := (visit_all candidates selected).
Abbreviation succ := (successor candidates selected).
Abbreviation visited_from := (visited_from candidates selected).

Lemma visit_each_filter fuel pkg_name others state :
  visit_each selected (visit fuel) pkg_name others state
  = visit_all fuel (filter (λ other, selected pkg_name other) others) state.
Proof.
  revert state. induction others as [|other rest IH]; intros state; simpl; [done|].
  rewrite filter_cons. case_decide as Hsel; destruct (selected pkg_name other); try done.
  simpl. destruct (visit fuel other state) as [state'|]; simpl; [apply IH | done].
Qed.

Lemma visit_all_app fuel l l' state :
  visit_all fuel (l ++ l') state = visit_all fuel l state ≫= visit_all fuel l'.
Proof.
  revert state. induction l as [|a l IH]; intros state; simpl; [done|].
  destruct (visit fuel a state) as [state'|]; simpl; [apply IH | done].
Qed.

Lemma visit_all_visited_from fuel :
  (∀ p V R V' R', visit fuel p (V, R) = Some (V', R') →
     ∃ out, R' = R ++ out ∧ visited_from [p] V out V') →
  ∀ roots V R V' R', visit_all fuel roots (V, R) = Some (V', R') →
    ∃ out, R' = R ++ out ∧ visited_from roots V out V'.
Proof.
  intros Hvisit. induction roots as [|p rest IH]; intros V R V' R' Hrun; simpl in Hrun.
  - injection Hrun as <- <-. exists []. rewrite app_nil_r. split; [done|].
    split_and!; [set_solver | constructor | set_solver..].
  - destruct (visit fuel p (V, R)) as [[V1 R1]|] eqn:Hp; simpl in Hrun; [|done].
    apply Hvisit in Hp as (out1 & -> & HV1 & Hnd1 & Hnew1 & Hroot1 & Hreach1 & Hord1).
    apply IH in Hrun as (out2 & -> & HV' & Hnd2 & Hnew2 & Hroot2 & Hreach2 & Hord2).
    exists (out1 ++ out2). split; [by rewrite app_assoc|]. split_and!.
    + rewrite list_to_set_app_L. set_solver.
    + apply NoDup_app. split_and!; [done | | done]. intros x Hx Hx'.
      apply (Hnew2 x Hx'). set_solver.
    + intros x [Hx|Hx]%elem_of_app; [by apply Hnew1|]. apply Hnew2 in Hx. set_solver.
    + intros r [-> |Hr]%elem_of_cons; [|by apply Hroot2].
      specialize (Hroot1 p). set_solver.
    + intros q [Hq|Hq]%elem_of_app.
      * destruct (Hreach1 q Hq) as (r & ->%list_elem_of_singleton & ?).
        exists p. split; [set_solver | done].
      * destruct (Hreach2 q Hq) as (r & ? & ?). exists r. split; [set_solver | done].
    + intros q o [Hq|Hq]%elem_of_app Hqo.
      * destruct (Hord1 q o Hq Hqo) as [?|[?|?]]; auto using before_app_l.
      * destruct (Hord2 q o Hq Hqo) as [Ho|[?|?]]; auto using before_app_r.
        subst V1. apply elem_of_union in Ho as [?|Ho]; [by left|].
        right; left. apply before_app_cross; [|done]. by apply elem_of_list_to_set in Ho.
Qed.

Lemma visit_visited_from fuel p V R V' R' :
  visit fuel p (V, R) = Some (V', R') →
  ∃ out, R' = R ++ out ∧ visited_from [p] V out V'.
Proof.
  revert p V R V' R'.
  induction fuel as [|fuel IH]; intros p V R V' R' Hrun; simpl in Hrun; [done|].
  case_bool_decide as HV.
  { injection Hrun as <- <-. exists []. rewrite app_nil_r. split; [done|].
    split_and!; [set_solver | constructor | set_solver..]. }
  rewrite visit_each_filter in Hrun.
  destruct (visit_all fuel _ _) as [[V1 R1]|] eqn:Hloop; simpl in Hrun; [|done].
  injection Hrun as <- <-.
  apply (visit_all_visited_from fuel IH) in Hloop
    as (outs & -> & -> & Hnd & Hnew & Hroot & Hreach & Hord).
  assert (∀ q, q ∈ outs → rtc succ p q) as Hreach'.
  { intros q Hq. destruct (Hreach q Hq) as (r & Hr & Hrq).
    apply list_elem_of_filter in Hr as [Hsel Hr]. eapply rtc_l; [|done]. by split. }
  exists (outs ++ [p]). split; [by rewrite app_assoc|]. split_and!.
  - rewrite list_to_set_app_L. set_solver.
  - apply NoDup_app. split_and!; [done | | apply NoDup_singleton].
    intros x Hx ->%list_elem_of_singleton. apply Hnew in Hx. set_solver.
  - intros x [Hx| ->%list_elem_of_singleton]%elem_of_app; [|done].
    apply Hnew in Hx. set_solver.
  - intros r ->%list_elem_of_singleton. set_solver.
  - intros q [Hq| ->%list_elem_of_singleton]%elem_of_app; exists p.
    + split; [set_solver | by apply Hreach'].
    + split; [set_solver | done].
  - intros q o [Hq| ->%list_elem_of_singleton]%elem_of_app Hqo.
    + destruct (Hord q o Hq Hqo) as [Ho|[?|?]]; auto using before_app_l.
      apply elem_of_union in Ho as [Ho|?]; [|by left].
      apply elem_of_singleton in Ho as ->. right; right. by apply Hreach'.
    + destruct Hqo as [Ho Hsel].
      assert (o ∈ filter (λ other, selected p other) (candidates p)) as Hin
        by by apply list_elem_of_filter.
      apply Hroot in Hin. apply elem_of_union in Hin as [Hin|Hin].
      * apply elem_of_union in Hin as [Hin|?]; [|by left].
        apply elem_of_singleton in Hin as ->. by right; right.
      * right; left. apply before_snoc. by apply elem_of_list_to_set in Hin.
Qed.

Lemma visit_all_from_empty fuel roots V' R' :
  visit_all fuel roots (∅, []) = Some (V', R') → visited_from roots ∅ R' V'.
Proof.
  intros Hrun.
  by apply (visit_all_visited_from fuel (visit_visited_from fuel)) in Hrun as (out & -> & ?).
Qed.

(** *** Enough fuel *)

Section fuel.

Variable names : gset string.
Hypothesis successor_in_names : ∀ p o, succ p o → o ∈ names.

Lemma visit_all_fuel fuel :
  (∀ p V R, p ∈ names → size (names ∖ V) < fuel → is_Some (visit fuel p (V, R))) →
  ∀ roots V R, (∀ r, r ∈ roots → r ∈ names) → size (names ∖ V) < fuel →
    is_Some (visit_all fuel roots (V, R)).
Proof.
  intros Hvisit. induction roots as [|p rest IH]; intros V R Hroots Hfuel; simpl; [done|].
  destruct (Hvisit p V R) as [[V1 R1] Hp]; [set_solver | done |]. rewrite Hp. simpl.
  apply IH; [set_solver|].
  apply visit_visited_from in Hp as (out & _ & -> & _).
  assert (names ∖ (V ∪ list_to_set out) ⊆ names ∖ V) as Hle by set_solver.
  apply subseteq_size in Hle. lia.
Qed.

Lemma visit_fuel fuel p V R :
  p ∈ names → size (names ∖ V) < fuel → is_Some (visit fuel p (V, R)).
Proof.
  revert p V R. induction fuel as [|fuel IH]; intros p V R Hp Hfuel; [lia|]. simpl.
  case_bool_decide as HV; [done|]. rewrite visit_each_filter.
  destruct (visit_all_fuel fuel IH (filter (λ other, selected p other) (candidates p))
              ({[p]} ∪ V) R) as [[V1 R1] Hloop].
  - intros r [Hsel Hr]%list_elem_of_filter. apply (successor_in_names p). by split.
  - assert (names ∖ ({[p]} ∪ V) ⊂ names ∖ V) as Hlt by set_solver.
    apply subset_size in Hlt. lia.
  - by rewrite Hloop.
Qed.

Lemma visit_all_returns roots :
  (∀ r, r ∈ roots → r ∈ names) → size names ≤ length roots →
  is_Some (visit_all (S (length roots)) roots (∅, [])).
Proof.
  intros Hroots Hsize. apply visit_all_fuel; [intros; by apply visit_fuel | done |].
  assert (names ∖ ∅ ⊆ names) as Hle by set_solver. apply subseteq_size in Hle. lia.
Qed.

End fuel.

End visit_properties.

(** ** The topological sort of the install planner *)

Lemma tc_impl {A} (R1 R2 : relation A) x y :
  (∀ a b, R1 a b → R2 a b) → tc R1 x y → tc R2 x y.
Proof.
  intros Himpl. induction 1 as [x y Hxy|x y z Hxy _ IH].
  - apply tc_once. by apply Himpl.
  - eapply tc_l; [by apply Himpl | done].
Qed.

Lemma tc_last_step {A} (R : relation A) x z :
  tc R x z → ∃ y, rtc R x y ∧ R y z.
Proof.
  induction 1 as [x z Hxz|x y z Hxy _ (w & Hyw & Hwz)].
  - by exists x.
  - exists w. split; [by eapply rtc_l | done].
Qed.

Lemma lookup_fold_insert {A} (f : string → A) l (m : gmap string A) k :
  fold_left (λ m k, <[k := f k]> m) l m !! k
  = if decide (k ∈ l) then Some (f k) else m !! k.
Proof.
  revert m. induction l as [|a l IH]; intros m; cbn [fold_left].
  - destruct (decide (k ∈ [])); [set_solver | done].
  - rewrite IH. destruct (decide (k ∈ l)) as [Hk|Hk], (decide (k ∈ a :: l)) as [Hk'|Hk'];
      [done | set_solver | | ].
    + assert (k = a) as -> by set_solver. by rewrite lookup_insert_eq.
    + rewrite lookup_insert_ne; [done | set_solver].
Qed.

Lemma adjacency_lookup package_names info_map pkg_name :
  adjacency package_names info_map !! pkg_name
  = if decide (pkg_name ∈ package_names)
    then Some (match info_map !! pkg_name with
               | Some pkg_info => dependencies pkg_info
               | None => []
               end)
    else None.
Proof.
  unfold adjacency.
  rewrite (lookup_fold_insert
             (λ k, match info_map !! k with
                   | Some pkg_info => dependencies pkg_info
                   | None => []
                   end)).
  by destruct (decide _).
Qed.

Lemma topological_successor package_names info_map p d :
  successor (λ pkg_name, default [] (adjacency package_names info_map !! pkg_name))
            (λ _ dep, bool_decide (dep ∈ package_names)) p d
  ↔ declares_within package_names info_map p d.
Proof.
  unfold successor, declares_within, declares. rewrite adjacency_lookup.
  rewrite bool_decide_spec. destruct (decide (p ∈ package_names)) as [Hp|Hp]; simpl.
  - destruct (info_map !! p) as [pkg_info|]; [naive_solver|].
    split; [set_solver | naive_solver].
  - split; [set_solver | tauto].
Qed.

Lemma topological_sort_packages_visited package_names info_map :
  ∃ V' sorted,
    _topological_sort_packages package_names info_map = Some sorted
    ∧ ∀ l1 l2, package_names = l1 ++ l2 →
        ∃ V1 R1 out2,
          sorted = R1 ++ out2
          ∧ visited_from (λ pkg_name, default [] (adjacency package_names info_map !! pkg_name))
                         (λ _ dep, bool_decide (dep ∈ package_names)) l1 ∅ R1 V1
          ∧ visited_from (λ pkg_name, default [] (adjacency package_names info_map !! pkg_name))
                         (λ _ dep, bool_decide (dep ∈ package_names)) l2 V1 out2 V'.
Proof.
  unfold _topological_sort_packages.
  set (candidates := λ pkg_name, default [] (adjacency package_names info_map !! pkg_name)).
  set (selected := λ (_ : string) dep, bool_decide (dep ∈ package_names)).
  destruct (visit_all_returns candidates selected (list_to_set package_names) ) with
    (roots := package_names) as [[V' sorted] Hrun].
  - intros p o [_ Ho]. apply bool_decide_unpack in Ho. set_solver.
  - set_solver.
  - apply size_list_to_set_le.
  - exists V', sorted. simpl in *. rewrite Hrun. simpl. split; [done|].
    intros l1 l2 Heq. rewrite Heq in Hrun at 2. rewrite visit_all_app in Hrun.
    destruct (visit_all _ _ _ l1 _) as [[V1 R1]|] eqn:H1; simpl in Hrun; [|done].
    apply visit_all_from_empty in H1.
    apply (visit_all_visited_from _ _ _ (visit_visited_from _ _ _)) in Hrun
      as (out2 & -> & H2).
    by exists V1, R1, out2.
Qed.

(** The sort returns, and what it returns is a post-order of a depth-first
    traversal of the whole list. *)
Lemma topological_sort_packages_post_order package_names info_map :
  ∃ sorted,
    _topological_sort_packages package_names info_map = Some sorted
    ∧ NoDup sorted
    ∧ (∀ p, p ∈ sorted ↔ p ∈ package_names)
    ∧ (∀ p d, declares_within package_names info_map p d →
         before d p sorted ∨ rtc (declares_within package_names info_map) d p)
    ∧ (∀ a b l1 l2, package_names = l1 ++ a :: l2 → b ∉ l1 ++ [a] → before b a sorted →
         ∃ r, r ∈ l1 ++ [a] ∧ tc (declares_within package_names info_map) r b).
Proof.
  destruct (topological_sort_packages_visited package_names info_map)
    as (V' & sorted & Hrun & Hsplit).
  exists sorted. split; [done|].
  destruct (Hsplit package_names []) as (V1 & R1 & out2 & -> & Hall & Hnone);
    [by rewrite app_nil_r|].
  assert (out2 = []) as ->.
  { destruct Hnone as (_ & _ & _ & _ & Hreach & _). destruct out2 as [|q out2]; [done|].
    destruct (Hreach q) as (r & Hr & _); set_solver. }
  rewrite app_nil_r in *. clear Hnone.
  destruct Hall as (HV1 & Hnd & _ & Hroots & Hreach & Hord).
  assert (∀ p, p ∈ R1 → p ∈ package_names) as Hsub.
  { intros p Hp. destruct (Hreach p Hp) as (r & Hr & Hrp).
    apply rtc_tc in Hrp as [-> |Hrp]; [done|].
    apply tc_last_step in Hrp as (y & _ & Hyp).
    apply topological_successor in Hyp as (_ & ? & _). done. }
  split_and!; [done | | |].
  - intros p. split; [apply Hsub|]. intros Hp%Hroots. set_solver.
  - intros p d Hpd. pose proof Hpd as (Hp & _).
    apply Hroots in Hp. assert (p ∈ R1) as HpR by set_solver.
    apply topological_successor in Hpd.
    destruct (Hord p d HpR Hpd) as [?|[?|Hback]]; [set_solver | by left | right].
    eapply rtc_subrel; [|done]. intros ??. apply topological_successor.
  - intros a b l1 l2 Heq Hb Hba.
    destruct (Hsplit (l1 ++ [a]) l2) as (V2 & R2 & out2 & HR & Hpre & Hpost);
      [by rewrite <- app_assoc|].
    destruct Hpre as (HV2 & _ & _ & Hroots2 & Hreach2 & _).
    assert (a ∈ R2) as Ha.
    { specialize (Hroots2 a). set_solver. }
    rewrite HR in Hnd, Hba. apply before_prefix in Hba; [|done..].
    destruct (Hreach2 b Hba) as (r & Hr & Hrb). exists r. split; [done|].
    apply rtc_tc in Hrb as [-> |Hrb]; [done|].
    eapply tc_impl; [|done]. intros ??. apply topological_successor.
Qed.

Lemma ranked_acyclic (R : relation string) (rank : string → nat) :
  (∀ p d, R p d → rank d < rank p) → ∀ n, ¬ tc R n n.
Proof.
  intros Hrank.
  assert (∀ p d, tc R p d → rank d < rank p) as Htc.
  { induction 1 as [p d Hpd|p y d Hpy _ IH]; [by apply Hrank|].
    apply Hrank in Hpy. lia. }
  intros n Hn%Htc. lia.
Qed.

Lemma chain_index_acyclic package_names :
  ∀ n, ¬ tc (declares_within package_names (package_info_map chain_index)) n n.
Proof.
  apply ranked_acyclic with chain_rank.
  intros p d (_ & _ & pkg_info & Hinfo & Hd).
  destruct (decide (p = "A")) as [-> |HA]; [|destruct (decide (p = "B")) as [-> |HB];
    [|destruct (decide (p = "C")) as [-> |HC]]].
  - vm_compute in Hinfo. injection Hinfo as <-. simpl in Hd. set_solver.
  - vm_compute in Hinfo. injection Hinfo as <-. simpl in Hd.
    apply list_elem_of_singleton in Hd as ->. vm_compute. lia.
  - vm_compute in Hinfo. injection Hinfo as <-. simpl in Hd.
    apply list_elem_of_singleton in Hd as ->. vm_compute. lia.
  - unfold package_info_map, chain_index in Hinfo. simpl in Hinfo.
    rewrite !lookup_insert_ne in Hinfo by done. by rewrite lookup_empty in Hinfo.
Qed.

Lemma filter_mhl_C :
  filter (λ pkg, ¬ endswith pkg ".mhl") ["C"] = ["C"]
  ∧ filter (λ pkg, endswith pkg ".mhl") ["C"] = [].
Proof. split; vm_compute; reflexivity. Qed.

Lemma chain_index_required :
  ∃ required, resolve_requested chain_index ["C"] ∅ = Done required
              ∧ elements required ≡ₚ ["A"; "B"; "C"].
Proof.
  eexists. split; [vm_compute; reflexivity|].
  apply permutations_Permutation. vm_compute. set_solver.
Qed.

(** The scenario of the specification: whatever the order in which the
    required set is listed, the plan for [C] is [A], [B], [C]. *)
Lemma install_chain_scenario enum :
  enumerates enum →
  ∃ plan, install_package enum chain_index [] ["C"] = Done plan
          ∧ to_install plan = ["A"; "B"; "C"].
Proof.
  intros Henum. unfold install_package. cbv zeta.
  destruct filter_mhl_C as [-> ->].
  destruct chain_index_required as (required & -> & Hreq).
  specialize (Henum required). rewrite Hreq in Henum. simpl.
  generalize dependent (enum required). intros l Hl.
  symmetry in Hl. apply permutations_Permutation in Hl. vm_compute in Hl.
  repeat (apply elem_of_cons in Hl as [-> |Hl]);
    [eexists; split; [vm_compute; reflexivity | reflexivity]..|].
  by apply elem_of_nil in Hl.
Qed.

(** ** The reverse-dependency finder *)

Section finder.

Variable mip_dir : list installed_package.

Abbreviation ro := (requires_other mip_dir).

Lemma scan_packages_found find package_name entries :
  (∀ q V res V', find q V = Some (res, V') → found_from mip_dir q V res V') →
  (∀ e, e ∈ entries → e ∈ mip_dir) →
  ∀ V0 acc res V', scan_packages find package_name entries V0 acc = Some (res, V') →
    V0 ⊆ V'
    ∧ (∀ m, m ∈ V' → m ∉ V0 → ∃ q, ro q package_name ∧ rtc ro m q)
    ∧ (∀ m q, m ∈ V' → m ∉ V0 → ro q m → q ∈ V')
    ∧ (∀ e, e ∈ entries → dir_name e ≠ package_name →
         package_name ∈ manifest_dependencies e → dir_name e ∈ V')
    ∧ (∀ q, q ∈ res ↔
         q ∈ acc
         ∨ (∃ e, e ∈ entries ∧ dir_name e = q ∧ q ≠ package_name
                 ∧ package_name ∈ manifest_dependencies e)
         ∨ (∃ m, m ∈ V' ∧ (m ∉ V0) ∧ ro q m)).
Proof.
  intros Hfind. induction entries as [|pkg_dir rest IH]; intros Hsub V0 acc res V' Hrun;
    simpl in Hrun.
  - injection Hrun as <- <-. split_and!; [set_solver..|].
    intros q. split; [by left|]. intros [?|[(e & He & _)|(m & ? & ? & _)]]; [done|set_solver..].
  - assert (∀ e, e ∈ rest → e ∈ mip_dir) as Hsub' by set_solver.
    assert (pkg_dir ∈ mip_dir) as Hdir by set_solver.
    case_bool_decide as Hself; [|case_bool_decide as Hdep].
    + apply (IH Hsub') in Hrun as (HV & Hreach & Hclosed & Hdirect & Hres).
      split_and!; [done..| |].
      * intros e [-> |He]%elem_of_cons; [done | by apply Hdirect].
      * intros q. rewrite Hres. split; (intros [?|[(e & He & Heq)|?]]; [by left| |by right; right]);
          right; left; exists e.
        -- split; [set_solver | done].
        -- apply elem_of_cons in He as [-> |He]; [|done]. destruct Heq as (<- & ? & _). done.
    + destruct (find (dir_name pkg_dir) V0) as [[transitive_deps V1]|] eqn:Hcall;
        simpl in Hrun; [|done].
      apply Hfind in Hcall as (HV1 & Hin1 & Hreach1 & Hclosed1 & Hres1).
      apply (IH Hsub') in Hrun as (HV & Hreach & Hclosed & Hdirect & Hres).
      assert (ro (dir_name pkg_dir) package_name) as Hedge.
      { split; [by exists pkg_dir | done]. }
      split_and!.
      * set_solver.
      * intros m Hm Hm0. destruct (decide (m ∈ V1)) as [Hm1|Hm1]; [|by apply Hreach].
        exists (dir_name pkg_dir). split; [done | by apply Hreach1].
      * intros m q Hm Hm0 Hqm. destruct (decide (m ∈ V1)) as [Hm1|Hm1]; [|by eapply Hclosed].
        apply HV. by eapply Hclosed1.
      * intros e [-> |He]%elem_of_cons ? ?; [set_solver | by apply Hdirect].
      * intros q. rewrite Hres. rewrite !elem_of_app, list_elem_of_singleton, Hres1. split.
        -- intros [[[?| ->]|(m & ? & ? & ?)]|[(e & ? & ?)|(m & ? & ? & ?)]].
           ++ by left.
           ++ right; left. exists pkg_dir. split_and!; [set_solver | done..].
           ++ right; right. exists m. split_and!; [set_solver | done..].
           ++ right; left. exists e. split; [set_solver | done].
           ++ right; right. exists m. split_and!; [done | set_solver | done].
        -- intros [?|[(e & [-> |He]%elem_of_cons & Heq)|(m & Hm & Hm0 & Hqm)]].
           ++ by left; left; left.
           ++ destruct Heq as (<- & _). by left; left; right.
           ++ right; left. by exists e.
           ++ destruct (decide (m ∈ V1)) as [Hm1|Hm1].
              ** left; right. by exists m.
              ** right; right. by exists m.
    + apply (IH Hsub') in Hrun as (HV & Hreach & Hclosed & Hdirect & Hres).
      split_and!; [done..| |].
      * intros e [-> |He]%elem_of_cons; [done | by apply Hdirect].
      * intros q. rewrite Hres. split; (intros [?|[(e & He & Heq)|?]]; [by left| |by right; right]);
          right; left; exists e.
        -- split; [set_solver | done].
        -- apply elem_of_cons in He as [-> |He]; [|done]. destruct Heq as (_ & _ & ?). done.
Qed.

Lemma find_reverse_dependencies_found fuel package_name V res V' :
  find_reverse_dependencies fuel package_name mip_dir V = Some (res, V') →
  found_from mip_dir package_name V res V'.
Proof.
  revert package_name V res V'.
  induction fuel as [|fuel IH]; intros package_name V res V' Hrun; simpl in Hrun; [done|].
  case_bool_decide as HV.
  { injection Hrun as <- <-. split_and!; [set_solver..|]. intros q. split; [set_solver|].
    by intros (m & ? & ? & _). }
  apply scan_packages_found in Hrun as (HV' & Hreach & Hclosed & Hdirect & Hres);
    [|exact IH|done].
  split_and!.
  - set_solver.
  - set_solver.
  - intros m Hm Hm0. destruct (decide (m = package_name)) as [-> |Hne]; [done|].
    destruct (Hreach m) as (q & Hq & Hmq); [done | set_solver |].
    eapply rtc_r; done.
  - intros m q Hm Hm0 Hqm. destruct (decide (m = package_name)) as [-> |Hne].
    + destruct Hqm as [(e & He & <- & Hdep) Hneq]. by apply Hdirect.
    + eapply Hclosed; [done | set_solver | done].
  - intros q. rewrite Hres. split.
    + intros [Hq|[(e & He & <- & Hne & Hdep)|(m & Hm & Hm0 & Hqm)]].
      * by apply elem_of_nil in Hq.
      * exists package_name. split_and!; [set_solver | done |]. split; [by exists e | done].
      * exists m. split_and!; [done | set_solver | done].
    + intros (m & Hm & Hm0 & Hqm). destruct (decide (m = package_name)) as [-> |Hne].
      * right; left. destruct Hqm as [(e & He & <- & Hdep) Hneq]. by exists e.
      * right; right. exists m. split_and!; [done | set_solver | done].
Qed.

(** *** Enough fuel *)

Lemma scan_packages_fuel find package_name entries :
  (∀ q V res V', find q V = Some (res, V') → V ⊆ V') →
  ∀ V0 acc,
    (∀ e V, e ∈ entries → V0 ⊆ V → is_Some (find (dir_name e) V)) →
    is_Some (scan_packages find package_name entries V0 acc).
Proof.
  intros Hmono. induction entries as [|pkg_dir rest IH]; intros V0 acc Hok; simpl; [done|].
  case_bool_decide; [|case_bool_decide].
  - apply IH. intros e V He. apply Hok. set_solver.
  - destruct (Hok pkg_dir V0) as [[transitive_deps V1] Hcall]; [set_solver | done |].
    rewrite Hcall. simpl. apply IH. intros e V He HV. apply Hok; [set_solver|].
    apply Hmono in Hcall. set_solver.
  - apply IH. intros e V He. apply Hok. set_solver.
Qed.

Lemma find_reverse_dependencies_mono fuel q V res V' :
  find_reverse_dependencies fuel q mip_dir V = Some (res, V') → V ⊆ V'.
Proof. by intros (? & _)%find_reverse_dependencies_found. Qed.

Lemma find_reverse_dependencies_fuel fuel package_name V :
  package_name ∈ dir_names mip_dir → size (dir_names mip_dir ∖ V) < fuel →
  is_Some (find_reverse_dependencies fuel package_name mip_dir V).
Proof.
  revert package_name V.
  induction fuel as [|fuel IH]; intros package_name V Hin Hfuel; [lia|]. simpl.
  case_bool_decide as HV; [done|].
  apply scan_packages_fuel; [apply find_reverse_dependencies_mono|].
  intros e V0 He HV0. apply IH.
  - unfold dir_names. apply elem_of_list_to_set, list_elem_of_fmap. by exists e.
  - assert (dir_names mip_dir ∖ V0 ⊆ dir_names mip_dir ∖ ({[package_name]} ∪ V)) as Hle
      by set_solver.
    assert (dir_names mip_dir ∖ ({[package_name]} ∪ V) ⊂ dir_names mip_dir ∖ V) as Hlt
      by (clear -Hin HV; set_solver).
    apply subseteq_size in Hle. apply subset_size in Hlt. lia.
Qed.

Lemma find_reverse_dependencies_fuel_any fuel package_name V :
  size (dir_names mip_dir ∖ V) < fuel →
  is_Some (find_reverse_dependencies (S fuel) package_name mip_dir V).
Proof.
  intros Hfuel. simpl. case_bool_decide as HV; [done|].
  apply scan_packages_fuel; [apply find_reverse_dependencies_mono|].
  intros e V0 He HV0. apply find_reverse_dependencies_fuel.
  - unfold dir_names. apply elem_of_list_to_set, list_elem_of_fmap. by exists e.
  - assert (dir_names mip_dir ∖ V0 ⊆ dir_names mip_dir ∖ V) as Hle by set_solver.
    apply subseteq_size in Hle. lia.
Qed.

Lemma find_reverse_dependencies_returns package_name V :
  is_Some (_find_reverse_dependencies package_name mip_dir V).
Proof.
  apply find_reverse_dependencies_fuel_any.
  assert (dir_names mip_dir ∖ V ⊆ dir_names mip_dir) as Hle by set_solver.
  apply subseteq_size in Hle.
  pose proof (size_list_to_set_le (dir_name <$> mip_dir)) as Hlen.
  rewrite length_fmap in Hlen. unfold dir_names in *. lia.
Qed.

End finder.

Lemma find_reverse_dependencies_closure mip_dir X :
  ∃ reverse_deps visited,
    _find_reverse_dependencies X mip_dir ∅ = Some (reverse_deps, visited)
    ∧ (∀ m, m ∈ visited ↔ rtc (requires_other mip_dir) m X)
    ∧ (∀ p, p ∈ reverse_deps ↔ tc (requires_other mip_dir) p X).
Proof.
  destruct (find_reverse_dependencies_returns mip_dir X ∅) as [[reverse_deps visited] Hrun].
  exists reverse_deps, visited. split; [done|].
  apply find_reverse_dependencies_found in Hrun as (_ & HX & Hreach & Hclosed & Hres).
  assert (∀ m, m ∈ visited ↔ rtc (requires_other mip_dir) m X) as Hvisited.
  { intros m. split; [intros Hm; apply Hreach; set_solver|].
    revert m. apply rtc_ind_l; [done|]. intros q m Hqm _ Hm.
    apply (Hclosed m q); [done | set_solver | done]. }
  split; [done|]. intros p. rewrite Hres. split.
  - intros (m & Hm%Hvisited & _ & Hpm). eapply tc_rtc_r; [by apply tc_once | done].
  - intros Hp. destruct Hp as [p X Hp|p m X Hpm Hm%tc_rtc].
    + exists X. split_and!; [done | set_solver | done].
    + exists m. split_and!; [by apply Hvisited | set_solver | done].
Qed.




Lemma diamond_dir_found :
  ∃ visited,
    _find_reverse_dependencies "X" diamond_dir ∅ = Some (["B"; "D"; "C"; "D"], visited).
Proof. eexists. vm_compute. reflexivity. Qed.

(** In a diamond the package at the top is returned once per side. *)
Lemma finds_without_repetition_fails :
  (∃ visited,
     _find_reverse_dependencies "X" diamond_dir ∅ = Some (["B"; "D"; "C"; "D"], visited))
  ∧ ¬ finds_without_repetition diamond_dir "X".
Proof.
  split; [exact diamond_dir_found|].
  intros Hclaim. destruct diamond_dir_found as [visited Hrun].
  apply Hclaim in Hrun. apply NoDup_cons in Hrun as [_ Hrun].
  apply NoDup_cons in Hrun as [Hrun _]. set_solver.
Qed.

(** ** The uninstall planner *)

Lemma rtc_flip {A} (R : relation A) x y : rtc (λ a b, R b a) x y → rtc R y x.
Proof.
  induction 1 as [x|x y z Hxy _ IH]; [done|]. eapply rtc_r; done.
Qed.

Lemma uninstall_successor order mip_dir q o :
  successor (λ _, order)
    (λ pkg_name other_pkg,
       bool_decide (other_pkg ≠ pkg_name)
       && bool_decide (pkg_name ∈ default []
            (fold_left (λ adj pkg_name,
                          <[pkg_name := _read_package_dependencies mip_dir pkg_name]> adj)
                       order (∅ : gmap string (list string)) !! other_pkg))) q o
  ↔ o ∈ order ∧ o ≠ q ∧ q ∈ _read_package_dependencies mip_dir o.
Proof.
  unfold successor. rewrite andb_True, !bool_decide_spec.
  rewrite (lookup_fold_insert (_read_package_dependencies mip_dir)).
  destruct (decide (o ∈ order)); simpl; [tauto|]. rewrite lookup_empty. simpl. set_solver.
Qed.

(** The order returns, and what it returns is a post-order of a depth-first
    traversal along the "is required by" edges of the set. *)
Lemma build_uninstall_order_post_order (S : gset string) order mip_dir :
  (∀ p, p ∈ order ↔ p ∈ S) →
  ∃ result,
    build_uninstall_order order mip_dir = Some result
    ∧ NoDup result
    ∧ (∀ p, p ∈ result ↔ p ∈ S)
    ∧ (∀ p q, reads_within S mip_dir p q →
         before p q result ∨ rtc (reads_within S mip_dir) q p).
Proof.
  intros Horder. unfold build_uninstall_order.
  set (candidates := λ _ : string, order).
  set (selected := λ pkg_name other_pkg, _ && _).
  assert (∀ a b, successor candidates selected a b
                 ↔ b ∈ order ∧ b ≠ a ∧ a ∈ _read_package_dependencies mip_dir b) as Hsucc
    by (intros; apply uninstall_successor).
  destruct (visit_all_returns candidates selected (list_to_set order)) with (roots := order)
    as [[V' result] Hrun].
  { intros a b [Hb _]%Hsucc. set_solver. }
  { set_solver. }
  { apply size_list_to_set_le. }
  exists result. rewrite Hrun. simpl. split; [done|].
  apply visit_all_from_empty in Hrun as (HV' & Hnd & _ & Hroots & Hreach & Hord).
  assert (∀ a b, rtc (successor candidates selected) a b → a ∈ S →
                 b ∈ S ∧ rtc (reads_within S mip_dir) b a) as Hback.
  { intros a b Hab. induction Hab as [a|a y b Hay _ IH]; intros Ha; [done|].
    apply Hsucc in Hay as (Hy%Horder & _ & Hdep). destruct (IH Hy) as [Hb Hby].
    split; [done|]. eapply rtc_r; [done|]. by split_and!. }
  assert (∀ p, p ∈ result ↔ p ∈ S) as Hmem.
  { intros p. split.
    - intros Hp. destruct (Hreach p Hp) as (r & Hr%Horder & Hrp). by apply Hback in Hrp as [? _].
    - intros Hp%Horder%Hroots. set_solver. }
  split_and!; [done..|].
  intros p q (Hp & Hq & Hdep).
  destruct (decide (p = q)) as [->|Hne].
  { right. apply rtc_once. by split_and!. }
  assert (successor candidates selected q p) as Hqp.
  { apply Hsucc. split_and!; [by apply Horder | done..]. }
  destruct (Hord q p) as [?|[?|Hcycle]]; [by apply Hmem | done | set_solver | by left |].
  right. by apply Hback in Hcycle as [_ ?].
Qed.

Lemma collect_reverse_dependencies_closure mip_dir requested_packages :
  ∀ S0, ∃ S,
    collect_reverse_dependencies mip_dir requested_packages S0 = Some S
    ∧ ∀ p, p ∈ S ↔ p ∈ S0 ∨ ∃ r, r ∈ requested_packages ∧ tc (requires_other mip_dir) p r.
Proof.
  induction requested_packages as [|r rest IH]; intros S0; simpl.
  - exists S0. split; [done|]. set_solver.
  - destruct (find_reverse_dependencies_closure mip_dir r)
      as (reverse_deps & visited & -> & _ & Hres). simpl.
    destruct (IH (S0 ∪ list_to_set reverse_deps)) as (S & -> & HS).
    exists S. split; [done|]. intros p. rewrite HS, elem_of_union, elem_of_list_to_set, Hres.
    split.
    + intros [[?|?]|(r' & ? & ?)]; [by left | right; exists r | right; exists r'];
        (split; [set_solver | done]).
    + intros [?|(r' & [-> |?]%elem_of_cons & ?)]; [by left; left | by left; right |].
      right. by exists r'.
Qed.

Lemma enumerates_elem_of enum (S : gset string) p :
  enumerates enum → p ∈ enum S ↔ p ∈ S.
Proof. intros Henum. rewrite (Henum S). apply elem_of_elements. Qed.

(** Phase 1 of [uninstall_package] returns a plan; the plan is the set of
    the installed requested packages and their transitive dependents, each
    listed once. *)
Lemma uninstall_package_plan enum mip_dir package_names :
  enumerates enum →
  ∃ plan,
    uninstall_package enum mip_dir package_names = Some plan
    ∧ NoDup (to_uninstall plan)
    ∧ (∀ p, p ∈ to_uninstall plan ↔ p ∈ all_to_uninstall plan)
    ∧ (∀ p, p ∈ all_to_uninstall plan ↔
         ∃ r, r ∈ package_names ∧ exists_in mip_dir r
              ∧ (p = r ∨ tc (requires_other mip_dir) p r))
    ∧ (∀ p q, reads_within (all_to_uninstall plan) mip_dir p q →
         before p q (to_uninstall plan)
         ∨ rtc (reads_within (all_to_uninstall plan) mip_dir) q p).
Proof.
  intros Henum. unfold uninstall_package. cbv zeta.
  destruct (filter (λ pkg_name, exists_in mip_dir pkg_name) package_names)
    as [|r0 requested] eqn:Hrequested.
  - eexists. split; [done|]. simpl. split_and!; [constructor | set_solver | | ].
    + intros p. split; [set_solver|]. intros (r & Hr & Hex & _).
      by destruct (filter_nil_not_elem_of _ _ r Hrequested Hex).
    + intros p q (Hp & _). set_solver.
  - rewrite <- Hrequested. clear r0 requested Hrequested.
    set (requested_packages :=
           filter (λ pkg_name, exists_in mip_dir pkg_name) package_names).
    destruct (collect_reverse_dependencies_closure mip_dir requested_packages
                (list_to_set requested_packages)) as (S & -> & HS). simpl.
    unfold _build_uninstall_order.
    destruct (build_uninstall_order_post_order S (enum S) mip_dir)
      as (result & -> & Hnd & Hmem & Hord); [intros; by apply enumerates_elem_of|].
    eexists. split; [done|]. simpl. split_and!; [done..| |done].
    intros p. rewrite HS, elem_of_list_to_set. unfold requested_packages. split.
    + intros [[Hex Hp]%list_elem_of_filter|(r & [Hex Hr]%list_elem_of_filter & Hpr)].
      * exists p. by split_and!; [..|left].
      * exists r. by split_and!; [..|right].
    + intros (r & Hr & Hex & [-> |Hpr]).
      * left. by apply list_elem_of_filter.
      * right. exists r. split; [by apply list_elem_of_filter | done].
Qed.

Lemma build_uninstall_order_acyclic enum (S : gset string) mip_dir :
  enumerates enum →
  (∀ n, ¬ tc (reads_within S mip_dir) n n) →
  ∃ result,
    _build_uninstall_order enum S mip_dir = Some result
    ∧ NoDup result
    ∧ (∀ p, p ∈ result ↔ p ∈ S)
    ∧ (∀ p q, reads_within S mip_dir p q → before p q result).
Proof.
  intros Henum Hacyclic. unfold _build_uninstall_order.
  destruct (build_uninstall_order_post_order S (enum S) mip_dir)
    as (result & Hrun & Hnd & Hmem & Hord); [intros; by apply enumerates_elem_of|].
  exists result. split_and!; [done..|].
  intros p q Hpq. destruct (Hord p q Hpq) as [?|Hback]; [done|].
  destruct (Hacyclic p). eapply tc_rtc_r; [by apply tc_once | done].
Qed.

Lemma chain_dir_requested mip_dir :
  mip_dir ≡ₚ chain_dir →
  filter (λ pkg_name, exists_in mip_dir pkg_name) ["A"] = ["A"]
  ∧ collect_reverse_dependencies mip_dir ["A"] (list_to_set ["A"])
    = Some (list_to_set ["A"; "B"; "C"]).
Proof.
  intros Hperm. symmetry in Hperm. apply permutations_Permutation in Hperm.
  vm_compute in Hperm.
  repeat (apply elem_of_cons in Hperm as [-> |Hperm]); [split; vm_compute; reflexivity..|].
  by apply elem_of_nil in Hperm.
Qed.

Lemma chain_dir_order mip_dir order :
  mip_dir ≡ₚ chain_dir → order ≡ₚ ["A"; "B"; "C"] →
  build_uninstall_order order mip_dir = Some ["C"; "B"; "A"].
Proof.
  intros Hperm Horder.
  symmetry in Hperm. apply permutations_Permutation in Hperm. vm_compute in Hperm.
  symmetry in Horder. apply permutations_Permutation in Horder. vm_compute in Horder.
  repeat (apply elem_of_cons in Hperm as [-> |Hperm]);
    [repeat (apply elem_of_cons in Horder as [-> |Horder]);
       [vm_compute; reflexivity..|by apply elem_of_nil in Horder]..|].
  by apply elem_of_nil in Hperm.
Qed.

(** The scenario of the specification: with [A], [B] that needs [A] and [C]
    that needs [B] installed, in whatever order the directory and the set
    are listed, uninstalling [A] removes [C], then [B], then [A]. *)
Lemma uninstall_chain_scenario enum mip_dir :
  enumerates enum → mip_dir ≡ₚ chain_dir →
  ∃ plan,
    uninstall_package enum mip_dir ["A"] = Some plan
    ∧ all_to_uninstall plan = list_to_set ["A"; "B"; "C"]
    ∧ to_uninstall plan = ["C"; "B"; "A"].
Proof.
  intros Henum Hperm. unfold uninstall_package. cbv zeta.
  destruct (chain_dir_requested mip_dir Hperm) as [-> ->]. simpl.
  unfold _build_uninstall_order. rewrite (chain_dir_order mip_dir); [|done|].
  - eexists. split; [done|]. simpl. done.
  - rewrite (Henum _). apply permutations_Permutation. vm_compute. set_solver.
Qed.

(** C5 (as amended).  [_build_uninstall_order] returns the names of the
    uninstall set, each once; when no package of the set depends on itself
    through packages of the set, every package of the set comes before the
    packages of the set that its manifest lists, in the function and in the
    plan of [uninstall_package].  With [{A: [], B: [A], C: [B]}] installed
    and the request [A] the set is [{A, B, C}] and the order [C, B, A]. *)
Theorem uninstall_order_dependents_first :
  (∀ enum (S : gset string) mip_dir,
     enumerates enum →
     (∀ n, ¬ tc (reads_within S mip_dir) n n) →
     ∃ result,
       _build_uninstall_order enum S mip_dir = Some result
       ∧ NoDup result
       ∧ (∀ p, p ∈ result ↔ p ∈ S)
       ∧ (∀ p q, reads_within S mip_dir p q → before p q result))
  ∧ (∀ enum mip_dir package_names,
       enumerates enum →
       ∃ plan,
         uninstall_package enum mip_dir package_names = Some plan
         ∧ ((∀ n, ¬ tc (reads_within (all_to_uninstall plan) mip_dir) n n) →
            ∀ p q, reads_within (all_to_uninstall plan) mip_dir p q →
                   before p q (to_uninstall plan)))
  ∧ (∀ enum mip_dir,
       enumerates enum → mip_dir ≡ₚ chain_dir →
       ∃ plan,
         uninstall_package enum mip_dir ["A"] = Some plan
         ∧ all_to_uninstall plan = list_to_set ["A"; "B"; "C"]
         ∧ to_uninstall plan = ["C"; "B"; "A"]).
Proof.
  split_and!.
  - exact build_uninstall_order_acyclic.
  - intros enum mip_dir package_names Henum.
    destruct (uninstall_package_plan enum mip_dir package_names Henum)
      as (plan & Hrun & _ & _ & _ & Hord).
    exists plan. split; [done|]. intros Hacyclic p q Hpq.
    destruct (Hord p q Hpq) as [?|Hback]; [done|].
    destruct (Hacyclic p). eapply tc_rtc_r; [by apply tc_once | done].
  - exact uninstall_chain_scenario.
Qed.

Lemma enumerates_elements : enumerates elements.
Proof. by intros X. Qed.

Lemma chain_dir_acyclic (S : gset string) :
  ∀ n, ¬ tc (reads_within S chain_dir) n n.
Proof.
  apply ranked_acyclic with chain_rank. intros p q (_ & _ & Hq).
  destruct (decide (p = "A")) as [-> |HA]; [|destruct (decide (p = "B")) as [-> |HB];
    [|destruct (decide (p = "C")) as [-> |HC]]].
  - vm_compute in Hq. set_solver.
  - vm_compute in Hq. apply list_elem_of_singleton in Hq as ->. vm_compute. lia.
  - vm_compute in Hq. apply list_elem_of_singleton in Hq as ->. vm_compute. lia.
  - simpl in Hq. rewrite !bool_decide_eq_false_2 in Hq by done. set_solver.
Qed.

Lemma uninstall_order_dependents_first_witness :
  enumerates elements
  ∧ (∀ n, ¬ tc (reads_within (list_to_set ["A"; "B"; "C"]) chain_dir) n n)
  ∧ ∃ result,
      _build_uninstall_order elements (list_to_set ["A"; "B"; "C"]) chain_dir = Some result
      ∧ NoDup result
      ∧ (∀ p, p ∈ result ↔ p ∈ (list_to_set ["A"; "B"; "C"] : gset string))
      ∧ (∀ p q, reads_within (list_to_set ["A"; "B"; "C"]) chain_dir p q →
                before p q result).
Proof.
  split; [exact enumerates_elements|]. split; [apply chain_dir_acyclic|].
  exact (proj1 uninstall_order_dependents_first elements (list_to_set ["A"; "B"; "C"])
           chain_dir enumerates_elements (chain_dir_acyclic _)).
Defined.

Lemma mutual_dir_plan :
  ∃ plan,
    uninstall_package elements mutual_dir ["A"] = Some plan
    ∧ all_to_uninstall plan = list_to_set ["A"; "B"]
    ∧ to_uninstall plan = ["B"; "A"].
Proof. eexists. split_and!; vm_compute; reflexivity. Qed.

(** With two packages that need each other, [A] needs [B] and is removed
    after it. *)
Lemma dependents_removed_first_fails :
  (∃ plan,
     uninstall_package elements mutual_dir ["A"] = Some plan
     ∧ all_to_uninstall plan = list_to_set ["A"; "B"]
     ∧ to_uninstall plan = ["B"; "A"])
  ∧ ¬ dependents_removed_first elements mutual_dir ["A"].
Proof.
  split; [exact mutual_dir_plan|].
  intros Hclaim. destruct mutual_dir_plan as (plan & Hrun & Hall & Horder).
  specialize (Hclaim plan Hrun "A" "B"). rewrite Hall, Horder in Hclaim.
  assert (before "A" "B" ["B"; "A"]) as Hab.
  { apply Hclaim. split_and!; [set_solver..|]. vm_compute. set_solver. }
  revert Hab. apply before_asym.
  - repeat (constructor; [set_solver|]). constructor.
  - exists ["B"], []. split; [done | set_solver].
Qed.

(** C8 (as amended).  The finder returns a list in which a name can occur
    more than once; the uninstall planner collects the lists in a set, so
    the plan it returns holds each name once: the plan lists exactly the
    installed requested packages and the names the finder returns for
    them, without repetition. *)
Theorem uninstall_plan_without_repetition enum mip_dir package_names :
  enumerates enum →
  ∃ plan,
    uninstall_package enum mip_dir package_names = Some plan
    ∧ NoDup (to_uninstall plan)
    ∧ (∀ p, p ∈ to_uninstall plan ↔ p ∈ all_to_uninstall plan)
    ∧ (∀ p, p ∈ all_to_uninstall plan ↔
         ∃ r, r ∈ package_names ∧ exists_in mip_dir r
              ∧ (p = r
                 ∨ ∃ reverse_deps visited,
                     _find_reverse_dependencies r mip_dir ∅ = Some (reverse_deps, visited)
                     ∧ p ∈ reverse_deps)).
Proof.
  intros Henum.
  destruct (uninstall_package_plan enum mip_dir package_names Henum)
    as (plan & Hrun & Hnd & Hmem & Hall & _).
  exists plan. split_and!; [done..|].
  intros p. rewrite Hall. split; intros (r & Hr & Hex & Hp); exists r; (split_and!; [done..|]).
  - destruct Hp as [?|Hp]; [by left | right].
    destruct (find_reverse_dependencies_closure mip_dir r)
      as (reverse_deps & visited & Hfind & _ & Hres).
    exists reverse_deps, visited. split; [done | by apply Hres].
  - destruct Hp as [?|(reverse_deps & visited & Hfind & Hp)]; [by left | right].
    destruct (find_reverse_dependencies_closure mip_dir r)
      as (reverse_deps' & visited' & Hfind' & _ & Hres).
    rewrite Hfind' in Hfind. injection Hfind as <- _. by apply Hres.
Qed.

Lemma uninstall_plan_without_repetition_witness :
  enumerates elements
  ∧ ∃ plan,
      uninstall_package elements diamond_dir ["X"] = Some plan
      ∧ NoDup (to_uninstall plan)
      ∧ (∀ p, p ∈ to_uninstall plan ↔ p ∈ all_to_uninstall plan)
      ∧ (∀ p, p ∈ all_to_uninstall plan ↔
           ∃ r, r ∈ ["X"] ∧ exists_in diamond_dir r
                ∧ (p = r
                   ∨ ∃ reverse_deps visited,
                       _find_reverse_dependencies r diamond_dir ∅
                         = Some (reverse_deps, visited)
                       ∧ p ∈ reverse_deps)).
Proof.
  split; [exact enumerates_elements|].
  exact (uninstall_plan_without_repetition elements diamond_dir ["X"] enumerates_elements).
Defined.

Example uninstall_diamond_plan :
  to_uninstall <$> uninstall_package elements diamond_dir ["X"]
  = Some ["D"; "C"; "B"; "X"].
Proof. vm_compute. reflexivity. Qed.

(** ** The install planner *)

Lemma build_dependency_graph_closure index package_name out V' P' :
  MipClient._build_dependency_graph package_name index ∅ [] = Done (out, V', P') →
  NoDup out ∧ ∀ p, p ∈ out ↔ rtc (depends_on index) package_name p.
Proof.
  intros [Hres _]%build_dependency_graph_resolved.
  pose proof (resolved_closed _ _ _ _ _ Hres) as Hclosed.
  destruct Hres as (_ & Hnd & _ & _ & _ & _ & Hreach & _).
  split; [done|]. intros p. split; [apply Hreach | apply Hclosed].
Qed.

Lemma install_orders_closure index repo_packages orders :
  install_orders index repo_packages = Done orders →
  Forall2 (λ pkg_name install_order,
             (∃ visited', MipClient._build_dependency_graph pkg_name index ∅ []
                          = Done (install_order, visited', [pkg_name]))
             ∧ NoDup install_order
             ∧ ∀ p, p ∈ install_order ↔ rtc (depends_on index) pkg_name p)
          repo_packages orders.
Proof.
  revert orders. induction repo_packages as [|r rest IH]; intros orders Hrun; simpl in Hrun.
  - injection Hrun as <-. constructor.
  - destruct (MipClient._build_dependency_graph r index ∅ []) as [[[out V'] P']| |] eqn:Hr;
      simpl in Hrun; try done.
    destruct (install_orders index rest) as [orders'| |]; simpl in Hrun; try done.
    injection Hrun as <-. constructor; [|by apply IH].
    pose proof Hr as [_ HP]%build_dependency_graph_resolved.
    rewrite bool_decide_eq_false_2 in HP by set_solver. simpl in HP. subst P'.
    split; [by exists V'|]. by apply build_dependency_graph_closure in Hr.
Qed.

Lemma resolve_requested_orders index repo_packages :
  ∀ required,
    resolve_requested index repo_packages required
    = orders ← install_orders index repo_packages;
      Done (fold_left (λ required install_order, required ∪ list_to_set install_order)
                      orders required).
Proof.
  induction repo_packages as [|r rest IH]; intros required; simpl; [done|].
  destruct (MipClient._build_dependency_graph r index ∅ []) as [[[out V'] P']| |];
    simpl; [|done..].
  rewrite IH. by destruct (install_orders index rest).
Qed.

Lemma resolve_requested_closure index repo_packages :
  ∀ required0 required,
    resolve_requested index repo_packages required0 = Done required →
    ∀ p, p ∈ required ↔
         p ∈ required0 ∨ ∃ r, r ∈ repo_packages ∧ rtc (depends_on index) r p.
Proof.
  induction repo_packages as [|r rest IH]; intros required0 required Hrun p; simpl in Hrun.
  - injection Hrun as <-. set_solver.
  - destruct (MipClient._build_dependency_graph r index ∅ []) as [[[out V'] P']| |] eqn:Hr;
      simpl in Hrun; try done.
    apply build_dependency_graph_closure in Hr as [_ Hout].
    rewrite (IH _ _ Hrun), elem_of_union, elem_of_list_to_set, Hout. split.
    + intros [[?|?]|(r' & ? & ?)]; [by left | right; exists r | right; exists r'];
        (split; [set_solver | done]).
    + intros [?|(r' & [-> |?]%elem_of_cons & ?)]; [by left; left | by left; right |].
      right. by exists r'.
Qed.

Lemma resolve_requested_returns index repo_packages :
  ∀ required, resolve_requested index repo_packages required ≠ OutOfFuel.
Proof.
  induction repo_packages as [|r rest IH]; intros required; simpl; [done|].
  destruct (MipClient._build_dependency_graph r index ∅ []) as [[[out V'] P']| |] eqn:Hr;
    simpl; [apply IH | done |].
  by apply build_dependency_graph_returns in Hr.
Qed.

Lemma elem_of_fold_union (orders : list (list string)) :
  ∀ (required0 : gset string) p,
    p ∈ fold_left (λ required install_order, required ∪ list_to_set install_order)
                  orders required0
    ↔ p ∈ required0 ∨ ∃ install_order, install_order ∈ orders ∧ p ∈ install_order.
Proof.
  induction orders as [|o orders IH]; intros required0 p; simpl.
  - set_solver.
  - rewrite IH, elem_of_union, elem_of_list_to_set. split.
    + intros [[?|?]|(o' & ? & ?)]; [by left | right; exists o | right; exists o'];
        (split; [set_solver | done]).
    + intros [?|(o' & [-> |?]%elem_of_cons & ?)]; [by left; left | by left; right |].
      right. by exists o'.
Qed.

(** C3 (as amended).  In one planning session every call of the graph
    builder starts from a new empty visited set and an empty path: the
    sequence returned for a requested name lists, without repetition,
    exactly the names that can be reached from it, so a package below
    several requested names is expanded once for each of them.  The names
    are merged in the set of required packages, which holds each once. *)
Theorem install_orders_fresh_visited index repo_packages orders :
  install_orders index repo_packages = Done orders →
  Forall2 (λ pkg_name install_order,
             (∃ visited', MipClient._build_dependency_graph pkg_name index ∅ []
                          = Done (install_order, visited', [pkg_name]))
             ∧ NoDup install_order
             ∧ ∀ p, p ∈ install_order ↔ rtc (depends_on index) pkg_name p)
          repo_packages orders
  ∧ ∃ required,
      resolve_requested index repo_packages ∅ = Done required
      ∧ ∀ p, p ∈ required ↔ ∃ install_order, install_order ∈ orders ∧ p ∈ install_order.
Proof.
  intros Hrun. pose proof (install_orders_closure _ _ _ Hrun) as Hall.
  split; [done|]. rewrite resolve_requested_orders, Hrun. simpl. eexists. split; [done|].
  intros p. rewrite elem_of_fold_union. set_solver.
Qed.

Lemma pair_index_orders :
  install_orders pair_index ["A"; "B"] = Done [["A"]; ["A"; "B"]]
  ∧ install_orders_shared pair_index ["A"; "B"] ∅ = Done [["A"]; ["B"]].
Proof. split; vm_compute; reflexivity. Qed.

Lemma install_orders_fresh_visited_witness :
  install_orders pair_index ["A"; "B"] = Done [["A"]; ["A"; "B"]]
  ∧ Forall2 (λ pkg_name install_order,
               (∃ visited', MipClient._build_dependency_graph pkg_name pair_index ∅ []
                            = Done (install_order, visited', [pkg_name]))
               ∧ NoDup install_order
               ∧ ∀ p, p ∈ install_order ↔ rtc (depends_on pair_index) pkg_name p)
            ["A"; "B"] [["A"]; ["A"; "B"]]
  ∧ ∃ required,
      resolve_requested pair_index ["A"; "B"] ∅ = Done required
      ∧ ∀ p, p ∈ required ↔ ∃ install_order, install_order ∈ [["A"]; ["A"; "B"]]
                                              ∧ p ∈ install_order.
Proof.
  split; [exact (proj1 pair_index_orders)|].
  exact (install_orders_fresh_visited pair_index ["A"; "B"] [["A"]; ["A"; "B"]]
           (proj1 pair_index_orders)).
Defined.

(** Requesting [A] and [B], where [B] needs [A]: the second call expands
    [A] again, which a call sharing the visited set of the first would not. *)
Lemma session_shares_visited_fails :
  (install_orders pair_index ["A"; "B"] = Done [["A"]; ["A"; "B"]]
   ∧ install_orders_shared pair_index ["A"; "B"] ∅ = Done [["A"]; ["B"]])
  ∧ ¬ session_shares_visited pair_index ["A"; "B"].
Proof.
  split; [exact pair_index_orders|].
  intros [Hshared _]. destruct pair_index_orders as [Hcode Hspec].
  rewrite Hcode, Hspec in Hshared. discriminate Hshared.
Qed.

(** The same session breaks the consequence too: [A] is emitted twice. *)
Lemma session_expands_twice :
  ¬ NoDup (concat [["A"]; ["A"; "B"]]).
Proof. simpl. intros [Hnotin _]%NoDup_cons. set_solver. Qed.

Lemma filter_all_true {A} (P : A → Prop) `{!∀ x, Decision (P x)} (l : list A) :
  (∀ x, x ∈ l → P x) → filter P l = l.
Proof.
  induction l as [|a l IH]; intros Hall; [done|]. rewrite filter_cons.
  rewrite decide_True by (apply Hall; set_solver). f_equal. apply IH. set_solver.
Qed.

Lemma filter_all_false {A} (P : A → Prop) `{!∀ x, Decision (P x)} (l : list A) :
  (∀ x, x ∈ l → ¬ P x) → filter P l = [].
Proof.
  induction l as [|a l IH]; intros Hall; [done|]. rewrite filter_cons.
  rewrite decide_False by (apply Hall; set_solver). apply IH. set_solver.
Qed.

Lemma pair_index_installed r p :
  r ∈ ["A"; "B"] → rtc (depends_on pair_index) r p → exists_in pair_dir p.
Proof.
  intros Hr Hp.
  assert (∃ out V' P', MipClient._build_dependency_graph r pair_index ∅ [] = Done (out, V', P')
                       ∧ ∀ q, q ∈ out → exists_in pair_dir q) as (out & V' & P' & Hrun & Hout).
  { apply elem_of_cons in Hr as [-> |Hr]; [|apply list_elem_of_singleton in Hr as ->].
    - eexists _, _, _. split; [vm_compute; reflexivity|].
      intros q ->%list_elem_of_singleton. vm_compute. done.
    - eexists _, _, _. split; [vm_compute; reflexivity|].
      intros q [-> | ->%list_elem_of_singleton]%elem_of_cons; vm_compute; done. }
  apply Hout. by apply (build_dependency_graph_closure _ _ _ _ _ Hrun).
Qed.

Example install_pair_scenario :
  ∃ plan,
    install_package elements pair_index pair_dir ["A"; "B"] = Done plan
    ∧ to_install plan = []
    ∧ already_installed plan ≡ₚ ["A"; "B"]
    ∧ executed plan = [].
Proof.
  eexists. split; [vm_compute; reflexivity|]. simpl. split_and!; done.
Qed.

(** *** The order of the plan *)

Lemma package_info_map_lookup index p :
  NoDup (name <$> index) → package_info_map index !! p = find_package p index.
Proof.
  assert (∀ m0 : gmap string package,
            NoDup (name <$> index) →
            fold_left (λ m pkg, <[name pkg := pkg]> m) index m0 !! p
            = match find_package p index with Some pkg => Some pkg | None => m0 !! p end)
    as Hfold.
  { induction index as [|a rest IH]; intros m0 Hnd; simpl; [done|].
    rewrite fmap_cons in Hnd. apply NoDup_cons in Hnd as [Ha Hnd]. rewrite (IH _ Hnd).
    case_bool_decide as Hname.
    - subst p. apply find_package_None in Ha. rewrite Ha. apply lookup_insert_eq.
    - destruct (find_package p rest); [done|]. by apply lookup_insert_ne. }
  intros Hnd. unfold package_info_map. rewrite (Hfold ∅ Hnd), lookup_empty.
  by destruct (find_package p index).
Qed.

Lemma before_filter (P : string → Prop) `{!∀ x, Decision (P x)} d p l :
  before d p l → P d → P p → before d p (filter P l).
Proof.
  intros (l1 & l2 & -> & Hd) HPd HPp. exists (filter P l1), (filter P l2). split.
  - by rewrite filter_app, filter_cons_True.
  - by apply list_elem_of_filter.
Qed.

Lemma resolve_requested_acyclic index repo_packages :
  ∀ required0 required,
    resolve_requested index repo_packages required0 = Done required →
    ∀ r, r ∈ repo_packages → acyclic_from index r.
Proof.
  induction repo_packages as [|r0 rest IH]; intros required0 required Hrun r Hr; simpl in Hrun.
  - by apply elem_of_nil in Hr.
  - destruct (MipClient._build_dependency_graph r0 index ∅ []) as [res| |] eqn:Hr0;
      simpl in Hrun; try done. destruct res as [[out V'] P'].
    apply elem_of_cons in Hr as [-> |Hr]; [|by eapply IH].
    apply build_dependency_graph_Done_acyclic. by eexists.
Qed.

Lemma install_package_Done enum index mip_dir package_names plan :
  install_package enum index mip_dir package_names = Done plan →
  ((all_required plan = ∅ ∧ all_packages_to_install plan = [])
   ∨ (resolve_requested index (filter (λ pkg, ¬ endswith pkg ".mhl") package_names) ∅
        = Done (all_required plan)
      ∧ _topological_sort_packages (enum (all_required plan)) (package_info_map index)
        = Some (all_packages_to_install plan)))
  ∧ to_install plan
    = filter (λ pkg_name, ¬ exists_in mip_dir pkg_name) (all_packages_to_install plan)
  ∧ already_installed plan
    = filter (λ pkg_name, exists_in mip_dir pkg_name) (all_packages_to_install plan).
Proof.
  unfold install_package. cbv zeta.
  destruct (filter (λ pkg, ¬ endswith pkg ".mhl") package_names) as [|r0 repo] eqn:Hrepo.
  - simpl. intros [= <-]. simpl. split_and!; [by left | done..].
  - destruct (resolve_requested index (r0 :: repo) ∅) as [required| |]; simpl; [|done..].
    destruct (_topological_sort_packages _ _) as [sorted|] eqn:Hsort; simpl; [|done].
    intros [= <-]. simpl. split_and!; [by right | done..].
Qed.

(** In the install planner, with an index that names each package once, the
    sorted list and the list to install hold every declared dependency
    before its package. *)
Lemma install_package_order enum index mip_dir package_names plan :
  enumerates enum → NoDup (name <$> index) →
  install_package enum index mip_dir package_names = Done plan →
  NoDup (all_packages_to_install plan)
  ∧ (∀ p, p ∈ all_packages_to_install plan ↔ p ∈ all_required plan)
  ∧ (∀ p d, p ∈ all_packages_to_install plan → depends_on index p d →
            before d p (all_packages_to_install plan))
  ∧ (∀ p d, p ∈ to_install plan → d ∈ to_install plan → depends_on index p d →
            before d p (to_install plan)).
Proof.
  intros Henum Hunique Hplan.
  apply install_package_Done in Hplan as (Hsorted & Hto & _).
  assert (NoDup (all_packages_to_install plan)
          ∧ (∀ p, p ∈ all_packages_to_install plan ↔ p ∈ all_required plan)
          ∧ (∀ p d, p ∈ all_packages_to_install plan → depends_on index p d →
                    before d p (all_packages_to_install plan))) as (Hnd & Hmem & Hord).
  { destruct Hsorted as [[Hnone Hnil]|[Hresolve Hsort]].
    { rewrite Hnone, Hnil. split_and!; [constructor | set_solver | set_solver]. }
    pose proof (resolve_requested_closure _ _ _ _ Hresolve) as Hclosure.
    pose proof (resolve_requested_acyclic _ _ _ _ Hresolve) as Hacyclic.
    destruct (topological_sort_packages_post_order (enum (all_required plan))
                (package_info_map index)) as (sorted & Hsort' & Hnd & Hmem & Hord & _).
    rewrite Hsort in Hsort'. injection Hsort' as <-.
    assert (∀ p, p ∈ all_packages_to_install plan ↔ p ∈ all_required plan) as Hmem'.
    { intros p. rewrite Hmem. by apply enumerates_elem_of. }
    assert (∀ a b, declares_within (enum (all_required plan)) (package_info_map index) a b →
                   depends_on index a b) as Hdep.
    { intros a b (_ & _ & pkg_info & Hinfo & Hb).
      rewrite package_info_map_lookup in Hinfo by done. by exists pkg_info. }
    split_and!; [done..|].
    intros p d Hp Hpd.
    assert (∃ r, r ∈ filter (λ pkg, ¬ endswith pkg ".mhl") package_names
                 ∧ rtc (depends_on index) r p) as (r & Hr & Hrp).
    { apply Hmem', Hclosure in Hp as [?|?]; [set_solver | done]. }
    assert (declares_within (enum (all_required plan)) (package_info_map index) p d) as Hpd'.
    { split_and!.
      - by apply Hmem.
      - apply enumerates_elem_of; [done|]. apply Hclosure. right. exists r.
        split; [done | by eapply rtc_r].
      - destruct Hpd as (pkg_info & Hinfo & Hd). exists pkg_info.
        by rewrite package_info_map_lookup. }
    destruct (Hord p d Hpd') as [?|Hback]; [done|]. exfalso.
    apply (Hacyclic r Hr p Hrp). eapply tc_rtc_r; [by apply tc_once|].
    eapply rtc_subrel; [exact Hdep | done]. }
  split_and!; [done..|].
  intros p d. rewrite Hto, !list_elem_of_filter. intros [Hp Hp'] [Hd Hd'] Hpd.
  apply before_filter; [by apply Hord | done..].
Qed.

(** C6 (as amended).  When the declared dependencies among the sorted
    names have no cycle, [_topological_sort_packages] returns the names of
    its input, each once, with every declared dependency that is among them
    before the package that declares it.  It is a depth-first post-order and
    not a stable sort: a name [b] is put before a name [a] that precedes
    every occurrence of [b] in the input only if [b] is a transitive
    dependency of [a] or of a name listed before [a].  In the install
    planner, for an index that names each package once, there is no such
    cycle once the graph builder has returned: the sorted list holds the
    required packages, each once, every declared dependency before its
    package, and so does the list to install.  For the index
    [{A: [], B: [A], C: [B]}] and the request [C] the plan is [A, B, C]. *)
Theorem topological_sort_packages_order :
  (∀ package_names info_map,
     (∀ n, ¬ tc (declares_within package_names info_map) n n) →
     ∃ sorted,
       _topological_sort_packages package_names info_map = Some sorted
       ∧ NoDup sorted
       ∧ (∀ p, p ∈ sorted ↔ p ∈ package_names)
       ∧ (∀ p d, declares_within package_names info_map p d → before d p sorted)
       ∧ (∀ a b l1 l2, package_names = l1 ++ a :: l2 → b ∉ l1 ++ [a] →
            before b a sorted →
            ∃ r, r ∈ l1 ++ [a] ∧ tc (declares_within package_names info_map) r b))
  ∧ (∀ enum index mip_dir package_names plan,
       enumerates enum → NoDup (name <$> index) →
       install_package enum index mip_dir package_names = Done plan →
       NoDup (all_packages_to_install plan)
       ∧ (∀ p, p ∈ all_packages_to_install plan ↔ p ∈ all_required plan)
       ∧ (∀ p d, p ∈ all_packages_to_install plan → depends_on index p d →
                 before d p (all_packages_to_install plan))
       ∧ (∀ p d, p ∈ to_install plan → d ∈ to_install plan → depends_on index p d →
                 before d p (to_install plan)))
  ∧ (∀ enum, enumerates enum →
       ∃ plan, install_package enum chain_index [] ["C"] = Done plan
               ∧ to_install plan = ["A"; "B"; "C"]).
Proof.
  split; [|split; [exact install_package_order | exact install_chain_scenario]].
  intros package_names info_map Hacyclic.
  destruct (topological_sort_packages_post_order package_names info_map)
    as (sorted & Hrun & Hnd & Hmem & Hord & Hstable).
  exists sorted. split_and!; [done..| |done].
  intros p d Hpd. destruct (Hord p d Hpd) as [?|Hback]; [done|].
  destruct (Hacyclic p). eapply tc_rtc_r; [by apply tc_once | done].
Qed.

Lemma topological_sort_packages_order_witness :
  (∀ n, ¬ tc (declares_within ["C"; "A"; "B"] (package_info_map chain_index)) n n)
  ∧ ∃ sorted,
      _topological_sort_packages ["C"; "A"; "B"] (package_info_map chain_index) = Some sorted
      ∧ NoDup sorted
      ∧ (∀ p, p ∈ sorted ↔ p ∈ ["C"; "A"; "B"])
      ∧ (∀ p d, declares_within ["C"; "A"; "B"] (package_info_map chain_index) p d →
           before d p sorted)
      ∧ (∀ a b l1 l2, ["C"; "A"; "B"] = l1 ++ a :: l2 → b ∉ l1 ++ [a] →
           before b a sorted →
           ∃ r, r ∈ l1 ++ [a]
                ∧ tc (declares_within ["C"; "A"; "B"] (package_info_map chain_index)) r b).
Proof.
  split; [exact (chain_index_acyclic ["C"; "A"; "B"])|].
  exact (proj1 topological_sort_packages_order ["C"; "A"; "B"] (package_info_map chain_index)
           (chain_index_acyclic ["C"; "A"; "B"])).
Defined.

(** [A] is listed before [B] and no dependency relates them, yet [B] is
    sorted first because [X], listed first, needs it. *)
Lemma sibling_index_sorted :
  _topological_sort_packages ["X"; "A"; "B"] (package_info_map sibling_index)
  = Some ["B"; "X"; "A"].
Proof. vm_compute. reflexivity. Qed.

Lemma sibling_index_leaf package_names n d :
  n ≠ "X" → ¬ tc (declares_within package_names (package_info_map sibling_index)) n d.
Proof.
  intros Hn Htc.
  assert (∃ y, declares (package_info_map sibling_index) n y) as (y & pkg_info & Hinfo & Hy).
  { destruct Htc as [n d (_ & _ & ?)|n y d (_ & _ & ?) _]; eauto. }
  unfold package_info_map, sibling_index in Hinfo. simpl in Hinfo.
  destruct (decide (n = "A")) as [-> |HA]; [|destruct (decide (n = "B")) as [-> |HB]].
  - vm_compute in Hinfo. injection Hinfo as <-. simpl in Hy. set_solver.
  - vm_compute in Hinfo. injection Hinfo as <-. simpl in Hy. set_solver.
  - rewrite !lookup_insert_ne in Hinfo by done. by rewrite lookup_empty in Hinfo.
Qed.

Lemma sorts_stably_fails :
  _topological_sort_packages ["X"; "A"; "B"] (package_info_map sibling_index)
    = Some ["B"; "X"; "A"]
  ∧ ¬ sorts_stably ["X"; "A"; "B"] (package_info_map sibling_index).
Proof.
  split; [exact sibling_index_sorted|].
  intros Hclaim. destruct (Hclaim _ sibling_index_sorted) as [_ Hstable].
  assert (before "A" "B" ["B"; "X"; "A"]) as Hab.
  { apply Hstable.
    - exists ["X"; "A"], []. split; [done | set_solver].
    - by apply sibling_index_leaf.
    - by apply sibling_index_leaf. }
  revert Hab. apply before_asym.
  - repeat (constructor; [set_solver|]). constructor.
  - exists ["B"; "X"], []. split; [done | set_solver].
Qed.

(** ** Outcome of the install planner *)

(** Every name a returning call emits has an entry in the index. *)
Lemma build_dependency_graph_found index fuel :
  ∀ package_name V P out V' P',
    MipClient.build_dependency_graph fuel package_name index V P = Done (out, V', P') →
    ∀ p, p ∈ out → p ∈ name <$> index.
Proof.
  induction fuel as [|fuel IH]; intros package_name V P out V' P' Hrun; [done|].
  destruct (decide (package_name ∈ V)) as [HV|HV].
  - simpl in Hrun. case_bool_decide; [done|].
    rewrite bool_decide_eq_true_2 in Hrun by done. injection Hrun as <- _ _.
    intros p Hp. by apply elem_of_nil in Hp.
  - apply build_dependency_graph_expand in Hrun as (info & subs & Hfind & -> & Hall); [|done].
    intros p [Hp| ->%list_elem_of_singleton]%elem_of_app.
    + apply list_elem_of_In, in_concat in Hp as (sub & Hsub & Hp).
      apply list_elem_of_In in Hsub, Hp.
      apply list_elem_of_lookup in Hsub as [i Hi].
      destruct (Forall2_lookup_r _ _ _ _ _ Hall Hi) as (dep & _ & V0 & V1 & P1 & Hdep).
      by eapply IH.
    + apply find_package_Some in Hfind as [<- Hin]. apply list_elem_of_fmap. by exists info.
Qed.

(** The graph builder returns exactly when nothing reachable from the
    requested name is missing from the index or lies on a cycle. *)
Lemma build_dependency_graph_Done_iff index package_name :
  (∃ res, MipClient._build_dependency_graph package_name index ∅ [] = Done res)
  ↔ ∀ n, rtc (depends_on index) package_name n →
         n ∈ name <$> index ∧ ¬ tc (depends_on index) n n.
Proof.
  split.
  - intros [[[out V'] P'] Hrun] n Hn. split.
    + eapply build_dependency_graph_found; [exact Hrun|].
      by apply (build_dependency_graph_closure _ _ _ _ _ Hrun).
    + apply (build_dependency_graph_Done_acyclic index package_name); [by eexists | done].
  - intros Hok.
    destruct (MipClient._build_dependency_graph package_name index ∅ []) as [res|e|] eqn:Hrun.
    + by exists res.
    + exfalso. pose proof (build_dependency_graph_aborted _ _ _ _ _ _ Hrun) as Hab.
      destruct e as [cycle|n].
      * apply aborted_reachable_cycle in Hab as (n & Hn & Hcyc). by apply (Hok n Hn).
      * destruct Hab as [Hn Hnone]. apply find_package_None in Hnone.
        by apply Hnone, Hok.
    + by apply build_dependency_graph_returns in Hrun.
Qed.

(** The resolving loop stops at the first requested name whose resolution
    fails, with the error of that name. *)
Lemma resolve_requested_Exit index repo_packages :
  ∀ required e,
    resolve_requested index repo_packages required = Exit e →
    ∃ l1 r l2,
      repo_packages = l1 ++ r :: l2
      ∧ (∀ r', r' ∈ l1 → ∃ res, MipClient._build_dependency_graph r' index ∅ [] = Done res)
      ∧ MipClient._build_dependency_graph r index ∅ [] = Exit e.
Proof.
  induction repo_packages as [|r0 rest IH]; intros required e Hrun; simpl in Hrun; [done|].
  destruct (MipClient._build_dependency_graph r0 index ∅ []) as [[[out V'] P']|e'|] eqn:Hr0;
    simpl in Hrun; [| |done].
  - apply IH in Hrun as (l1 & r & l2 & -> & Hl1 & Hr). exists (r0 :: l1), r, l2.
    split_and!; [done| |done]. intros r' [-> |?]%elem_of_cons; [by eexists | by apply Hl1].
  - injection Hrun as ->. exists [], r0, rest. split_and!; [done| |done].
    intros r' Hr'. by apply elem_of_nil in Hr'.
Qed.

Lemma resolve_requested_Done index repo_packages :
  ∀ required,
    (∃ required', resolve_requested index repo_packages required = Done required')
    ↔ ∀ r, r ∈ repo_packages →
           ∃ res, MipClient._build_dependency_graph r index ∅ [] = Done res.
Proof.
  induction repo_packages as [|r0 rest IH]; intros required; simpl.
  - split; [|by eexists]. intros _ r Hr. by apply elem_of_nil in Hr.
  - destruct (MipClient._build_dependency_graph r0 index ∅ []) as [[[out V'] P']|e'|] eqn:Hr0;
      simpl.
    + rewrite IH. split.
      * intros Hrest r [-> |?]%elem_of_cons; [by eexists | by apply Hrest].
      * intros Hall r Hr. apply Hall. by right.
    + split; [by intros [? ?]|]. intros Hall. destruct (Hall r0) as [res Hres]; [by left|].
      by rewrite Hr0 in Hres.
    + split; [by intros [? ?]|]. intros Hall. destruct (Hall r0) as [res Hres]; [by left|].
      by rewrite Hr0 in Hres.
Qed.

(** What the planner computes, outcome by outcome. *)
Lemma install_package_inv enum index mip_dir package_names :
  enumerates enum →
  match install_package enum index mip_dir package_names with
  | Done plan =>
      resolve_requested index (filter (λ pkg, ¬ endswith pkg ".mhl") package_names) ∅
        = Done (all_required plan)
      ∧ NoDup (all_packages_to_install plan)
      ∧ (∀ p, p ∈ all_packages_to_install plan ↔ p ∈ all_required plan)
      ∧ to_install plan
        = filter (λ pkg_name, ¬ exists_in mip_dir pkg_name) (all_packages_to_install plan)
      ∧ already_installed plan
        = filter (λ pkg_name, exists_in mip_dir pkg_name) (all_packages_to_install plan)
      ∧ executed plan
        = (DownloadAndInstall <$> to_install plan)
          ++ (InstallFromMhl <$> filter (λ pkg, endswith pkg ".mhl") package_names)
  | Exit e =>
      resolve_requested index (filter (λ pkg, ¬ endswith pkg ".mhl") package_names) ∅
        = Exit e
  | OutOfFuel => False
  end.
Proof.
  intros Henum. unfold install_package. cbv zeta.
  destruct (filter (λ pkg, ¬ endswith pkg ".mhl") package_names) as [|r0 repo] eqn:Hrepo.
  - simpl. split_and!; [done | apply NoDup_nil_2 | set_solver | done..].
  - destruct (resolve_requested index (r0 :: repo) ∅) as [required| |] eqn:Hresolve;
      [|done|by apply resolve_requested_returns in Hresolve].
    destruct (topological_sort_packages_post_order (enum required) (package_info_map index))
      as (sorted & Hsort & Hnd & Hmem & _).
    cbn [mbind run_bind]. rewrite Hsort. simpl. split_and!; [done | done | | done..].
    intros p. rewrite Hmem. by apply enumerates_elem_of.
Qed.

Lemma install_partial_plan :
  ∃ plan, install_package elements chain_index partial_dir ["C"] = Done plan
          ∧ to_install plan = ["B"; "C"] ∧ already_installed plan = ["A"].
Proof. eexists. split_and!; vm_compute; reflexivity. Qed.

Example install_lasso_exits :
  install_package elements lasso_index [] ["A"; "x.mhl"]
  = Exit (CircularDependency ["A"; "B"; "C"; "B"]).
Proof. vm_compute. reflexivity. Qed.

(** ** The installation plan shown to the user *)

(** The dictionary built from the index has an entry for every name of the
    index, taken from the index under that name. *)
Lemma package_info_map_is_Some index p :
  p ∈ name <$> index →
  ∃ pkg_info, package_info_map index !! p = Some pkg_info
              ∧ name pkg_info = p ∧ pkg_info ∈ index.
Proof.
  unfold package_info_map. induction index as [|pkg index IH] using rev_ind.
  { intros Hp. by apply elem_of_nil in Hp. }
  rewrite fmap_app, fold_left_app. simpl. intros Hp.
  destruct (decide (name pkg = p)) as [<- |Hne].
  - exists pkg. rewrite lookup_insert_eq. split_and!; [done..|]. set_solver.
  - rewrite lookup_insert_ne by done. destruct IH as (pkg_info & ? & ? & ?); [set_solver|].
    exists pkg_info. split_and!; [done..|]. set_solver.
Qed.

Lemma required_by_spec index pkg_name repo_packages :
  (∀ r, r ∈ repo_packages →
        ∃ res, MipClient._build_dependency_graph r index ∅ [] = Done res) →
  ∀ acc, ∃ requiring,
    required_by index pkg_name repo_packages acc = Done (acc ++ requiring)
    ∧ requiring `sublist_of` repo_packages
    ∧ ∀ r, r ∈ requiring ↔
           r ∈ repo_packages ∧ r ≠ pkg_name ∧ rtc (depends_on index) r pkg_name.
Proof.
  induction repo_packages as [|r0 rest IH]; intros Hall acc; simpl.
  { exists []. rewrite app_nil_r. split_and!; [done..|]. set_solver. }
  assert (∀ r, r ∈ rest →
            ∃ res, MipClient._build_dependency_graph r index ∅ [] = Done res) as Hrest.
  { intros r Hr. apply Hall. by right. }
  case_bool_decide as Hne.
  - destruct (Hall r0) as [[[deps V'] P'] Hr0]; [by left|]. rewrite Hr0. simpl.
    apply build_dependency_graph_closure in Hr0 as [_ Hdeps].
    case_bool_decide as Hin.
    + destruct (IH Hrest (acc ++ [r0])) as (requiring & -> & Hsub & Hmem).
      exists (r0 :: requiring). rewrite <- app_assoc. split_and!; [done | by constructor |].
      intros r. rewrite !elem_of_cons, Hmem. split.
      * intros [-> |(? & ? & ?)]; [|by auto]. split_and!; [by left | done | by apply Hdeps].
      * intros ([-> |?] & ? & ?); [by left | by right].
    + destruct (IH Hrest acc) as (requiring & -> & Hsub & Hmem).
      exists requiring. split_and!; [done | by constructor |].
      intros r. rewrite elem_of_cons, Hmem. split; [by intuition|].
      intros ([-> |?] & ? & ?); [|done]. by destruct Hin; apply Hdeps.
  - subst r0.
    destruct (IH Hrest acc) as (requiring & -> & Hsub & Hmem).
    exists requiring. split_and!; [done | by constructor |].
    intros r. rewrite elem_of_cons, Hmem. split; [by intuition|].
    intros ([-> |?] & ? & ?); done.
Qed.

(** X3.  The display of the installation plan cannot fail after planning
    has succeeded: every package to install has an entry in the dictionary
    built from the index (no [KeyError]) and every new call of the graph
    builder returns.  The list [required_by] of a package holds, in the
    order of the request, the requested repository names other than the
    package from which it can be reached; it is not empty for a package that
    was not requested, so such a package is always shown with
    [(required by ...)] and the last branch of the display is never
    taken. *)
Theorem installation_plan_shown enum index mip_dir package_names plan :
  enumerates enum →
  install_package enum index mip_dir package_names = Done plan →
  ∃ lines,
    installation_plan index (filter (λ pkg, ¬ endswith pkg ".mhl") package_names)
                      (to_install plan) = Done (Some lines)
    ∧ Forall2 (λ pkg_name line,
         ∃ pkg_info requiring,
           package_info_map index !! pkg_name = Some pkg_info
           ∧ required_by index pkg_name
                         (filter (λ pkg, ¬ endswith pkg ".mhl") package_names) []
             = Done requiring
           ∧ requiring `sublist_of` filter (λ pkg, ¬ endswith pkg ".mhl") package_names
           ∧ (∀ r, r ∈ requiring ↔
                   r ∈ filter (λ pkg, ¬ endswith pkg ".mhl") package_names
                   ∧ r ≠ pkg_name ∧ rtc (depends_on index) r pkg_name)
           ∧ (pkg_name ∉ filter (λ pkg, ¬ endswith pkg ".mhl") package_names →
              requiring ≠ [])
           ∧ line = if bool_decide
                         (pkg_name ∈ filter (λ pkg, ¬ endswith pkg ".mhl") package_names)
                    then "  - " +:+ pkg_name +:+ " " +:+ version pkg_info
                    else "  - " +:+ pkg_name +:+ " " +:+ version pkg_info
                           +:+ " (required by " +:+ String.concat ", " requiring +:+ ")")
       (to_install plan) lines.
Proof.
  intros Henum Hplan.
  pose proof (install_package_inv enum index mip_dir package_names Henum) as Hinv.
  rewrite Hplan in Hinv. destruct Hinv as (Hresolve & _ & Hmem & Hto & _).
  set (repo_packages := filter (λ pkg, ¬ endswith pkg ".mhl") package_names) in *.
  assert (∀ r, r ∈ repo_packages →
            ∃ res, MipClient._build_dependency_graph r index ∅ [] = Done res) as Hall.
  { apply (resolve_requested_Done index repo_packages ∅). by eexists. }
  pose proof (resolve_requested_closure _ _ _ _ Hresolve) as Hclosure.
  assert (∀ p, p ∈ to_install plan →
               ∃ r, r ∈ repo_packages ∧ rtc (depends_on index) r p) as Hreq.
  { intros p. rewrite Hto. intros [_ Hp%Hmem%Hclosure]%list_elem_of_filter.
    destruct Hp as [?|?]; [set_solver | done]. }
  clear Hto Hmem Hclosure Hresolve Hplan.
  induction (to_install plan) as [|p rest IH]; simpl.
  { exists []. split; [done | constructor]. }
  destruct IH as (lines & Hlines & Hforall).
  { intros q Hq. apply Hreq. by right. }
  destruct (Hreq p) as (r & Hr & Hrp); [by left|].
  destruct (package_info_map_is_Some index p) as (pkg_info & Hinfo & _).
  { destruct (Hall r Hr) as [[[out V'] P'] Hrun].
    eapply build_dependency_graph_found; [exact Hrun|].
    by apply (build_dependency_graph_closure _ _ _ _ _ Hrun). }
  destruct (required_by_spec index p repo_packages Hall []) as (requiring & Hby & Hsub & Hin).
  simpl in Hby. rewrite Hinfo, Hby, Hlines. simpl.
  eexists. split; [done|]. constructor; [|done].
  exists pkg_info, requiring.
  assert (p ∉ repo_packages → requiring ≠ []) as Hne.
  { intros Hp Hnil. assert (r ∈ requiring) as Hr'.
    { apply Hin. split_and!; [done | | done]. by intros ->. }
    rewrite Hnil in Hr'. by apply elem_of_nil in Hr'. }
  split_and!; [done..|]. unfold plan_line.
  case_bool_decide as Hp; [done|]. by rewrite bool_decide_eq_true_2 by auto.
Qed.

Lemma installation_plan_shown_witness :
  enumerates elements
  ∧ ∃ plan,
      install_package elements chain_index partial_dir ["C"] = Done plan
      ∧ ∃ lines,
          installation_plan chain_index (filter (λ pkg, ¬ endswith pkg ".mhl") ["C"])
                            (to_install plan) = Done (Some lines)
          ∧ Forall2 (λ pkg_name line,
               ∃ pkg_info requiring,
                 package_info_map chain_index !! pkg_name = Some pkg_info
                 ∧ required_by chain_index pkg_name
                               (filter (λ pkg, ¬ endswith pkg ".mhl") ["C"]) []
                   = Done requiring
                 ∧ requiring `sublist_of` filter (λ pkg, ¬ endswith pkg ".mhl") ["C"]
                 ∧ (∀ r, r ∈ requiring ↔
                         r ∈ filter (λ pkg, ¬ endswith pkg ".mhl") ["C"]
                         ∧ r ≠ pkg_name ∧ rtc (depends_on chain_index) r pkg_name)
                 ∧ (pkg_name ∉ filter (λ pkg, ¬ endswith pkg ".mhl") ["C"] →
                    requiring ≠ [])
                 ∧ line = if bool_decide
                               (pkg_name ∈ filter (λ pkg, ¬ endswith pkg ".mhl") ["C"])
                          then "  - " +:+ pkg_name +:+ " " +:+ version pkg_info
                          else "  - " +:+ pkg_name +:+ " " +:+ version pkg_info
                                 +:+ " (required by " +:+ String.concat ", " requiring
                                 +:+ ")")
             (to_install plan) lines.
Proof.
  split; [apply enumerates_elements|].
  eexists. split; [vm_compute; reflexivity|].
  apply (installation_plan_shown elements chain_index partial_dir ["C"]);
    [apply enumerates_elements | vm_compute; reflexivity].
Defined.

Example installation_plan_chain :
  installation_plan chain_index ["C"] ["B"; "C"]
  = Done (Some ["  - B 1.0 (required by C)"; "  - C 1.0"]).
Proof. vm_compute. reflexivity. Qed.

(** ** The older install command *)

Lemma mip_build_dependency_graph_fuel fuel :
  ∀ package_name manifest visited path,
    Mip.build_dependency_graph fuel package_name manifest visited path
    = MipClient.build_dependency_graph fuel package_name manifest visited path.
Proof.
  induction fuel as [|fuel IH]; intros package_name manifest visited path; simpl; [done|].
  case_bool_decide; [done|]. case_bool_decide; [done|].
  destruct (find_package package_name manifest) as [package_info|]; [|done].
  erewrite for_each_dependency_ext; [done|]. intros d V. simpl. by rewrite IH.
Qed.


Example legacy_install_partial :
  Legacy.install_package chain_index partial_dir "C" = Done ["B"; "C"].
Proof. vm_compute. reflexivity. Qed.



(** ** The uninstall plan and its execution *)

Lemma exists_in_spec mip_dir p :
  exists_in mip_dir p ↔ ∃ pkg_dir, pkg_dir ∈ mip_dir ∧ dir_name pkg_dir = p.
Proof.
  unfold exists_in. rewrite bool_decide_spec, list_elem_of_fmap. naive_solver.
Qed.

Lemma requires_exists_in mip_dir p q : requires mip_dir p q → exists_in mip_dir p.
Proof. intros (pkg_dir & ? & ? & _). apply exists_in_spec. by exists pkg_dir. Qed.

Lemma tc_requires_other_exists_in mip_dir p r :
  tc (requires_other mip_dir) p r → exists_in mip_dir p.
Proof. intros Htc. destruct Htc as [? ? [H _]|? ? ? [H _] _]; by eapply requires_exists_in. Qed.

(** The manifest read for a name lists what a directory of that name
    lists; with one directory per name, nothing else. *)
Lemma read_package_dependencies_requires mip_dir p q :
  q ∈ _read_package_dependencies mip_dir p → requires mip_dir p q.
Proof.
  induction mip_dir as [|pkg_dir rest IH]; simpl; [by intros ?%elem_of_nil|].
  case_bool_decide as Hname.
  - intros Hq. exists pkg_dir. split_and!; [by left | done..].
  - intros (d & ? & ? & ?)%IH. exists d. split_and!; [by right | done..].
Qed.

Lemma requires_read_package_dependencies mip_dir p q :
  NoDup (dir_name <$> mip_dir) → requires mip_dir p q →
  q ∈ _read_package_dependencies mip_dir p.
Proof.
  induction mip_dir as [|pkg_dir rest IH]; simpl.
  { intros _ (d & Hd & _). by apply elem_of_nil in Hd. }
  rewrite NoDup_cons. intros [Hnotin Hnd] (d & Hd & Hname & Hq).
  apply elem_of_cons in Hd as [-> |Hd].
  - by rewrite bool_decide_eq_true_2.
  - rewrite bool_decide_eq_false_2.
    + apply IH; [done|]. by exists d.
    + intros Heq. apply Hnotin. rewrite Heq, <- Hname. apply list_elem_of_fmap. by exists d.
Qed.

(** The plan is closed under dependents and holds installed packages
    only. *)
Lemma uninstall_plan_members enum mip_dir package_names :
  enumerates enum →
  ∃ plan,
    uninstall_package enum mip_dir package_names = Some plan
    ∧ NoDup (to_uninstall plan)
    ∧ (∀ p, p ∈ to_uninstall plan ↔ p ∈ all_to_uninstall plan)
    ∧ (∀ p, p ∈ all_to_uninstall plan ↔
         ∃ r, r ∈ package_names ∧ exists_in mip_dir r
              ∧ (p = r ∨ tc (requires_other mip_dir) p r))
    ∧ (∀ p, p ∈ all_to_uninstall plan → exists_in mip_dir p)
    ∧ (∀ p q, requires mip_dir p q → q ∈ all_to_uninstall plan →
              p ∈ all_to_uninstall plan).
Proof.
  intros Henum.
  destruct (uninstall_package_plan enum mip_dir package_names Henum)
    as (plan & Hplan & Hnd & Hmem & Hall & _).
  exists plan. split_and!; [done..| |].
  - intros p (r & _ & Hr & [-> |Htc])%Hall; [done|]. by eapply tc_requires_other_exists_in.
  - intros p q Hpq (r & Hr & Hr' & Hq)%Hall.
    destruct (decide (p = q)) as [-> |Hne]; [apply Hall; by exists r|].
    apply Hall. exists r. split_and!; [done..|]. right.
    destruct Hq as [-> |Hq]; [by apply tc_once | by eapply tc_l].
Qed.

(** The uninstall set is the least set that holds the requested names with
    a directory and is closed under dependents. *)
Lemma uninstall_plan_least enum mip_dir package_names :
  enumerates enum →
  ∃ plan,
    uninstall_package enum mip_dir package_names = Some plan
    ∧ (∀ r, r ∈ not_installed plan ↔ r ∈ package_names ∧ ¬ exists_in mip_dir r)
    ∧ (∀ r, r ∈ package_names → exists_in mip_dir r → r ∈ all_to_uninstall plan)
    ∧ (∀ p, p ∈ all_to_uninstall plan → exists_in mip_dir p)
    ∧ (∀ p q, requires mip_dir p q → q ∈ all_to_uninstall plan →
              p ∈ all_to_uninstall plan)
    ∧ ∀ X : gset string,
        (∀ r, r ∈ package_names → exists_in mip_dir r → r ∈ X) →
        (∀ p q, requires mip_dir p q → q ∈ X → p ∈ X) →
        all_to_uninstall plan ⊆ X.
Proof.
  intros Henum.
  destruct (uninstall_plan_members enum mip_dir package_names Henum)
    as (plan & Hplan & _ & _ & Hall & Hinstalled & Hclosed).
  exists plan. split_and!; [done| |  |done|done|].
  - intros r. unfold uninstall_package in Hplan.
    destruct (filter (λ pkg_name, exists_in mip_dir pkg_name) package_names).
    + injection Hplan as <-. simpl. by rewrite list_elem_of_filter, (comm (∧)).
    + destruct (collect_reverse_dependencies _ _ _); simpl in Hplan; [|done].
      destruct (_build_uninstall_order _ _ _); simpl in Hplan; [|done].
      injection Hplan as <-. simpl. by rewrite list_elem_of_filter, (comm (∧)).
  - intros r Hr Hr'. apply Hall. exists r. by auto.
  - intros X Hreq HX p (r & Hr & Hr' & Hp)%Hall.
    destruct Hp as [-> |Htc]; [by apply Hreq|].
    assert (r ∈ X) as HrX by by apply Hreq. clear Hr Hr'.
    induction Htc as [p r [Hpr _]|p q r [Hpq _] _ IH]; [by eapply HX|].
    eapply HX; [done|]. by apply IH.
Qed.

Example uninstall_diamond_side :
  uninstall_package elements diamond_dir ["B"; "Z"]
  = Some {| not_installed := ["Z"]; all_to_uninstall := list_to_set ["B"; "D"];
            to_uninstall := ["D"; "B"] |}.
Proof. vm_compute. reflexivity. Qed.

Lemma exists_in_rmtree mip_dir p q :
  exists_in (rmtree mip_dir p) q ↔ exists_in mip_dir q ∧ q ≠ p.
Proof.
  rewrite !exists_in_spec. unfold rmtree. split.
  - intros (d & [Hne Hd]%list_elem_of_filter & <-). split; [by exists d | done].
  - intros [(d & Hd & <-) Hne]. exists d. split; [by apply list_elem_of_filter | done].
Qed.

Lemma remove_packages_all rmtree_raises to_uninstall :
  ∀ mip_dir uninstalled_count,
    NoDup to_uninstall →
    (∀ p, p ∈ to_uninstall → exists_in mip_dir p) →
    (∀ p, p ∈ to_uninstall → rmtree_raises p = false) →
    remove_packages rmtree_raises to_uninstall mip_dir uninstalled_count
    = (filter (λ pkg_dir, dir_name pkg_dir ∉ to_uninstall) mip_dir,
       Uninstalled (uninstalled_count + length to_uninstall)).
Proof.
  induction to_uninstall as [|pkg rest IH]; intros mip_dir n Hnd Hex Hok; simpl.
  { f_equal; [|f_equal; lia]. symmetry. apply filter_all_true.
    intros d _ Hd. by apply elem_of_nil in Hd. }
  apply NoDup_cons in Hnd as [Hpkg Hnd].
  rewrite (proj1 (Is_true_true _) (Hex pkg (list_elem_of_here _ _))).
  rewrite (Hok pkg) by by left.
  rewrite IH; [|done| |].
  - f_equal; [|f_equal; lia]. unfold rmtree. rewrite list_filter_filter.
    apply list_filter_iff. intros d. rewrite not_elem_of_cons. tauto.
  - intros p Hp. apply exists_in_rmtree. split; [apply Hex; by right|]. by intros ->.
  - intros p Hp. apply Hok. by right.
Qed.


Lemma confirm_and_uninstall_planned enum lower rmtree_raises mip_dir package_names
    response plan :
  uninstall_package enum mip_dir package_names = Some plan →
  to_uninstall plan ≠ [] →
  confirm_and_uninstall enum lower rmtree_raises mip_dir package_names response
  = if bool_decide (lower response ∈ ["y"; "yes"]) then
      Some (remove_packages rmtree_raises (to_uninstall plan) mip_dir 0)
    else Some (mip_dir, Cancelled).
Proof.
  intros Hplan Hne. unfold confirm_and_uninstall.
  destruct (filter (λ pkg_name, exists_in mip_dir pkg_name) package_names) as [|r rest]
    eqn:Hreq.
  - unfold uninstall_package in Hplan. rewrite Hreq in Hplan. injection Hplan as <-.
    by destruct Hne.
  - by rewrite Hplan.
Qed.

(** A confirmed run in which no removal fails removes the uninstall set, and
    nothing that is left lists a removed package. *)
Lemma confirm_and_uninstall_removes enum lower rmtree_raises mip_dir package_names
    response :
  enumerates enum →
  (∃ r, r ∈ package_names ∧ exists_in mip_dir r) →
  lower response ∈ ["y"; "yes"] →
  (∀ p, exists_in mip_dir p → rmtree_raises p = false) →
  ∃ plan,
    uninstall_package enum mip_dir package_names = Some plan
    ∧ confirm_and_uninstall enum lower rmtree_raises mip_dir package_names response
      = Some (filter (λ pkg_dir, dir_name pkg_dir ∉ all_to_uninstall plan) mip_dir,
              Uninstalled (size (all_to_uninstall plan)))
    ∧ (∀ pkg_dir q,
         pkg_dir ∈ filter (λ pkg_dir, dir_name pkg_dir ∉ all_to_uninstall plan) mip_dir →
         q ∈ manifest_dependencies pkg_dir → q ∉ all_to_uninstall plan)
    ∧ ∀ response',
        confirm_and_uninstall enum lower rmtree_raises
          (filter (λ pkg_dir, dir_name pkg_dir ∉ all_to_uninstall plan) mip_dir)
          package_names response'
        = Some (filter (λ pkg_dir, dir_name pkg_dir ∉ all_to_uninstall plan) mip_dir,
                NothingToUninstall).
Proof.
  intros Henum (r0 & Hr0 & Hr0') Hyes Hok.
  destruct (uninstall_plan_members enum mip_dir package_names Henum)
    as (plan & Hplan & Hnd & Hmem & Hall & Hinstalled & Hclosed).
  exists plan. split; [done|].
  assert (r0 ∈ to_uninstall plan) as Hr0''.
  { apply Hmem, Hall. exists r0. by auto. }
  split_and!.
  - rewrite (confirm_and_uninstall_planned _ _ _ _ _ _ plan Hplan).
    2:{ intros Hnil. rewrite Hnil in Hr0''. by apply elem_of_nil in Hr0''. }
    rewrite bool_decide_eq_true_2 by done.
    rewrite remove_packages_all; [|done| |].
    + f_equal. f_equal.
      * apply list_filter_iff. intros d. by rewrite Hmem.
      * f_equal. simpl. apply Permutation_length, NoDup_Permutation;
          [done | apply NoDup_elements |]. intros p. by rewrite Hmem, elem_of_elements.
    + intros p Hp. by apply Hinstalled, Hmem.
    + intros p Hp. by apply Hok, Hinstalled, Hmem.
  - intros pkg_dir q [Hout Hin]%list_elem_of_filter Hq Hq'. apply Hout.
    apply (Hclosed _ q); [|done]. by exists pkg_dir.
  - intros response'. unfold confirm_and_uninstall.
    rewrite filter_all_false; [done|].
    intros r Hr (d & [Hout Hd]%list_elem_of_filter & Hname)%exists_in_spec.
    apply Hout. rewrite Hname. apply Hall. exists r. split_and!; [done| |by left].
    apply exists_in_spec. by exists d.
Qed.

Example confirm_and_uninstall_diamond_side :
  confirm_and_uninstall elements (λ response, response) (λ _, false) diamond_dir
                        ["B"; "Z"] "yes"
  = Some ([Installed "C" ["X"]; Installed "X" []], Uninstalled 2).
Proof. vm_compute. reflexivity. Qed.


Example uninstall_chain_failure :
  confirm_and_uninstall elements (λ response, response) (λ p, bool_decide (p = "B"))
                        chain_dir ["A"] "y"
  = Some ([Installed "A" []; Installed "B" ["A"]], UninstallFailed "B").
Proof. vm_compute. reflexivity. Qed.

(** ** The older uninstall command *)



Example legacy_uninstall_chain :
  Legacy.uninstall_package (λ response, response) (λ _, false) chain_dir "A" "y"
  = ([Installed "B" ["A"]; Installed "C" ["B"]], Legacy.Uninstalled)
  ∧ confirm_and_uninstall elements (λ response, response) (λ _, false) chain_dir ["A"] "y"
    = Some ([], Uninstalled 3).
Proof. split; vm_compute; reflexivity. Qed.

(** ** The uninstallation plan shown to the user *)

Section transitive_dependencies.

Variable mip_dir : list installed_package.
Variable S : gset string.

Lemma sum_filter_mono (f : installed_package → nat) (C C' : gset string) l :
  C ⊆ C' →
  sum_list_with f (filter (λ pkg_dir, dir_name pkg_dir ∉ C') l)
  ≤ sum_list_with f (filter (λ pkg_dir, dir_name pkg_dir ∉ C) l).
Proof.
  intros Hsub. induction l as [|d l IH]; [done|].
  rewrite !filter_cons. destruct (decide (dir_name d ∉ C')) as [Hd|Hd].
  - rewrite decide_True by set_solver. simpl. lia.
  - destruct (decide (dir_name d ∉ C)); simpl; lia.
Qed.

Lemma sum_filter_insert (f : string → nat) (C : gset string) dep l :
  dep ∈ dir_name <$> l → dep ∉ C →
  f dep + sum_list_with (λ pkg_dir, f (dir_name pkg_dir))
            (filter (λ pkg_dir, dir_name pkg_dir ∉ {[dep]} ∪ C) l)
  ≤ sum_list_with (λ pkg_dir, f (dir_name pkg_dir))
      (filter (λ pkg_dir, dir_name pkg_dir ∉ C) l).
Proof.
  intros Hin HC. induction l as [|d l IH]; [by apply elem_of_nil in Hin|].
  rewrite fmap_cons in Hin. rewrite !filter_cons.
  destruct (decide (dir_name d = dep)) as [Heq|Hne].
  - rewrite decide_False by set_solver. rewrite decide_True by (by rewrite Heq).
    simpl. rewrite Heq.
    assert (C ⊆ {[dep]} ∪ C) as Hsub by set_solver.
    pose proof (sum_filter_mono (λ pkg_dir, f (dir_name pkg_dir)) C ({[dep]} ∪ C) l Hsub).
    lia.
  - apply elem_of_cons in Hin as [?|Hin]; [done|]. specialize (IH Hin).
    destruct (decide (dir_name d ∉ C)) as [Hd|Hd].
    + rewrite decide_True by set_solver. simpl. lia.
    + rewrite decide_False by set_solver. done.
Qed.

Lemma transitive_dependencies_fuel fuel :
  ∀ to_check checked all_deps,
    length to_check + unchecked_weight mip_dir checked < fuel →
    is_Some (transitive_dependencies fuel mip_dir S to_check checked all_deps).
Proof.
  induction fuel as [|fuel IH]; intros to_check checked all_deps Hfuel; [lia|].
  destruct to_check as [|dep to_check]; simpl; [done|]. simpl in Hfuel.
  destruct (bool_decide (dep ∈ checked) || bool_decide (dep ∉ S)) eqn:Hskip.
  { apply IH. lia. }
  apply orb_false_iff in Hskip as [Hchecked%bool_decide_eq_false _].
  destruct (exists_in mip_dir dep) eqn:Hexists.
  - apply IH. rewrite length_app.
    pose proof (sum_filter_insert (λ p, length (_read_package_dependencies mip_dir p))
                  checked dep mip_dir) as Hle.
    unfold unchecked_weight.
    assert (dep ∈ dir_name <$> mip_dir) as Hin.
    { apply Is_true_true in Hexists. unfold exists_in in Hexists.
      by apply bool_decide_spec in Hexists. }
    specialize (Hle Hin Hchecked). unfold unchecked_weight in Hfuel. lia.
  - apply IH.
    pose proof (sum_filter_mono
                  (λ pkg_dir, length (_read_package_dependencies mip_dir (dir_name pkg_dir)))
                  checked ({[dep]} ∪ checked) mip_dir) as Hle.
    assert (checked ⊆ {[dep]} ∪ checked) as Hsub by set_solver. specialize (Hle Hsub).
    unfold unchecked_weight in *. lia.
Qed.

Lemma transitive_dependencies_found fuel :
  ∀ to_check checked all_deps,
    transitive_dependencies fuel mip_dir S to_check checked checked = Some all_deps →
    checked ⊆ all_deps
    ∧ (∀ x, x ∈ all_deps → x ∈ checked
            ∨ ∃ w, w ∈ to_check ∧ w ∈ S ∧ rtc (reads_within S mip_dir) w x)
    ∧ (∀ w, w ∈ to_check → w ∈ S → w ∈ all_deps)
    ∧ (∀ x y, x ∈ all_deps → x ∉ checked → reads_within S mip_dir x y → y ∈ all_deps).
Proof.
  induction fuel as [|fuel IH]; intros to_check checked all_deps Hrun; [done|].
  destruct to_check as [|dep to_check]; simpl in Hrun.
  { injection Hrun as <-. split_and!; [done | by left | | done].
    intros w Hw. by apply elem_of_nil in Hw. }
  destruct (bool_decide (dep ∈ checked) || bool_decide (dep ∉ S)) eqn:Hskip.
  { apply IH in Hrun as (Hsub & Hsound & Hwork & Hclosed).
    split_and!; [done| | |done].
    - intros x [?|(w & Hw & ?)]%Hsound; [by left|]. right. exists w. split; [by right|done].
    - intros w [-> |Hw]%elem_of_cons HwS; [|by apply Hwork].
      apply orb_true_iff in Hskip as [Hc%bool_decide_eq_true|Hc%bool_decide_eq_true];
        [by apply Hsub | done]. }
  apply orb_false_iff in Hskip as [Hchecked%bool_decide_eq_false HS%bool_decide_eq_false].
  apply dec_stable in HS.
  assert (transitive_dependencies fuel mip_dir S
            (to_check ++ _read_package_dependencies mip_dir dep)
            ({[dep]} ∪ checked) ({[dep]} ∪ checked) = Some all_deps) as Hrun'.
  { destruct (exists_in mip_dir dep) eqn:Hexists; [done|].
    assert (_read_package_dependencies mip_dir dep = []) as ->; [|by rewrite app_nil_r].
    destruct (_read_package_dependencies mip_dir dep) as [|q l] eqn:Hread; [done|].
    assert (requires mip_dir dep q) as Hreq.
    { apply read_package_dependencies_requires. rewrite Hread. by left. }
    apply requires_exists_in in Hreq. by rewrite Hexists in Hreq. }
  clear Hrun. apply IH in Hrun' as (Hsub & Hsound & Hwork & Hclosed).
  split_and!.
  - set_solver.
  - intros x [[->%elem_of_singleton|?]%elem_of_union|(w & Hw & HwS & Hwx)]%Hsound.
    + right. exists dep. split_and!; [by left | done..].
    + by left.
    + right. apply elem_of_app in Hw as [Hw|Hw].
      * exists w. split_and!; [by right | done..].
      * exists dep. split_and!; [by left | done |].
        eapply rtc_l; [|done]. by split_and!.
  - intros w [-> |Hw]%elem_of_cons HwS; [set_solver|]. apply Hwork; [set_solver | done].
  - intros x y Hx Hxc Hxy. destruct (decide (x = dep)) as [-> |Hne].
    + destruct Hxy as (_ & Hy & Hread). apply Hwork; [set_solver | done].
    + apply (Hclosed x); [done | set_solver | done].
Qed.

Lemma _transitive_dependencies_found pkg_deps :
  ∃ all_deps,
    _transitive_dependencies mip_dir S pkg_deps = Some all_deps
    ∧ ∀ x, x ∈ all_deps ↔
           ∃ w, w ∈ pkg_deps ∧ w ∈ S ∧ rtc (reads_within S mip_dir) w x.
Proof.
  unfold _transitive_dependencies.
  destruct (transitive_dependencies_fuel
              (Datatypes.S (length pkg_deps
                 + sum_list_with
                     (λ pkg_dir, length (_read_package_dependencies mip_dir (dir_name pkg_dir)))
                     mip_dir))
              pkg_deps ∅ ∅) as [all_deps Hrun].
  { unfold unchecked_weight. rewrite filter_all_true by set_solver. lia. }
  exists all_deps. split; [done|].
  apply transitive_dependencies_found in Hrun as (_ & Hsound & Hwork & Hclosed).
  intros x. split.
  - intros [?|?]%Hsound; [set_solver | done].
  - intros (w & Hw & HwS & Hwx). specialize (Hwork w Hw HwS). clear Hw HwS.
    induction Hwx as [|w y x Hwy _ IH]; [done|].
    apply IH. apply (Hclosed w); [done | set_solver | done].
Qed.

Lemma depends_on_requested_spec pkg requested_packages :
  pkg ∈ S → (∀ r, r ∈ requested_packages → r ∈ S) →
  ∀ acc, ∃ depending,
    depends_on_requested mip_dir S (_read_package_dependencies mip_dir pkg)
                         requested_packages acc
    = Some (acc ++ depending)
    ∧ depending `sublist_of` requested_packages
    ∧ ∀ r, r ∈ depending ↔ r ∈ requested_packages ∧ tc (reads_within S mip_dir) pkg r.
Proof.
  intros Hpkg. induction requested_packages as [|r0 rest IH]; intros Hreq acc; simpl.
  { exists []. rewrite app_nil_r. split_and!; [done..|]. set_solver. }
  assert (∀ r, r ∈ rest → r ∈ S) as Hrest by (intros r Hr; apply Hreq; by right).
  assert (r0 ∈ S) as Hr0 by (apply Hreq; by left).
  assert (∀ (b : bool) acc,
            (b ↔ tc (reads_within S mip_dir) pkg r0) →
            ∃ depending,
              depends_on_requested mip_dir S (_read_package_dependencies mip_dir pkg) rest
                                   (if b then acc ++ [r0] else acc)
              = Some (acc ++ depending)
              ∧ depending `sublist_of` r0 :: rest
              ∧ ∀ r, r ∈ depending ↔ r ∈ r0 :: rest ∧ tc (reads_within S mip_dir) pkg r)
    as Hstep.
  { intros b acc' Hb. destruct b.
    - destruct (IH Hrest (acc' ++ [r0])) as (depending & -> & Hsub & Hmem).
      exists (r0 :: depending). rewrite <- app_assoc. split_and!; [done | by constructor |].
      intros r. rewrite !elem_of_cons, Hmem. split.
      + intros [-> |[? ?]]; [|by auto]. split; [by left | by apply Hb].
      + intros [[-> |?] ?]; [by left | by right].
    - destruct (IH Hrest acc') as (depending & -> & Hsub & Hmem).
      exists depending. split_and!; [done | by constructor |].
      intros r. rewrite elem_of_cons, Hmem. split; [by intuition|].
      intros [[-> |?] Htc]; [|done]. by apply Hb in Htc. }
  case_bool_decide as Hdirect.
  - apply (Hstep true). split; [|done]. intros _. apply tc_once. by split_and!.
  - destruct (_transitive_dependencies_found (_read_package_dependencies mip_dir pkg))
      as (all_deps & -> & Hdeps). simpl.
    apply (Hstep (bool_decide (r0 ∈ all_deps))). rewrite bool_decide_spec, Hdeps. split.
    + intros (w & Hw & HwS & Hwr). eapply tc_rtc_r; [|done]. apply tc_once. by split_and!.
    + intros Htc. destruct Htc as [? ? (_ & _ & Hr)|? w ? (_ & HwS & Hw) Hwr]; [done|].
      exists w. split_and!; [done..|]. by apply tc_rtc.
Qed.

End transitive_dependencies.

Lemma tc_requires_other_reads_within mip_dir (S : gset string) p r :
  NoDup (dir_name <$> mip_dir) → r ∈ S →
  (∀ q, tc (requires_other mip_dir) q r → q ∈ S) →
  tc (requires_other mip_dir) p r → tc (reads_within S mip_dir) p r.
Proof.
  intros Hunique Hr HS Htc.
  induction Htc as [p r [Hpr Hne]|p y r [Hpy Hne] Hyr IH].
  - apply tc_once. split_and!; [apply HS; by apply tc_once | done |].
    by apply requires_read_package_dependencies.
  - eapply tc_l; [|by apply IH]. split_and!.
    + apply HS. by eapply tc_l.
    + by apply HS.
    + by apply requires_read_package_dependencies.
Qed.

(** X10.  The display of the uninstallation plan always ends (the fuel of
    the loop over [to_check] is enough).  A requested package is shown by
    its name alone.  For any other package of the plan the list
    [depends_on] holds, in the order of the request, the requested installed
    packages it reaches through manifests of the uninstall set; with unique
    directory names this list is not empty, so the package is shown with
    [(depends on ...)] and the last branch of the display is never
    taken. *)
Theorem uninstallation_plan_shown enum mip_dir package_names :
  enumerates enum → NoDup (dir_name <$> mip_dir) →
  ∃ plan lines,
    uninstall_package enum mip_dir package_names = Some plan
    ∧ uninstallation_lines mip_dir (all_to_uninstall plan)
        (filter (λ pkg_name, exists_in mip_dir pkg_name) package_names) (to_uninstall plan)
      = Some lines
    ∧ uninstallation_plan mip_dir (all_to_uninstall plan)
        (filter (λ pkg_name, exists_in mip_dir pkg_name) package_names) (to_uninstall plan)
      = Some (if bool_decide (1 < length (to_uninstall plan)) then lines else [])
    ∧ Forall2 (λ pkg line,
         if bool_decide (pkg ∈ filter (λ pkg_name, exists_in mip_dir pkg_name) package_names)
         then line = "  - " +:+ pkg
         else
           ∃ depending,
             depends_on_requested mip_dir (all_to_uninstall plan)
               (_read_package_dependencies mip_dir pkg)
               (filter (λ pkg_name, exists_in mip_dir pkg_name) package_names) []
             = Some depending
             ∧ depending `sublist_of`
                 filter (λ pkg_name, exists_in mip_dir pkg_name) package_names
             ∧ (∀ r, r ∈ depending ↔
                     r ∈ filter (λ pkg_name, exists_in mip_dir pkg_name) package_names
                     ∧ tc (reads_within (all_to_uninstall plan) mip_dir) pkg r)
             ∧ depending ≠ []
             ∧ line = "  - " +:+ pkg +:+ " (depends on "
                        +:+ String.concat ", " depending +:+ ")")
       (to_uninstall plan) lines.
Proof.
  intros Henum Hunique.
  destruct (uninstall_plan_members enum mip_dir package_names Henum)
    as (plan & Hplan & _ & Hmem & Hall & _ & _).
  exists plan.
  set (requested_packages := filter (λ pkg_name, exists_in mip_dir pkg_name) package_names).
  assert (∀ r, r ∈ requested_packages → r ∈ all_to_uninstall plan) as Hreq.
  { intros r [Hr Hr']%list_elem_of_filter. apply Hall. exists r. by auto. }
  assert (∀ pkg, pkg ∈ to_uninstall plan → pkg ∈ all_to_uninstall plan) as Hin.
  { intros pkg. apply Hmem. }
  assert (∃ lines,
            uninstallation_lines mip_dir (all_to_uninstall plan) requested_packages
                                 (to_uninstall plan) = Some lines
            ∧ Forall2 (λ pkg line,
                 if bool_decide (pkg ∈ requested_packages) then line = "  - " +:+ pkg
                 else
                   ∃ depending,
                     depends_on_requested mip_dir (all_to_uninstall plan)
                       (_read_package_dependencies mip_dir pkg) requested_packages []
                     = Some depending
                     ∧ depending `sublist_of` requested_packages
                     ∧ (∀ r, r ∈ depending ↔
                             r ∈ requested_packages
                             ∧ tc (reads_within (all_to_uninstall plan) mip_dir) pkg r)
                     ∧ depending ≠ []
                     ∧ line = "  - " +:+ pkg +:+ " (depends on "
                                +:+ String.concat ", " depending +:+ ")")
               (to_uninstall plan) lines) as (lines & Hlines & Hforall).
  { clear Hmem Hplan. induction (to_uninstall plan) as [|pkg rest IH]; simpl.
    { exists []. split; [done | constructor]. }
    destruct IH as (lines & -> & Hforall).
    { intros q Hq. apply Hin. by right. }
    assert (pkg ∈ all_to_uninstall plan) as Hpkg by (apply Hin; by left).
    case_bool_decide as Hrequested; simpl.
    { eexists. split; [done|]. constructor; [|done].
      by rewrite bool_decide_eq_true_2. }
    destruct (depends_on_requested_spec mip_dir (all_to_uninstall plan) pkg
                requested_packages Hpkg Hreq []) as (depending & Hdep & Hsub & Hdepending).
    simpl in Hdep. rewrite Hdep. simpl.
    assert (depending ≠ []) as Hne.
    { apply Hall in Hpkg as (r & Hr & Hr' & Hpkg).
      assert (r ∈ requested_packages) as Hr'' by by apply list_elem_of_filter.
      destruct Hpkg as [-> |Htc]; [done|].
      assert (r ∈ depending) as Hrd.
      { apply Hdepending. split; [done|].
        apply tc_requires_other_reads_within; [done | by apply Hreq | | done].
        intros q Hq. apply Hall. exists r. by auto. }
      intros Hnil. rewrite Hnil in Hrd. by apply elem_of_nil in Hrd. }
    eexists. split; [done|]. constructor; [|done].
    rewrite bool_decide_eq_false_2 by done.
    exists depending. split_and!; [done..|].
    unfold uninstall_line. by rewrite bool_decide_eq_true_2. }
  exists lines. split_and!; [done..| |done].
  unfold uninstallation_plan. fold requested_packages. by case_bool_decide.
Qed.

Lemma uninstallation_plan_shown_witness :
  enumerates elements ∧ NoDup (dir_name <$> diamond_dir)
  ∧ ∃ plan lines,
      uninstall_package elements diamond_dir ["X"] = Some plan
      ∧ uninstallation_lines diamond_dir (all_to_uninstall plan)
          (filter (λ pkg_name, exists_in diamond_dir pkg_name) ["X"]) (to_uninstall plan)
        = Some lines
      ∧ uninstallation_plan diamond_dir (all_to_uninstall plan)
          (filter (λ pkg_name, exists_in diamond_dir pkg_name) ["X"]) (to_uninstall plan)
        = Some (if bool_decide (1 < length (to_uninstall plan)) then lines else [])
      ∧ Forall2 (λ pkg line,
           if bool_decide (pkg ∈ filter (λ pkg_name, exists_in diamond_dir pkg_name) ["X"])
           then line = "  - " +:+ pkg
           else
             ∃ depending,
               depends_on_requested diamond_dir (all_to_uninstall plan)
                 (_read_package_dependencies diamond_dir pkg)
                 (filter (λ pkg_name, exists_in diamond_dir pkg_name) ["X"]) []
               = Some depending
               ∧ depending `sublist_of`
                   filter (λ pkg_name, exists_in diamond_dir pkg_name) ["X"]
               ∧ (∀ r, r ∈ depending ↔
                       r ∈ filter (λ pkg_name, exists_in diamond_dir pkg_name) ["X"]
                       ∧ tc (reads_within (all_to_uninstall plan) diamond_dir) pkg r)
               ∧ depending ≠ []
               ∧ line = "  - " +:+ pkg +:+ " (depends on "
                          +:+ String.concat ", " depending +:+ ")")
         (to_uninstall plan) lines.
Proof.
  split; [apply enumerates_elements|].
  assert (NoDup (dir_name <$> diamond_dir)) as Hunique.
  { apply (bool_decide_unpack _). by vm_compute. }
  split; [done|].
  apply (uninstallation_plan_shown elements diamond_dir ["X"]);
    [apply enumerates_elements | done].
Defined.

Example uninstallation_plan_diamond :
  uninstallation_plan diamond_dir (list_to_set ["B"; "C"; "D"; "X"]) ["X"]
                      ["D"; "C"; "B"; "X"]
  = Some ["  - D (depends on X)"; "  - C (depends on X)"; "  - B (depends on X)"; "  - X"].
Proof. vm_compute. reflexivity. Qed.

(** ** Name collisions *)

Example find_name_collisions_sample :
  find_name_collisions colliding_dir
  = Some {| symbol_counts := [("a", 3); ("b", 2); ("c", 0)];
            colliding_symbols := [("f", ["a"; "a"]); ("g", ["a"; "b"])] |}.
Proof. vm_compute. reflexivity. Qed.

Lemma string_le_total : Total string_le.
Proof.
  intros a b. unfold string_le. destruct (String.leb_total a b) as [H|H]; rewrite H; auto.
Qed.

Lemma sorted_Permutation names : sorted names ≡ₚ names.
Proof. apply merge_sort_Permutation. Qed.

Lemma sorted_Sorted names : Sorted string_le (sorted names).
Proof. apply Sorted_merge_sort, string_le_total. Qed.

(** The entry of a symbol after the symbols of one package are tracked. *)
Lemma track_symbols_lookup package_name symbols :
  ∀ symbol_to_packages symbol,
    track_symbols package_name symbols symbol_to_packages !! symbol
    = let added := listed ← symbols;
                   if bool_decide (listed = symbol) then [package_name] else [] in
      if decide (added = []) then symbol_to_packages !! symbol
      else Some (default [] (symbol_to_packages !! symbol) ++ added).
Proof.
  induction symbols as [|s rest IH]; intros M symbol; [done|].
  cbn [track_symbols]. rewrite IH. cbv zeta. rewrite bind_cons.
  case_bool_decide as Hs.
  - subst s. rewrite lookup_insert_eq. simpl.
    case_decide as Hrest; [by rewrite Hrest|]. by rewrite <- app_assoc.
  - rewrite lookup_insert_ne by done. simpl. done.
Qed.

Lemma found_in_cons mip_dir package_name rest symbol :
  found_in mip_dir (package_name :: rest) symbol
  = (listed ← read_exposed_symbols mip_dir package_name;
     if bool_decide (listed = symbol) then [package_name] else [])
    ++ found_in mip_dir rest symbol.
Proof. unfold found_in. by rewrite bind_cons. Qed.

Lemma scan_symbols_lookup mip_dir packages :
  ∀ symbol_to_packages package_symbol_counts,
    (∀ symbol,
       (scan_symbols mip_dir packages symbol_to_packages package_symbol_counts).1 !! symbol
       = if decide (found_in mip_dir packages symbol = []) then symbol_to_packages !! symbol
         else Some (default [] (symbol_to_packages !! symbol)
                    ++ found_in mip_dir packages symbol))
    ∧ ∀ package_name,
        (scan_symbols mip_dir packages symbol_to_packages package_symbol_counts).2
          !! package_name
        = if decide (package_name ∈ packages)
          then Some (length (read_exposed_symbols mip_dir package_name))
          else package_symbol_counts !! package_name.
Proof.
  induction packages as [|p rest IH]; intros M N.
  { split; [done|]. intros q. cbn [scan_symbols snd].
    destruct (decide (q ∈ [])) as [Hq|_]; [by apply elem_of_nil in Hq | done]. }
  cbn [scan_symbols]. cbv zeta.
  destruct (IH (track_symbols p (read_exposed_symbols mip_dir p) M)
               (<[p := length (read_exposed_symbols mip_dir p)]> N)) as [IH1 IH2].
  split.
  - intros symbol. rewrite IH1, track_symbols_lookup, found_in_cons. cbv zeta.
    set (added := listed ← read_exposed_symbols mip_dir p;
                  if bool_decide (listed = symbol) then [p] else []).
    destruct (decide (found_in mip_dir rest symbol = [])) as [Hrest|Hrest].
    + rewrite Hrest, app_nil_r. done.
    + rewrite (decide_False (P := added ++ _ = [])) by (intros [_ ?]%app_eq_nil; done).
      case_decide as Hadded; [by rewrite Hadded|]. simpl. by rewrite <- app_assoc.
  - intros q. rewrite IH2. destruct (decide (q ∈ rest)) as [Hq|Hq].
    + rewrite decide_True; [done | by right].
    + destruct (decide (q = p)) as [-> |Hne].
      * rewrite lookup_insert_eq. rewrite decide_True; [done | by left].
      * rewrite lookup_insert_ne by done. rewrite decide_False; [done | set_solver].
Qed.

(** X11.  [find_name_collisions] reports [No packages installed yet]
    exactly for an empty packages directory.  Otherwise it lists every
    directory once, in ascending order of the names, with the number of
    symbols its manifest exposes, and it lists the colliding symbols in
    ascending order, each once.  A symbol collides exactly when it is listed
    twice or more in all, and it is shown with one package name for each
    time it is listed, in the order of the scan: a package that lists a
    symbol twice collides with itself. *)
Theorem find_name_collisions_report mip_dir :
  match find_name_collisions mip_dir with
  | None => mip_dir = []
  | Some report =>
      mip_dir ≠ []
      ∧ symbol_counts report
        = (λ package_name,
             (package_name, length (read_exposed_symbols mip_dir package_name)))
            <$> sorted (exposing_name <$> mip_dir)
      ∧ Sorted string_le (fst <$> symbol_counts report)
      ∧ fst <$> symbol_counts report ≡ₚ exposing_name <$> mip_dir
      ∧ Sorted string_le (fst <$> colliding_symbols report)
      ∧ NoDup (fst <$> colliding_symbols report)
      ∧ ∀ symbol found,
          (symbol, found) ∈ colliding_symbols report
          ↔ found = found_in mip_dir (sorted (exposing_name <$> mip_dir)) symbol
            ∧ 1 < length found
  end.
Proof.
  unfold find_name_collisions. cbv zeta.
  pose proof (sorted_Permutation (exposing_name <$> mip_dir)) as Hperm.
  pose proof (sorted_Sorted (exposing_name <$> mip_dir)) as Hsorted.
  remember (sorted (exposing_name <$> mip_dir)) as packages eqn:Hpackages.
  assert (∀ (X : Type) (a b : X) (l : list string),
            l ≠ [] → match l with [] => a | _ :: _ => b end = b) as Hmatch.
  { by intros X a b [|? ?] ?. }
  destruct (decide (packages = [])) as [-> |Hne].
  { apply Permutation_nil_l in Hperm. symmetry in Hperm. by apply fmap_nil_inv in Hperm. }
  rewrite Hmatch by done. clear Hmatch.
  destruct (scan_symbols_lookup mip_dir packages ∅ ∅) as [Hsymbols Hcounts].
  destruct (scan_symbols mip_dir packages ∅ ∅) as [symbol_to_packages package_symbol_counts].
  simpl in Hsymbols, Hcounts. cbv beta iota. cbn [symbol_counts colliding_symbols].
  set (collisions := filter (λ entry : string * list string, 1 < length entry.2)
                            symbol_to_packages).
  assert (symbol_counts_eq :
            (λ package_name, (package_name, default 0 (package_symbol_counts !! package_name)))
              <$> packages
            = (λ package_name,
                 (package_name, length (read_exposed_symbols mip_dir package_name)))
                <$> packages).
  { apply list_fmap_ext. intros i q Hq. rewrite Hcounts.
    rewrite decide_True; [done|]. by eapply list_elem_of_lookup_2. }
  assert (∀ l : list string, (fst <$> ((λ package_name,
             (package_name, length (read_exposed_symbols mip_dir package_name))) <$> l)) = l)
    as Hfst.
  { intros l. rewrite <- list_fmap_compose. rewrite <- (list_fmap_id l) at 2.
    by apply list_fmap_ext. }
  assert (∀ l : list string,
            (fst <$> ((λ symbol, (symbol, default [] (collisions !! symbol))) <$> l)) = l)
    as Hfst'.
  { intros l. rewrite <- list_fmap_compose. rewrite <- (list_fmap_id l) at 2.
    by apply list_fmap_ext. }
  split_and!.
  - intros ->. by apply Permutation_nil_r in Hperm.
  - done.
  - by rewrite symbol_counts_eq, Hfst.
  - by rewrite symbol_counts_eq, Hfst.
  - rewrite Hfst'. apply sorted_Sorted.
  - rewrite Hfst'. unfold sorted. rewrite merge_sort_Permutation. apply NoDup_elements.
  - assert (∀ symbol found,
              collisions !! symbol = Some found
              ↔ found = found_in mip_dir packages symbol ∧ 1 < length found) as Hiff.
    { intros symbol found. unfold collisions. rewrite map_lookup_filter_Some, Hsymbols, lookup_empty. simpl.
      case_decide as Hnil.
      - rewrite Hnil. split; [by intros [? _] | intros [-> ?]; simpl in *; lia].
      - split; [by intros [[= <-] ?] | by intros [-> ?]]. }
    intros symbol found. rewrite list_elem_of_fmap. split.
    + intros (s & [= -> ->] & Hs). unfold sorted in Hs. rewrite merge_sort_Permutation in Hs.
      apply elem_of_elements, elem_of_dom in Hs as [l Hl]. rewrite Hl. simpl.
      by apply Hiff.
    + intros Hfound%Hiff. exists symbol. split; [by rewrite Hfound|].
      unfold sorted. rewrite merge_sort_Permutation. apply elem_of_elements, elem_of_dom. by eexists.
Qed.

(** ** The topological sort on a cycle *)

Example topological_sort_packages_cycle :
  _topological_sort_packages ["A"; "B"; "A"; "Z"] (package_info_map lasso_index)
  = Some ["B"; "A"; "Z"]
  ∧ _topological_sort_packages ["B"; "C"] (package_info_map lasso_index) = Some ["C"; "B"].
Proof. split; vm_compute; reflexivity. Qed.

(** ** The recursion limit *)

(** *** A deeper recursion changes no outcome but the [RecursionError] *)

Lemma for_each_dependency_mono resolve resolve' deps :
  (∀ d V r, resolve d V = r → r ≠ OutOfFuel → resolve' d V = r) →
  ∀ V0 R0 r, for_each_dependency resolve deps V0 R0 = r → r ≠ OutOfFuel →
    for_each_dependency resolve' deps V0 R0 = r.
Proof.
  intros Hmono. induction deps as [|d rest IH]; intros V0 R0 r Hrun Hr; simpl in *; [done|].
  destruct (resolve d V0) as [[sub V1]|e|] eqn:Hd; simpl in Hrun.
  - rewrite (Hmono d V0 _ Hd) by done. simpl. by apply IH.
  - rewrite (Hmono d V0 _ Hd) by done. done.
  - by subst r.
Qed.

Lemma build_dependency_graph_mono index fuel :
  ∀ fuel' package_name V P r,
    MipClient.build_dependency_graph fuel package_name index V P = r → r ≠ OutOfFuel →
    fuel ≤ fuel' →
    MipClient.build_dependency_graph fuel' package_name index V P = r.
Proof.
  induction fuel as [|fuel IH]; intros fuel' package_name V P r Hrun Hr Hle.
  { simpl in Hrun. by subst r. }
  destruct fuel' as [|fuel']; [lia|]. simpl in *.
  case_bool_decide; [done|]. case_bool_decide; [done|].
  destruct (find_package package_name index) as [package_info|]; [|done].
  set (L := for_each_dependency
              (λ dep visited,
                 with_copy (MipClient.build_dependency_graph fuel dep index visited
                              (P ++ [package_name])))
              (dependencies package_info) ({[package_name]} ∪ V) []) in Hrun.
  assert (L ≠ OutOfFuel) as HL.
  { intros HL. rewrite HL in Hrun. simpl in Hrun. by subst r. }
  assert (for_each_dependency
            (λ dep visited,
               with_copy (MipClient.build_dependency_graph fuel' dep index visited
                            (P ++ [package_name])))
            (dependencies package_info) ({[package_name]} ∪ V) [] = L) as ->; [|done].
  apply (for_each_dependency_mono
           (λ dep visited,
              with_copy (MipClient.build_dependency_graph fuel dep index visited
                           (P ++ [package_name])))); [|done..].
  intros d V0 r0 Hd Hr0. simpl in *.
  destruct (MipClient.build_dependency_graph fuel d index V0 (P ++ [package_name]))
    as [x|e|] eqn:Hcall; [| |by subst r0].
  - by rewrite (IH fuel' _ _ _ _ Hcall) by (done || lia).
  - by rewrite (IH fuel' _ _ _ _ Hcall) by (done || lia).
Qed.

(** Within the limit the graph builder does what it does with all the
    depth it needs. *)
Lemma build_dependency_graph_within limit index package_name V P :
  MipClient.build_dependency_graph limit package_name index V P ≠ OutOfFuel →
  MipClient.build_dependency_graph limit package_name index V P
  = MipClient._build_dependency_graph package_name index V P.
Proof.
  intros Hlimit. unfold MipClient._build_dependency_graph.
  pose proof (build_dependency_graph_returns index package_name V P) as Hreturns.
  unfold MipClient._build_dependency_graph in Hreturns.
  transitivity (MipClient.build_dependency_graph (limit `max` S (length index))
                  package_name index V P).
  - symmetry.
    apply (build_dependency_graph_mono index limit (limit `max` S (length index)));
      [done | done | lia].
  - apply (build_dependency_graph_mono index (S (length index))
             (limit `max` S (length index))); [done | done | lia].
Qed.

Lemma build_dependency_graph_enough limit index package_name V P :
  length index < limit →
  MipClient.build_dependency_graph limit package_name index V P
  = MipClient._build_dependency_graph package_name index V P.
Proof.
  intros Hlimit. unfold MipClient._build_dependency_graph.
  apply (build_dependency_graph_mono index (S (length index)) limit); [done | | lia].
  apply build_dependency_graph_returns.
Qed.

Section visit_mono.

Variable candidates : string → list string.
Variable selected : string → string → bool.

Lemma visit_each_mono visit visit' pkg_name others :
  (∀ p st st', visit p st = Some st' → visit' p st = Some st') →
  ∀ st st', visit_each selected visit pkg_name others st = Some st' →
    visit_each selected visit' pkg_name others st = Some st'.
Proof.
  intros Hmono. induction others as [|other rest IH]; intros st st' Hrun; simpl in *; [done|].
  destruct (selected pkg_name other); [|by apply IH].
  destruct (visit other st) as [st1|] eqn:Hother; simpl in Hrun; [|done].
  rewrite (Hmono _ _ _ Hother). simpl. by apply IH.
Qed.

Lemma visit_mono fuel :
  ∀ fuel' p st st',
    visit candidates selected fuel p st = Some st' → fuel ≤ fuel' →
    visit candidates selected fuel' p st = Some st'.
Proof.
  induction fuel as [|fuel IH]; intros fuel' p st st' Hrun Hle; [done|].
  destruct fuel' as [|fuel']; [lia|]. simpl in *.
  case_bool_decide; [done|].
  destruct (visit_each _ _ _ _ _) as [[V1 R1]|] eqn:Hloop; simpl in Hrun; [|done].
  rewrite (visit_each_mono (visit candidates selected fuel) (visit candidates selected fuel')
             p (candidates p)) with (st' := (V1, R1)); [done | | done].
  intros q st0 st1 Hq. apply (IH fuel'); [done | lia].
Qed.

Lemma visit_all_mono fuel fuel' roots :
  fuel ≤ fuel' →
  ∀ st st', visit_all candidates selected fuel roots st = Some st' →
    visit_all candidates selected fuel' roots st = Some st'.
Proof.
  intros Hle. induction roots as [|p rest IH]; intros st st' Hrun; simpl in *; [done|].
  destruct (visit candidates selected fuel p st) as [st1|] eqn:Hp; simpl in Hrun; [|done].
  rewrite (visit_mono fuel fuel' _ _ _ Hp Hle). simpl. by apply IH.
Qed.

(** Two runs that both return give the same result. *)
Lemma visit_all_within fuel fuel' roots st st1 st2 :
  visit_all candidates selected fuel roots st = Some st1 →
  visit_all candidates selected fuel' roots st = Some st2 → st1 = st2.
Proof.
  intros H1 H2.
  apply (visit_all_mono fuel (fuel `max` fuel')) in H1; [|lia].
  apply (visit_all_mono fuel' (fuel `max` fuel')) in H2; [|lia]. congruence.
Qed.

End visit_mono.

Lemma scan_packages_mono find find' package_name entries :
  (∀ q V r, find q V = Some r → find' q V = Some r) →
  ∀ V0 acc r, scan_packages find package_name entries V0 acc = Some r →
    scan_packages find' package_name entries V0 acc = Some r.
Proof.
  intros Hmono. induction entries as [|e rest IH]; intros V0 acc r Hrun; simpl in *; [done|].
  case_bool_decide; [by apply IH|]. case_bool_decide; [|by apply IH].
  destruct (find (dir_name e) V0) as [[deps V1]|] eqn:He; simpl in Hrun; [|done].
  rewrite (Hmono _ _ _ He). simpl. by apply IH.
Qed.

Lemma find_reverse_dependencies_deeper mip_dir fuel :
  ∀ fuel' package_name V r,
    find_reverse_dependencies fuel package_name mip_dir V = Some r → fuel ≤ fuel' →
    find_reverse_dependencies fuel' package_name mip_dir V = Some r.
Proof.
  induction fuel as [|fuel IH]; intros fuel' package_name V r Hrun Hle; [done|].
  destruct fuel' as [|fuel']; [lia|]. simpl in *.
  case_bool_decide; [done|].
  eapply scan_packages_mono; [|exact Hrun].
  intros q V0 r0 Hq. apply (IH fuel'); [done | lia].
Qed.

Lemma find_reverse_dependencies_within limit mip_dir package_name V r :
  find_reverse_dependencies limit package_name mip_dir V = Some r →
  _find_reverse_dependencies package_name mip_dir V = Some r.
Proof.
  intros Hlimit.
  destruct (find_reverse_dependencies_returns mip_dir package_name V) as [r' Hr'].
  rewrite Hr'. unfold _find_reverse_dependencies in Hr'.
  apply (find_reverse_dependencies_deeper _ _ (limit `max` S (S (length mip_dir)))) in Hlimit;
    [|lia].
  apply (find_reverse_dependencies_deeper _ _ (limit `max` S (S (length mip_dir)))) in Hr';
    [|lia].
  congruence.
Qed.

Lemma find_reverse_dependencies_enough limit mip_dir package_name V :
  S (length mip_dir) < limit →
  find_reverse_dependencies limit package_name mip_dir V
  = _find_reverse_dependencies package_name mip_dir V.
Proof.
  intros Hlimit.
  destruct (find_reverse_dependencies_returns mip_dir package_name V) as [r Hr].
  rewrite Hr. unfold _find_reverse_dependencies in Hr.
  apply (find_reverse_dependencies_deeper _ _ limit) in Hr; [done | lia].
Qed.

(** *** The install planner within the limit *)

Lemma resolve_requested_within_eq limit index repo_packages :
  ∀ required r,
    resolve_requested_within limit index repo_packages required = r → r ≠ OutOfFuel →
    resolve_requested index repo_packages required = r.
Proof.
  induction repo_packages as [|r0 rest IH]; intros required r Hrun Hr; simpl in *; [done|].
  destruct (MipClient.build_dependency_graph limit r0 index ∅ []) as [[[out V'] P']|e|]
    eqn:Hr0; simpl in Hrun; [| |by subst r].
  - rewrite <- (build_dependency_graph_within limit), Hr0 by by rewrite Hr0. simpl.
    by apply IH.
  - rewrite <- (build_dependency_graph_within limit), Hr0 by by rewrite Hr0. done.
Qed.

Lemma resolve_requested_within_enough limit index repo_packages :
  length index < limit →
  ∀ required,
    resolve_requested_within limit index repo_packages required
    = resolve_requested index repo_packages required.
Proof.
  intros Hlimit. induction repo_packages as [|r0 rest IH]; intros required; simpl; [done|].
  rewrite build_dependency_graph_enough by done.
  destruct (MipClient._build_dependency_graph r0 index ∅ []) as [[[out V'] P']|e|];
    simpl; [apply IH | done..].
Qed.

Lemma topological_sort_packages_within_eq limit package_names info_map sorted :
  topological_sort_packages_within limit package_names info_map = Some sorted →
  _topological_sort_packages package_names info_map = Some sorted.
Proof.
  destruct (topological_sort_packages_post_order package_names info_map)
    as (sorted' & Hsort & _).
  rewrite Hsort. unfold topological_sort_packages_within, _topological_sort_packages in *.
  cbv zeta in *.
  destruct (visit_all _ _ limit _ _) as [[V1 R1]|] eqn:H1; simpl; [|done].
  destruct (visit_all _ _ (S (length package_names)) _ _) as [[V2 R2]|] eqn:H2;
    simpl in Hsort; [|done].
  pose proof (visit_all_within _ _ _ _ _ _ _ _ H1 H2) as [= <- <-]. congruence.
Qed.

Lemma topological_sort_packages_within_enough limit package_names info_map :
  size (list_to_set package_names : gset string) < limit →
  topological_sort_packages_within limit package_names info_map
  = _topological_sort_packages package_names info_map.
Proof.
  intros Hlimit.
  destruct (topological_sort_packages_post_order package_names info_map)
    as (sorted' & Hsort & _).
  rewrite Hsort. unfold topological_sort_packages_within, _topological_sort_packages in *.
  cbv zeta in *.
  set (candidates := λ pkg_name, default [] (adjacency package_names info_map !! pkg_name))
    in *.
  set (selected := λ (_ : string) dep, bool_decide (dep ∈ package_names)) in *.
  destruct (visit_all_fuel candidates selected (list_to_set package_names)) with
    (fuel := limit) (roots := package_names) (V := (∅ : gset string)) (R := @nil string)
    as [[V1 R1] H1].
  - intros p o [_ Ho]. apply bool_decide_unpack in Ho. set_solver.
  - intros p V R. by apply visit_fuel; [intros q o [_ Ho]; apply bool_decide_unpack in Ho;
                                         set_solver|..].
  - set_solver.
  - assert ((list_to_set package_names : gset string) ∖ ∅ ⊆ list_to_set package_names)
      as Hle by set_solver.
    apply subseteq_size in Hle. lia.
  - rewrite H1. simpl.
    destruct (visit_all _ _ (S (length package_names)) _ _) as [[V2 R2]|] eqn:H2;
      simpl in Hsort; [|done].
    pose proof (visit_all_within _ _ _ _ _ _ _ _ H1 H2) as [= <- <-]. congruence.
Qed.

(** The required packages have an entry in the index. *)
Lemma resolve_requested_found index repo_packages required :
  resolve_requested index repo_packages ∅ = Done required →
  ∀ p, p ∈ required → p ∈ name <$> index.
Proof.
  intros Hresolve p Hp.
  apply (resolve_requested_closure _ _ _ _ Hresolve) in Hp as [Hp|(r & Hr & Hrp)];
    [set_solver|].
  assert (∃ res, MipClient._build_dependency_graph r index ∅ [] = Done res)
    as [[[out V'] P'] Hrun].
  { apply (resolve_requested_Done index repo_packages ∅); [by eexists | done]. }
  eapply build_dependency_graph_found; [exact Hrun|].
  by apply (build_dependency_graph_closure _ _ _ _ _ Hrun).
Qed.

Lemma size_required_le enum index repo_packages required :
  enumerates enum →
  resolve_requested index repo_packages ∅ = Done required →
  size (list_to_set (enum required) : gset string) ≤ length index.
Proof.
  intros Henum Hresolve.
  assert ((list_to_set (enum required) : gset string) ⊆ list_to_set (name <$> index)) as Hsub.
  { intros p Hp. apply elem_of_list_to_set in Hp. apply elem_of_list_to_set.
    apply (enumerates_elem_of enum required p Henum) in Hp.
    by eapply resolve_requested_found. }
  apply subseteq_size in Hsub.
  pose proof (size_list_to_set_le (name <$> index)) as Hle.
  rewrite length_fmap in Hle. lia.
Qed.

(** What the planner computes within the limit, outcome by outcome. *)
Lemma install_package_within_inv limit enum path_exists index package_names :
  enumerates enum →
  match install_package_within limit enum path_exists index package_names with
  | Done plan =>
      resolve_requested index (filter (λ pkg, ¬ endswith pkg ".mhl") package_names) ∅
        = Done (all_required plan)
      ∧ (filter (λ pkg, ¬ endswith pkg ".mhl") package_names ≠ [] →
         _topological_sort_packages (enum (all_required plan)) (package_info_map index)
         = Some (all_packages_to_install plan))
      ∧ NoDup (all_packages_to_install plan)
      ∧ (∀ p, p ∈ all_packages_to_install plan ↔ p ∈ all_required plan)
      ∧ to_install plan
        = filter (λ pkg_name, ¬ path_exists pkg_name) (all_packages_to_install plan)
      ∧ already_installed plan
        = filter (λ pkg_name, path_exists pkg_name) (all_packages_to_install plan)
      ∧ executed plan
        = (DownloadAndInstall <$> to_install plan)
          ++ (InstallFromMhl <$> filter (λ pkg, endswith pkg ".mhl") package_names)
  | Exit e =>
      resolve_requested index (filter (λ pkg, ¬ endswith pkg ".mhl") package_names) ∅
        = Exit e
  | OutOfFuel => limit ≤ length index
  end.
Proof.
  intros Henum. unfold install_package_within. cbv zeta.
  destruct (filter (λ pkg, ¬ endswith pkg ".mhl") package_names) as [|r0 repo] eqn:Hrepo.
  - simpl. split_and!; [done | done | apply NoDup_nil_2 | set_solver | done..].
  - destruct (resolve_requested_within limit index (r0 :: repo) ∅) as [required|e|]
      eqn:Hresolve.
    + apply resolve_requested_within_eq in Hresolve; [|done].
      cbn [mbind run_bind].
      destruct (topological_sort_packages_within limit (enum required)
                  (package_info_map index)) as [sorted|] eqn:Hsort.
      * apply topological_sort_packages_within_eq in Hsort.
        destruct (topological_sort_packages_post_order (enum required)
                    (package_info_map index)) as (sorted' & Hsort' & Hnd & Hmem & _).
        rewrite Hsort in Hsort'. injection Hsort' as <-.
        simpl. split_and!; [done | done | done | | done..].
        intros p. rewrite Hmem. by apply enumerates_elem_of.
      * simpl. apply Nat.nlt_ge. intros Hlimit.
        rewrite topological_sort_packages_within_enough in Hsort.
        -- destruct (topological_sort_packages_post_order (enum required)
                       (package_info_map index)) as (sorted' & Hsort' & _). congruence.
        -- pose proof (size_required_le enum index _ _ Henum Hresolve). lia.
    + apply resolve_requested_within_eq in Hresolve; done.
    + simpl. apply Nat.nlt_ge. intros Hlimit.
      rewrite resolve_requested_within_enough in Hresolve by done.
      by apply resolve_requested_returns in Hresolve.
Qed.

(** With enough depth, and the test read off the packages directory, the
    planner is the one of the first part. *)
Lemma install_package_within_enough limit enum index mip_dir package_names :
  enumerates enum → length index < limit →
  install_package_within limit enum (exists_in mip_dir) index package_names
  = install_package enum index mip_dir package_names.
Proof.
  intros Henum Hlimit. unfold install_package_within, install_package. cbv zeta.
  destruct (filter (λ pkg, ¬ endswith pkg ".mhl") package_names) as [|r0 repo]; [done|].
  rewrite resolve_requested_within_enough by done.
  destruct (resolve_requested index (r0 :: repo) ∅) as [required|e|] eqn:Hresolve;
    [|done..].
  cbn [mbind run_bind]. rewrite topological_sort_packages_within_enough; [done|].
  pose proof (size_required_le enum index _ _ Henum Hresolve). lia.
Qed.

(** *** The uninstall planner within the limit *)

Lemma collect_reverse_dependencies_within_eq limit mip_dir requested_packages :
  ∀ S0 S,
    collect_reverse_dependencies_within limit mip_dir requested_packages S0 = Some S →
    collect_reverse_dependencies mip_dir requested_packages S0 = Some S.
Proof.
  induction requested_packages as [|r rest IH]; intros S0 S Hrun; simpl in *; [done|].
  destruct (find_reverse_dependencies limit r mip_dir ∅) as [[deps V]|] eqn:Hr;
    simpl in Hrun; [|done].
  rewrite (find_reverse_dependencies_within _ _ _ _ _ Hr). simpl. by apply IH.
Qed.

Lemma collect_reverse_dependencies_within_enough limit mip_dir requested_packages :
  S (length mip_dir) < limit →
  ∀ S0, collect_reverse_dependencies_within limit mip_dir requested_packages S0
        = collect_reverse_dependencies mip_dir requested_packages S0.
Proof.
  intros Hlimit. induction requested_packages as [|r rest IH]; intros S0; simpl; [done|].
  rewrite find_reverse_dependencies_enough by done.
  destruct (_find_reverse_dependencies r mip_dir ∅) as [[deps V]|]; simpl; [apply IH | done].
Qed.

Lemma build_uninstall_order_within_eq limit order mip_dir result :
  build_uninstall_order_within limit order mip_dir = Some result →
  build_uninstall_order order mip_dir = Some result.
Proof.
  destruct (build_uninstall_order_post_order (list_to_set order) order mip_dir)
    as (result' & Hold & _); [set_solver|].
  rewrite Hold. unfold build_uninstall_order_within, build_uninstall_order in *.
  cbv zeta in *.
  destruct (visit_all _ _ limit _ _) as [[V1 R1]|] eqn:H1; simpl; [|done].
  destruct (visit_all _ _ (S (length order)) _ _) as [[V2 R2]|] eqn:H2;
    simpl in Hold; [|done].
  pose proof (visit_all_within _ _ _ _ _ _ _ _ H1 H2) as [= <- <-]. congruence.
Qed.

Lemma build_uninstall_order_within_enough limit order mip_dir :
  size (list_to_set order : gset string) < limit →
  build_uninstall_order_within limit order mip_dir = build_uninstall_order order mip_dir.
Proof.
  intros Hlimit.
  destruct (build_uninstall_order_post_order (list_to_set order) order mip_dir)
    as (result' & Hold & _); [set_solver|].
  rewrite Hold. unfold build_uninstall_order_within, build_uninstall_order in *.
  cbv zeta in *.
  set (candidates := λ _ : string, order) in *.
  set (selected := λ pkg_name other_pkg : string,
         bool_decide (other_pkg ≠ pkg_name)
         && bool_decide (pkg_name ∈ default []
              (fold_left (λ adj pkg_name,
                            <[pkg_name := _read_package_dependencies mip_dir pkg_name]> adj)
                         order (∅ : gmap string (list string)) !! other_pkg))) in *.
  destruct (visit_all_fuel candidates selected (list_to_set order)) with
    (fuel := limit) (roots := order) (V := (∅ : gset string)) (R := @nil string)
    as [[V1 R1] H1].
  - intros p o [Ho _]. set_solver.
  - intros p V R. by apply visit_fuel; [intros q o [Ho _]; set_solver|..].
  - set_solver.
  - assert ((list_to_set order : gset string) ∖ ∅ ⊆ list_to_set order) as Hle by set_solver.
    apply subseteq_size in Hle. lia.
  - rewrite H1. simpl.
    destruct (visit_all _ _ (S (length order)) _ _) as [[V2 R2]|] eqn:H2;
      simpl in Hold; [|done].
    pose proof (visit_all_within _ _ _ _ _ _ _ _ H1 H2) as [= <- <-]. congruence.
Qed.

Lemma installed_within_limit mip_dir (all : gset string) :
  (∀ p, p ∈ all → exists_in mip_dir p) → size all ≤ length mip_dir.
Proof.
  intros Hall.
  assert (all ⊆ list_to_set (dir_name <$> mip_dir)) as Hsub.
  { intros p Hp%Hall. apply elem_of_list_to_set. unfold exists_in in Hp.
    by apply bool_decide_unpack in Hp. }
  apply subseteq_size in Hsub.
  pose proof (size_list_to_set_le (dir_name <$> mip_dir)) as Hle.
  rewrite length_fmap in Hle. lia.
Qed.

Lemma uninstall_package_within_eq limit enum mip_dir package_names plan :
  uninstall_package_within limit enum mip_dir package_names = Some plan →
  uninstall_package enum mip_dir package_names = Some plan.
Proof.
  unfold uninstall_package_within, uninstall_package, _build_uninstall_order. cbv zeta.
  destruct (filter (λ pkg_name, exists_in mip_dir pkg_name) package_names) as [|r rest];
    [done|].
  destruct (collect_reverse_dependencies_within limit mip_dir (r :: rest) _) as [all|]
    eqn:Hall; [|done].
  rewrite (collect_reverse_dependencies_within_eq _ _ _ _ _ Hall).
  cbn [mbind option_bind].
  destruct (build_uninstall_order_within limit (enum all) mip_dir) as [order|] eqn:Horder;
    [|done].
  by rewrite (build_uninstall_order_within_eq _ _ _ _ Horder).
Qed.

Lemma uninstall_package_within_enough limit enum mip_dir package_names :
  enumerates enum → S (length mip_dir) < limit →
  uninstall_package_within limit enum mip_dir package_names
  = uninstall_package enum mip_dir package_names.
Proof.
  intros Henum Hlimit.
  destruct (uninstall_plan_members enum mip_dir package_names Henum)
    as (plan & Hplan & _ & _ & _ & Hinstalled & _).
  rewrite Hplan. revert Hplan.
  unfold uninstall_package_within, uninstall_package, _build_uninstall_order. cbv zeta.
  destruct (filter (λ pkg_name, exists_in mip_dir pkg_name) package_names) as [|r rest];
    [done|].
  rewrite collect_reverse_dependencies_within_enough by done.
  destruct (collect_reverse_dependencies mip_dir (r :: rest) _) as [all|]; [|done].
  cbn [mbind option_bind].
  destruct (build_uninstall_order (enum all) mip_dir) as [order|] eqn:Horder; [|done].
  intros [= <-]. cbn [all_to_uninstall] in Hinstalled.
  rewrite build_uninstall_order_within_enough, Horder; [done|].
  assert ((list_to_set (enum all) : gset string) = all) as ->.
  { apply set_eq. intros p. rewrite elem_of_list_to_set. by apply enumerates_elem_of. }
  pose proof (installed_within_limit mip_dir all Hinstalled). lia.
Qed.

Lemma confirm_and_uninstall_within_eq limit enum lower rmtree_raises mip_dir package_names
    response :
  (∀ plan, uninstall_package enum mip_dir package_names = Some plan →
           uninstall_package_within limit enum mip_dir package_names = Some plan) →
  confirm_and_uninstall_within limit enum lower rmtree_raises mip_dir package_names response
  = confirm_and_uninstall enum lower rmtree_raises mip_dir package_names response.
Proof.
  intros Hsame. unfold confirm_and_uninstall_within, confirm_and_uninstall.
  destruct (filter (λ pkg_name, exists_in mip_dir pkg_name) package_names) as [|r rest];
    [done|].
  destruct (uninstall_package enum mip_dir package_names) as [plan|] eqn:Hplan.
  - by rewrite (Hsame plan).
  - destruct (uninstall_package_within limit enum mip_dir package_names) as [plan|] eqn:Hw;
      [|done].
    apply uninstall_package_within_eq in Hw. congruence.
Qed.

(** ** The install planner within the limit: its plans *)

Example install_chain_recursion_error :
  install_package_within 2 elements (λ _, false) chain_index ["C"] = OutOfFuel
  ∧ ∃ plan, install_package_within 4 elements (λ _, false) chain_index ["C"] = Done plan
            ∧ to_install plan = ["A"; "B"; "C"].
Proof. split; [vm_compute; reflexivity|]. eexists. split; vm_compute; reflexivity. Qed.

Lemma required_closure index package_names required :
  resolve_requested index (filter (λ pkg, ¬ endswith pkg ".mhl") package_names) ∅
    = Done required →
  ∀ p, p ∈ required ↔
       ∃ r, r ∈ package_names ∧ ¬ endswith r ".mhl" ∧ rtc (depends_on index) r p.
Proof.
  intros Hresolve p. rewrite (resolve_requested_closure _ _ _ _ Hresolve). split.
  - intros [?|(r & [? ?]%list_elem_of_filter & ?)]; [set_solver | by exists r].
  - intros (r & ? & ? & ?). right. exists r. split; [by apply list_elem_of_filter | done].
Qed.

Lemma resolvable_iff index package_names :
  (∃ required,
     resolve_requested index (filter (λ pkg, ¬ endswith pkg ".mhl") package_names) ∅
     = Done required)
  ↔ ∀ r n, r ∈ package_names → ¬ endswith r ".mhl" → rtc (depends_on index) r n →
           n ∈ name <$> index ∧ ¬ tc (depends_on index) n n.
Proof.
  rewrite resolve_requested_Done. split.
  - intros Hall r n Hr Hmhl. apply build_dependency_graph_Done_iff, Hall.
    by apply list_elem_of_filter.
  - intros Hall r [Hmhl Hr]%list_elem_of_filter. apply build_dependency_graph_Done_iff.
    intros n. by apply Hall.
Qed.

(** C7 (as amended).  Install planning is idempotent for the requests it
    can resolve.  When every name that can be reached from a requested
    repository name has an entry in the index and lies on no cycle, when
    every package of that closure is present in the packages directory, and
    when the interpreter allows more nested calls than the index has
    entries, the planner returns a plan: its list to install is empty, the
    list of the packages already installed holds the closure, each package
    once, and no download is executed (the steps are the installations of
    the requested [.mhl] sources, none if none was requested). *)
Theorem install_package_idempotent limit (path_exists : string → bool) enum index package_names :
  enumerates enum →
  length index < limit →
  (∀ r n, r ∈ package_names → ¬ endswith r ".mhl" → rtc (depends_on index) r n →
          n ∈ name <$> index ∧ ¬ tc (depends_on index) n n) →
  (∀ r p, r ∈ package_names → ¬ endswith r ".mhl" → rtc (depends_on index) r p →
          path_exists p) →
  ∃ plan,
    install_package_within limit enum path_exists index package_names = Done plan
    ∧ to_install plan = []
    ∧ (∀ p, p ∈ all_required plan ↔
         ∃ r, r ∈ package_names ∧ ¬ endswith r ".mhl" ∧ rtc (depends_on index) r p)
    ∧ already_installed plan ≡ₚ elements (all_required plan)
    ∧ executed plan
      = (InstallFromMhl <$> filter (λ pkg, endswith pkg ".mhl") package_names)
    ∧ ((∀ pkg, pkg ∈ package_names → ¬ endswith pkg ".mhl") → executed plan = []).
Proof.
  intros Henum Hlimit Hresolvable Hpresent.
  pose proof (install_package_within_inv limit enum path_exists index package_names Henum)
    as Hinv.
  apply resolvable_iff in Hresolvable as [required Hrequired].
  destruct (install_package_within limit enum path_exists index package_names)
    as [plan|e|]; [|congruence|lia].
  destruct Hinv as (Hresolve & _ & Hnd & Hmem & Hto & Halready & Hexec).
  pose proof (required_closure _ _ _ Hresolve) as Hclosure.
  assert (∀ p, p ∈ all_packages_to_install plan → path_exists p) as Hall.
  { intros p (r & ? & ? & ?)%Hmem%Hclosure. by apply (Hpresent r). }
  assert (to_install plan = []) as Hnone.
  { rewrite Hto. apply filter_all_false. intros p Hp Hno. by apply Hno, Hall. }
  exists plan. split_and!; [done..| | |].
  - rewrite Halready, filter_all_true by done.
    apply NoDup_Permutation; [done | apply NoDup_elements |].
    intros p. by rewrite Hmem, elem_of_elements.
  - by rewrite Hexec, Hnone.
  - intros Hrepo. rewrite Hexec, Hnone, filter_all_false; [done|].
    intros pkg Hpkg. by apply Hrepo.
Qed.

Lemma pair_index_resolvable r n :
  r ∈ ["A"; "B"] → rtc (depends_on pair_index) r n →
  n ∈ name <$> pair_index ∧ ¬ tc (depends_on pair_index) n n.
Proof.
  intros Hr. apply build_dependency_graph_Done_iff.
  apply elem_of_cons in Hr as [-> |Hr]; [|apply list_elem_of_singleton in Hr as ->];
    eexists; vm_compute; reflexivity.
Qed.

Lemma install_package_idempotent_witness :
  enumerates elements
  ∧ length pair_index < 3
  ∧ (∀ r n, r ∈ ["A"; "B"] → ¬ endswith r ".mhl" → rtc (depends_on pair_index) r n →
            n ∈ name <$> pair_index ∧ ¬ tc (depends_on pair_index) n n)
  ∧ (∀ r p, r ∈ ["A"; "B"] → ¬ endswith r ".mhl" → rtc (depends_on pair_index) r p →
            exists_in pair_dir p)
  ∧ ∃ plan,
      install_package_within 3 elements (exists_in pair_dir) pair_index ["A"; "B"] = Done plan
      ∧ to_install plan = []
      ∧ (∀ p, p ∈ all_required plan ↔
           ∃ r, r ∈ ["A"; "B"] ∧ ¬ endswith r ".mhl" ∧ rtc (depends_on pair_index) r p)
      ∧ already_installed plan ≡ₚ elements (all_required plan)
      ∧ executed plan
        = (InstallFromMhl <$> filter (λ pkg, endswith pkg ".mhl") ["A"; "B"])
      ∧ ((∀ pkg, pkg ∈ ["A"; "B"] → ¬ endswith pkg ".mhl") → executed plan = []).
Proof.
  split; [apply enumerates_elements|].
  assert (length pair_index < 3) as Hlimit by (simpl; lia).
  assert (∀ r n, r ∈ ["A"; "B"] → ¬ endswith r ".mhl" → rtc (depends_on pair_index) r n →
                 n ∈ name <$> pair_index ∧ ¬ tc (depends_on pair_index) n n) as Hresolvable.
  { intros r n Hr _. by apply pair_index_resolvable. }
  assert (∀ r p, r ∈ ["A"; "B"] → ¬ endswith r ".mhl" → rtc (depends_on pair_index) r p →
                 exists_in pair_dir p) as Hpresent.
  { intros r p Hr _. by apply pair_index_installed. }
  split; [done|]. split; [done|]. split; [done|].
  exact (install_package_idempotent 3 (exists_in pair_dir) elements pair_index ["A"; "B"]
           enumerates_elements Hlimit Hresolvable Hpresent).
Defined.

(** A package that is installed and that the index does not have. *)
Lemma unindexed_present r p :
  r ∈ ["A"] → rtc (depends_on []) r p → exists_in [Installed "A" []] p.
Proof.
  intros ->%list_elem_of_singleton [<- |(y & (package_info & Hfind & _) & _)]%rtc_inv;
    [by vm_compute | done].
Qed.

(** The sentence of the specification fails for a package that is present
    and that the index does not have: the graph builder exits before
    anything is compared with the packages directory. *)
Lemma idempotent_when_present_fails :
  install_package_within 10 elements (exists_in [Installed "A" []]) [] ["A"]
    = Exit (PackageNotFound "A")
  ∧ ¬ idempotent_when_present 10 (exists_in [Installed "A" []]) elements [] ["A"].
Proof.
  assert (install_package_within 10 elements (exists_in [Installed "A" []]) [] ["A"]
          = Exit (PackageNotFound "A")) as Hrun by (vm_compute; reflexivity).
  split; [done|]. intros Hclaim.
  destruct Hclaim as (plan & Hplan & _).
  { intros r p Hr _. by apply unindexed_present. }
  rewrite Hrun in Hplan. discriminate Hplan.
Qed.

(** X1.  A plan the install planner returns splits the required packages
    in two: the required set is exactly what can be reached in the index
    from the requested names that do not end in [.mhl]; the packages to
    install together with the packages reported as already installed are
    the required set, each package once; the packages to install are the
    required packages whose path in the packages directory does not exist,
    and the packages reported as installed those whose path exists, be it a
    package directory or not. *)
Theorem install_plan_partition limit (path_exists : string → bool) enum index package_names plan :
  enumerates enum →
  install_package_within limit enum path_exists index package_names = Done plan →
  (∀ p, p ∈ all_required plan ↔
        ∃ r, r ∈ package_names ∧ ¬ endswith r ".mhl" ∧ rtc (depends_on index) r p)
  ∧ to_install plan ++ already_installed plan ≡ₚ elements (all_required plan)
  ∧ (∀ p, p ∈ to_install plan ↔ p ∈ all_required plan ∧ ¬ path_exists p)
  ∧ (∀ p, p ∈ already_installed plan ↔ p ∈ all_required plan ∧ path_exists p).
Proof.
  intros Henum Hplan.
  pose proof (install_package_within_inv limit enum path_exists index package_names Henum)
    as Hinv.
  rewrite Hplan in Hinv. destruct Hinv as (Hresolve & _ & Hnd & Hmem & Hto & Halready & _).
  split_and!.
  - by apply required_closure.
  - rewrite Hto, Halready.
    rewrite (Permutation_app_comm (filter _ _)).
    rewrite (filter_app_complement (λ pkg_name, path_exists pkg_name)).
    apply NoDup_Permutation; [done | apply NoDup_elements |].
    intros p. by rewrite Hmem, elem_of_elements.
  - intros p. by rewrite Hto, list_elem_of_filter, Hmem, (comm (∧)).
  - intros p. by rewrite Halready, list_elem_of_filter, Hmem, (comm (∧)).
Qed.

Lemma install_plan_partition_witness :
  enumerates elements
  ∧ ∃ plan,
      install_package_within 4 elements (exists_in partial_dir) chain_index ["C"] = Done plan
      ∧ (∀ p, p ∈ all_required plan ↔
              ∃ r, r ∈ ["C"] ∧ ¬ endswith r ".mhl" ∧ rtc (depends_on chain_index) r p)
      ∧ to_install plan ++ already_installed plan ≡ₚ elements (all_required plan)
      ∧ (∀ p, p ∈ to_install plan ↔ p ∈ all_required plan ∧ ¬ exists_in partial_dir p)
      ∧ (∀ p, p ∈ already_installed plan ↔ p ∈ all_required plan ∧ exists_in partial_dir p).
Proof.
  split; [apply enumerates_elements|].
  eexists. split; [vm_compute; reflexivity|].
  apply (install_plan_partition 4 (exists_in partial_dir) elements chain_index ["C"]);
    [apply enumerates_elements | vm_compute; reflexivity].
Defined.

(** X2.  When the interpreter allows more nested calls than the index has
    entries, the install planner raises no [RecursionError], and it returns
    a plan exactly when, from every requested name that does not end in
    [.mhl], every name that can be reached has an entry in the index and
    none lies on a dependency cycle; requested [.mhl] sources play no part.
    When it exits, the error is the one the graph builder reports for the
    first requested repository name whose resolution fails. *)
Theorem install_package_succeeds_iff limit (path_exists : string → bool) enum index package_names :
  enumerates enum →
  length index < limit →
  install_package_within limit enum path_exists index package_names ≠ OutOfFuel
  ∧ ((∃ plan, install_package_within limit enum path_exists index package_names = Done plan)
     ↔ ∀ r n, r ∈ package_names → ¬ endswith r ".mhl" → rtc (depends_on index) r n →
              n ∈ name <$> index ∧ ¬ tc (depends_on index) n n)
  ∧ ∀ e, install_package_within limit enum path_exists index package_names = Exit e →
      ∃ l1 r l2,
        filter (λ pkg, ¬ endswith pkg ".mhl") package_names = l1 ++ r :: l2
        ∧ (∀ r', r' ∈ l1 →
             ∃ res, MipClient.build_dependency_graph limit r' index ∅ [] = Done res)
        ∧ MipClient.build_dependency_graph limit r index ∅ [] = Exit e.
Proof.
  intros Henum Hlimit.
  pose proof (install_package_within_inv limit enum path_exists index package_names Henum)
    as Hinv.
  pose proof (resolvable_iff index package_names) as Hiff.
  destruct (install_package_within limit enum path_exists index package_names)
    as [plan|e|].
  - split_and!; [done | | done]. rewrite <- Hiff.
    destruct Hinv as [Hresolve _]. split; [by eexists | by eexists].
  - split_and!; [done | |].
    + rewrite <- Hiff, Hinv. split; by intros [? ?].
    + intros e' [= <-]. apply resolve_requested_Exit in Hinv as (l1 & r & l2 & ? & Hl1 & Hr).
      exists l1, r, l2. split_and!; [done| |].
      * intros r' Hr'. rewrite build_dependency_graph_enough by done. by apply Hl1.
      * by rewrite build_dependency_graph_enough.
  - lia.
Qed.

Lemma install_package_succeeds_iff_witness :
  enumerates elements
  ∧ length lasso_index < 4
  ∧ install_package_within 4 elements (λ _, false) lasso_index ["A"; "x.mhl"] ≠ OutOfFuel
  ∧ ((∃ plan, install_package_within 4 elements (λ _, false) lasso_index ["A"; "x.mhl"]
              = Done plan)
     ↔ ∀ r n, r ∈ ["A"; "x.mhl"] → ¬ endswith r ".mhl" → rtc (depends_on lasso_index) r n →
              n ∈ name <$> lasso_index ∧ ¬ tc (depends_on lasso_index) n n)
  ∧ ∀ e, install_package_within 4 elements (λ _, false) lasso_index ["A"; "x.mhl"] = Exit e →
      ∃ l1 r l2,
        filter (λ pkg, ¬ endswith pkg ".mhl") ["A"; "x.mhl"] = l1 ++ r :: l2
        ∧ (∀ r', r' ∈ l1 →
             ∃ res, MipClient.build_dependency_graph 4 r' lasso_index ∅ [] = Done res)
        ∧ MipClient.build_dependency_graph 4 r lasso_index ∅ [] = Exit e.
Proof.
  split; [apply enumerates_elements|].
  assert (length lasso_index < 4) as Hlimit by (simpl; lia).
  split; [done|].
  exact (install_package_succeeds_iff 4 (λ _, false) elements lasso_index ["A"; "x.mhl"]
           enumerates_elements Hlimit).
Defined.

Example install_lasso_exits_within :
  install_package_within 4 elements (λ _, false) lasso_index ["A"; "x.mhl"]
  = Exit (CircularDependency ["A"; "B"; "C"; "B"]).
Proof. vm_compute. reflexivity. Qed.

(** The sorted list of an index that names each package once holds every
    declared dependency before its package. *)
Lemma required_sorted_order enum index repo_packages required sorted :
  enumerates enum → NoDup (name <$> index) →
  resolve_requested index repo_packages ∅ = Done required →
  _topological_sort_packages (enum required) (package_info_map index) = Some sorted →
  ∀ p d, p ∈ sorted → depends_on index p d → before d p sorted.
Proof.
  intros Henum Hunique Hresolve Hsort.
  pose proof (resolve_requested_closure _ _ _ _ Hresolve) as Hclosure.
  pose proof (resolve_requested_acyclic _ _ _ _ Hresolve) as Hacyclic.
  destruct (topological_sort_packages_post_order (enum required)
              (package_info_map index)) as (sorted' & Hsort' & Hnd & Hmem & Hord & _).
  rewrite Hsort in Hsort'. injection Hsort' as <-.
  assert (∀ a b, declares_within (enum required) (package_info_map index) a b →
                 depends_on index a b) as Hdep.
  { intros a b (_ & _ & pkg_info & Hinfo & Hb).
    rewrite package_info_map_lookup in Hinfo by done. by exists pkg_info. }
  intros p d Hp Hpd.
  assert (∃ r, r ∈ repo_packages ∧ rtc (depends_on index) r p) as (r & Hr & Hrp).
  { apply Hmem, (enumerates_elem_of enum required p Henum), Hclosure in Hp as [?|?];
      [set_solver | done]. }
  assert (declares_within (enum required) (package_info_map index) p d) as Hpd'.
  { split_and!.
    - by apply Hmem.
    - apply enumerates_elem_of; [done|]. apply Hclosure. right. exists r.
      split; [done | by eapply rtc_r].
    - destruct Hpd as (pkg_info & Hinfo & Hd). exists pkg_info.
      by rewrite package_info_map_lookup. }
  destruct (Hord p d Hpd') as [?|Hback]; [done|]. exfalso.
  apply (Hacyclic r Hr p Hrp). eapply tc_rtc_r; [by apply tc_once|].
  eapply rtc_subrel; [exact Hdep | done].
Qed.

(** X4.  With an index that names each package once, the list to install
    of a returned plan holds no package twice, and for every dependency the
    index declares for a package of the list, either the path of the
    dependency exists already (which is all the planner tests) or the
    dependency stands earlier in the list.  So after any number of
    completed downloads the same holds of every package downloaded so far
    and the packages downloaded before it. *)
Theorem install_plan_dependencies_available limit (path_exists : string → bool) enum
    index package_names plan :
  enumerates enum → NoDup (name <$> index) →
  install_package_within limit enum path_exists index package_names = Done plan →
  NoDup (to_install plan)
  ∧ (∀ p d, p ∈ to_install plan → depends_on index p d →
            path_exists d ∨ before d p (to_install plan))
  ∧ ∀ installed rest, to_install plan = installed ++ rest →
      ∀ p d, p ∈ installed → depends_on index p d → path_exists d ∨ d ∈ installed.
Proof.
  intros Henum Hunique Hplan.
  pose proof (install_package_within_inv limit enum path_exists index package_names Henum)
    as Hinv.
  rewrite Hplan in Hinv. destruct Hinv as (Hresolve & Hsort & Hnd & Hmem & Hto & _).
  assert (NoDup (to_install plan)) as Hnd'.
  { rewrite Hto. by apply NoDup_filter. }
  assert (∀ p d, p ∈ to_install plan → depends_on index p d →
                 path_exists d ∨ before d p (to_install plan)) as Hsafe.
  { intros p d Hp Hpd. destruct (decide (path_exists d)) as [?|Hd]; [by left|]. right.
    rewrite Hto in Hp |- *. apply list_elem_of_filter in Hp as [Hp' Hp].
    apply before_filter; [|done..].
    eapply required_sorted_order; [done | done | exact Hresolve | | done | done].
    apply Hsort. intros Hnil. rewrite Hnil in Hresolve. injection Hresolve as Hreq.
    apply Hmem in Hp. rewrite <- Hreq in Hp. set_solver. }
  split_and!; [done..|].
  intros installed rest Heq p d Hp Hpd.
  destruct (Hsafe p d) as [?|Hbefore]; [rewrite Heq; set_solver | done | by left |].
  right. rewrite Heq in Hbefore, Hnd'. by eapply before_prefix.
Qed.

Lemma install_plan_dependencies_available_witness :
  enumerates elements ∧ NoDup (name <$> chain_index)
  ∧ ∃ plan,
      install_package_within 4 elements (exists_in partial_dir) chain_index ["C"] = Done plan
      ∧ NoDup (to_install plan)
      ∧ (∀ p d, p ∈ to_install plan → depends_on chain_index p d →
                exists_in partial_dir d ∨ before d p (to_install plan))
      ∧ ∀ installed rest, to_install plan = installed ++ rest →
          ∀ p d, p ∈ installed → depends_on chain_index p d →
                 exists_in partial_dir d ∨ d ∈ installed.
Proof.
  split; [apply enumerates_elements|].
  assert (NoDup (name <$> chain_index)) as Hunique.
  { apply (bool_decide_unpack _). by vm_compute. }
  split; [done|].
  eexists. split; [vm_compute; reflexivity|].
  apply (install_plan_dependencies_available 4 (exists_in partial_dir) elements
           chain_index ["C"]); [apply enumerates_elements | done | vm_compute; reflexivity].
Defined.

(** ** The older install command within the limit *)

Lemma legacy_install_package_within limit path_exists manifest package_name :
  LegacyWithin.install_package limit path_exists manifest package_name
  = '(install_order, _, _) ← MipClient.build_dependency_graph limit package_name manifest ∅ [];
    Done (filter (λ pkg_name, ¬ path_exists pkg_name) install_order).
Proof.
  unfold LegacyWithin.install_package. by rewrite mip_build_dependency_graph_fuel.
Qed.

(** X5.  When the interpreter allows more nested calls than the manifest
    has entries, the older [install_package] raises no [RecursionError],
    and it computes a list to install exactly when every name that can be
    reached from the requested one has an entry in the manifest and none
    lies on a cycle.  The list holds, each once, the reachable packages
    whose path does not exist; each has an entry in the dictionary used to
    download it; and every declared dependency of a package of the list has
    an existing path or stands earlier in the list.  No assumption on the
    manifest is needed: the list keeps the order of the graph builder. *)
Theorem legacy_install_package_order limit (path_exists : string → bool) manifest
    package_name :
  length manifest < limit →
  LegacyWithin.install_package limit path_exists manifest package_name ≠ OutOfFuel
  ∧ ((∃ to_install,
        LegacyWithin.install_package limit path_exists manifest package_name
        = Done to_install)
     ↔ ∀ n, rtc (depends_on manifest) package_name n →
            n ∈ name <$> manifest ∧ ¬ tc (depends_on manifest) n n)
  ∧ ∀ to_install,
      LegacyWithin.install_package limit path_exists manifest package_name
        = Done to_install →
      NoDup to_install
      ∧ (∀ p, p ∈ to_install ↔
              rtc (depends_on manifest) package_name p ∧ ¬ path_exists p)
      ∧ (∀ p, p ∈ to_install → is_Some (package_info_map manifest !! p))
      ∧ (∀ p d, p ∈ to_install → depends_on manifest p d →
                path_exists d ∨ before d p to_install).
Proof.
  intros Hlimit. rewrite legacy_install_package_within, build_dependency_graph_enough by done.
  pose proof (build_dependency_graph_Done_iff manifest package_name) as Hiff.
  destruct (MipClient._build_dependency_graph package_name manifest ∅ [])
    as [[[out V'] P']|e|] eqn:Hrun; simpl.
  - split_and!; [done | |].
    { rewrite <- Hiff. split; intros _; by eexists. }
    intros to_install [= <-].
    pose proof (build_dependency_graph_closure _ _ _ _ _ Hrun) as [Hnd Hout].
    pose proof (build_dependency_graph_never_before _ _ _ _ _ _ _ Hrun) as Hord.
    split_and!.
    + by apply NoDup_filter.
    + intros p. by rewrite list_elem_of_filter, Hout, (comm (∧)).
    + intros p [_ Hp]%list_elem_of_filter.
      destruct (package_info_map_is_Some manifest p) as (pkg_info & -> & _); [|done].
      by eapply build_dependency_graph_found.
    + intros p d [Hp' Hp]%list_elem_of_filter Hpd.
      destruct (decide (path_exists d)) as [?|Hd]; [by left|]. right.
      destruct (Hord p d Hp Hpd) as [[?|Hbefore] _]; [set_solver|].
      by apply before_filter.
  - split_and!; [done | | done].
    rewrite <- Hiff. split; by intros [? ?].
  - by apply build_dependency_graph_returns in Hrun.
Qed.

Lemma legacy_install_package_order_witness :
  length chain_index < 4
  ∧ LegacyWithin.install_package 4 (exists_in partial_dir) chain_index "C" ≠ OutOfFuel
  ∧ ((∃ to_install,
        LegacyWithin.install_package 4 (exists_in partial_dir) chain_index "C"
        = Done to_install)
     ↔ ∀ n, rtc (depends_on chain_index) "C" n →
            n ∈ name <$> chain_index ∧ ¬ tc (depends_on chain_index) n n)
  ∧ ∀ to_install,
      LegacyWithin.install_package 4 (exists_in partial_dir) chain_index "C"
        = Done to_install →
      NoDup to_install
      ∧ (∀ p, p ∈ to_install ↔
              rtc (depends_on chain_index) "C" p ∧ ¬ exists_in partial_dir p)
      ∧ (∀ p, p ∈ to_install → is_Some (package_info_map chain_index !! p))
      ∧ (∀ p d, p ∈ to_install → depends_on chain_index p d →
                exists_in partial_dir d ∨ before d p to_install).
Proof.
  assert (length chain_index < 4) as Hlimit by (simpl; lia).
  split; [done|].
  exact (legacy_install_package_order 4 (exists_in partial_dir) chain_index "C" Hlimit).
Defined.

Example legacy_install_within :
  LegacyWithin.install_package 4 (exists_in partial_dir) chain_index "C" = Done ["B"; "C"]
  ∧ LegacyWithin.install_package 2 (exists_in partial_dir) chain_index "C" = OutOfFuel.
Proof. split; vm_compute; reflexivity. Qed.

(** ** The uninstall command within the limit *)

Lemma not_installed_none mip_dir package_names :
  (∀ r, r ∈ package_names → exists_in mip_dir r) →
  filter (λ pkg_name, ¬ exists_in mip_dir pkg_name) package_names = [].
Proof. intros Hall. apply filter_all_false. intros r Hr Hno. by apply Hno, Hall. Qed.

(** X7.  For a request that names sub-directories of the packages
    directory only, and when the interpreter allows more nested calls than
    there are such directories plus one, the uninstall planner returns a
    plan and reports no name as not installed.  The uninstall set is the
    least set of names that holds every requested name and, with a name,
    every directory whose manifest lists it; all its members are
    sub-directories. *)
Theorem uninstall_plan_least_closed limit enum mip_dir package_names :
  enumerates enum →
  S (length mip_dir) < limit →
  (∀ r, r ∈ package_names → exists_in mip_dir r) →
  ∃ plan,
    uninstall_package_within limit enum mip_dir package_names = Some plan
    ∧ not_installed plan = []
    ∧ (∀ r, r ∈ package_names → r ∈ all_to_uninstall plan)
    ∧ (∀ p, p ∈ all_to_uninstall plan → exists_in mip_dir p)
    ∧ (∀ p q, requires mip_dir p q → q ∈ all_to_uninstall plan →
              p ∈ all_to_uninstall plan)
    ∧ ∀ X : gset string,
        (∀ r, r ∈ package_names → r ∈ X) →
        (∀ p q, requires mip_dir p q → q ∈ X → p ∈ X) →
        all_to_uninstall plan ⊆ X.
Proof.
  intros Henum Hlimit Hinstalled.
  rewrite uninstall_package_within_enough by done.
  destruct (uninstall_plan_least enum mip_dir package_names Henum)
    as (plan & Hplan & Hnot & Hreq & Hmembers & Hclosed & Hleast).
  exists plan. split_and!; [done | | | done | done |].
  - apply elem_of_nil_inv. intros r [Hr Hno]%Hnot. by apply Hno, Hinstalled.
  - intros r Hr. apply Hreq; [done | by apply Hinstalled].
  - intros X HX Hclosed'. apply Hleast; [|done]. intros r Hr _. by apply HX.
Qed.

Lemma uninstall_plan_least_closed_witness :
  enumerates elements
  ∧ S (length diamond_dir) < 6
  ∧ (∀ r, r ∈ ["B"] → exists_in diamond_dir r)
  ∧ ∃ plan,
      uninstall_package_within 6 elements diamond_dir ["B"] = Some plan
      ∧ not_installed plan = []
      ∧ (∀ r, r ∈ ["B"] → r ∈ all_to_uninstall plan)
      ∧ (∀ p, p ∈ all_to_uninstall plan → exists_in diamond_dir p)
      ∧ (∀ p q, requires diamond_dir p q → q ∈ all_to_uninstall plan →
                p ∈ all_to_uninstall plan)
      ∧ ∀ X : gset string,
          (∀ r, r ∈ ["B"] → r ∈ X) →
          (∀ p q, requires diamond_dir p q → q ∈ X → p ∈ X) →
          all_to_uninstall plan ⊆ X.
Proof.
  split; [apply enumerates_elements|].
  assert (S (length diamond_dir) < 6) as Hlimit by (simpl; lia).
  assert (∀ r, r ∈ ["B"] → exists_in diamond_dir r) as Hinstalled.
  { intros r ->%list_elem_of_singleton. by vm_compute. }
  split; [done|]. split; [done|].
  exact (uninstall_plan_least_closed 6 elements diamond_dir ["B"] enumerates_elements
           Hlimit Hinstalled).
Defined.

Example uninstall_within :
  uninstall_package_within 6 elements diamond_dir ["B"]
  = Some {| not_installed := []; all_to_uninstall := list_to_set ["B"; "D"];
            to_uninstall := ["D"; "B"] |}
  ∧ uninstall_package_within 1 elements diamond_dir ["B"] = None.
Proof. split; vm_compute; reflexivity. Qed.

(** X8.  For a request that names sub-directories of the packages
    directory only (one at least), within the recursion limit, a confirmed
    uninstallation in which no removal fails removes exactly the
    directories of the uninstall set and counts each package of the set
    once.  No directory that is left lists a removed package in its
    manifest, and repeating the command on what is left finds nothing to
    uninstall. *)
Theorem confirm_and_uninstall_complete limit enum lower rmtree_raises mip_dir
    package_names response :
  enumerates enum →
  S (length mip_dir) < limit →
  package_names ≠ [] →
  (∀ r, r ∈ package_names → exists_in mip_dir r) →
  lower response ∈ ["y"; "yes"] →
  (∀ p, exists_in mip_dir p → rmtree_raises p = false) →
  ∃ plan,
    uninstall_package_within limit enum mip_dir package_names = Some plan
    ∧ confirm_and_uninstall_within limit enum lower rmtree_raises mip_dir package_names
                                   response
      = Some (filter (λ pkg_dir, dir_name pkg_dir ∉ all_to_uninstall plan) mip_dir,
              Uninstalled (size (all_to_uninstall plan)))
    ∧ (∀ pkg_dir q,
         pkg_dir ∈ filter (λ pkg_dir, dir_name pkg_dir ∉ all_to_uninstall plan) mip_dir →
         q ∈ manifest_dependencies pkg_dir → q ∉ all_to_uninstall plan)
    ∧ ∀ response',
        confirm_and_uninstall_within limit enum lower rmtree_raises
          (filter (λ pkg_dir, dir_name pkg_dir ∉ all_to_uninstall plan) mip_dir)
          package_names response'
        = Some (filter (λ pkg_dir, dir_name pkg_dir ∉ all_to_uninstall plan) mip_dir,
                NothingToUninstall).
Proof.
  intros Henum Hlimit Hnames Hinstalled Hyes Hok.
  assert (∃ r, r ∈ package_names ∧ exists_in mip_dir r) as Hreq.
  { destruct package_names as [|r rest]; [done|]. exists r.
    split; [by left | apply Hinstalled; by left]. }
  destruct (confirm_and_uninstall_removes enum lower rmtree_raises mip_dir package_names
              response Henum Hreq Hyes Hok) as (plan & Hplan & Hrun & Hsafe & _).
  exists plan. split_and!; [| |done|].
  - by rewrite uninstall_package_within_enough.
  - rewrite confirm_and_uninstall_within_eq; [done|].
    intros plan' <-. by apply uninstall_package_within_enough.
  - intros response'. unfold confirm_and_uninstall_within.
    rewrite filter_all_false; [done|].
    destruct (uninstall_plan_members enum mip_dir package_names Henum)
      as (plan' & Hplan' & _ & _ & Hall & _ & _).
    rewrite Hplan in Hplan'. injection Hplan' as <-.
    intros r Hr (d & [Hout Hd]%list_elem_of_filter & Hname)%exists_in_spec.
    apply Hout. rewrite Hname. apply Hall. exists r. split_and!; [done| |by left].
    by apply Hinstalled.
Qed.


Lemma confirm_and_uninstall_complete_witness :
  enumerates elements
  ∧ S (length diamond_dir) < 6
  ∧ ["B"] ≠ []
  ∧ (∀ r, r ∈ ["B"] → exists_in diamond_dir r)
  ∧ "y" ∈ ["y"; "yes"]
  ∧ (∀ p : string, exists_in diamond_dir p → false = false)
  ∧ ∃ plan,
      uninstall_package_within 6 elements diamond_dir ["B"] = Some plan
      ∧ confirm_and_uninstall_within 6 elements (λ response, response) (λ _, false)
                                     diamond_dir ["B"] "y"
        = Some (filter (λ pkg_dir, dir_name pkg_dir ∉ all_to_uninstall plan) diamond_dir,
                Uninstalled (size (all_to_uninstall plan)))
      ∧ (∀ pkg_dir q,
           pkg_dir ∈ filter (λ pkg_dir, dir_name pkg_dir ∉ all_to_uninstall plan)
                            diamond_dir →
           q ∈ manifest_dependencies pkg_dir → q ∉ all_to_uninstall plan)
      ∧ ∀ response',
          confirm_and_uninstall_within 6 elements (λ response, response) (λ _, false)
            (filter (λ pkg_dir, dir_name pkg_dir ∉ all_to_uninstall plan) diamond_dir)
            ["B"] response'
          = Some (filter (λ pkg_dir, dir_name pkg_dir ∉ all_to_uninstall plan) diamond_dir,
                  NothingToUninstall).
Proof.
  split; [apply enumerates_elements|].
  assert (S (length diamond_dir) < 6) as Hlimit by (simpl; lia).
  assert (["B"] ≠ @nil string) as Hnames by done.
  assert (∀ r, r ∈ ["B"] → exists_in diamond_dir r) as Hinstalled.
  { intros r ->%list_elem_of_singleton. by vm_compute. }
  assert ("y" ∈ ["y"; "yes"]) as Hyes by by left.
  split; [done|]. split; [done|]. split; [done|]. split; [done|]. split; [done|].
  apply (confirm_and_uninstall_complete 6 elements (λ response, response) (λ _, false)
           diamond_dir ["B"] "y"); [apply enumerates_elements | done..].
Defined.

Example confirm_and_uninstall_within_diamond_side :
  confirm_and_uninstall_within 6 elements (λ response, response) (λ _, false) diamond_dir
                               ["B"] "yes"
  = Some ([Installed "C" ["X"]; Installed "X" []], Uninstalled 2).
Proof. vm_compute. reflexivity. Qed.


Example uninstall_chain_failure_within :
  confirm_and_uninstall_within 5 elements (λ response, response)
                               (λ p, bool_decide (p = "B")) chain_dir ["A"] "y"
  = Some ([Installed "A" []; Installed "B" ["A"]], UninstallFailed "B").
Proof. vm_compute. reflexivity. Qed.

(** ** The topological sort within the limit *)

(** X12.  When the interpreter allows more nested calls of [visit] than
    the input has different names, [_topological_sort_packages] returns,
    for a cyclic input too: the result holds the names of the input, each
    once even when the input repeats a name, names without an entry in the
    dictionary included.  A declared dependency among the sorted names can
    come after the package that declares it only if that package lies on a
    dependency cycle. *)
Theorem topological_sort_packages_total limit package_names info_map :
  size (list_to_set package_names : gset string) < limit →
  ∃ sorted,
    topological_sort_packages_within limit package_names info_map = Some sorted
    ∧ NoDup sorted
    ∧ (∀ p, p ∈ sorted ↔ p ∈ package_names)
    ∧ length sorted = size (list_to_set package_names : gset string)
    ∧ (∀ p d, declares_within package_names info_map p d →
         before d p sorted ∨ tc (declares_within package_names info_map) p p).
Proof.
  intros Hlimit. rewrite topological_sort_packages_within_enough by done.
  destruct (topological_sort_packages_post_order package_names info_map)
    as (sorted & Hsort & Hnd & Hmem & Hord & _).
  exists sorted. split_and!; [done..| |].
  - apply Permutation_length, NoDup_Permutation; [done | apply NoDup_elements |].
    intros p. by rewrite Hmem, elem_of_elements, elem_of_list_to_set.
  - intros p d Hpd. destruct (Hord p d Hpd) as [?|Hback]; [by left|]. right.
    by eapply tc_rtc_r; [apply tc_once|].
Qed.

Lemma topological_sort_packages_total_witness :
  size (list_to_set ["A"; "B"; "A"; "Z"] : gset string) < 4
  ∧ ∃ sorted,
      topological_sort_packages_within 4 ["A"; "B"; "A"; "Z"] (package_info_map lasso_index)
        = Some sorted
      ∧ NoDup sorted
      ∧ (∀ p, p ∈ sorted ↔ p ∈ ["A"; "B"; "A"; "Z"])
      ∧ length sorted = size (list_to_set ["A"; "B"; "A"; "Z"] : gset string)
      ∧ (∀ p d,
           declares_within ["A"; "B"; "A"; "Z"] (package_info_map lasso_index) p d →
           before d p sorted
           ∨ tc (declares_within ["A"; "B"; "A"; "Z"] (package_info_map lasso_index)) p p).
Proof.
  assert (size (list_to_set ["A"; "B"; "A"; "Z"] : gset string) < 4) as Hlimit.
  { vm_compute. lia. }
  split; [done|].
  exact (topological_sort_packages_total 4 ["A"; "B"; "A"; "Z"]
           (package_info_map lasso_index) Hlimit).
Defined.

Example topological_sort_packages_within_limit :
  topological_sort_packages_within 4 ["A"; "B"; "A"; "Z"] (package_info_map lasso_index)
  = Some ["B"; "A"; "Z"]
  ∧ topological_sort_packages_within 3 ["B"; "C"] (package_info_map lasso_index)
    = Some ["C"; "B"]
  ∧ topological_sort_packages_within 1 ["B"; "C"] (package_info_map lasso_index) = None.
Proof. split_and!; vm_compute; reflexivity. Qed.
